(** * A shallow embedding of the TSQL scanner, parser and AST

    The development follows the package structure of the Go sources:
    [token], [tools], [scanner], [ast] and [parser].  Go strings are
    byte strings ([string]); runes are code points ([Z]); the input of
    the scanner is the rune stream that [bufio.Reader.ReadRune] yields
    for the query text.  Loops and recursive descent are bounded by an
    explicit [fuel]; running out of it is a result of its own
    ([OutOfFuel] / [None]), never confused with a parse error. *)

From Stdlib Require Import ZArith List String Ascii Bool Lia.
From stdpp Require Import base gmap strings.
Import ListNotations.
#[local] Open Scope Z_scope.
#[local] Set Warnings "-register-all".

(** ** Runes, bytes and UTF-8 *)

Definition rune := Z.

(** The rune of an ASCII character constant, as in Go's ['x']. *)
Definition rc (a : ascii) : rune := Z.of_N (N_of_ascii a).

Definition byte_of_Z (z : Z) : ascii := ascii_of_N (Z.to_N z).

(** [unicode.ReplacementChar], also [utf8.RuneError]. *)
Definition RuneError : rune := 65533.

(** [utf8.EncodeRune]: what [strings.Builder.WriteRune] and the
    conversion [string(r)] append. *)
Definition utf8_EncodeRune (r : rune) : string :=
  let enc3 (x : rune) :=
    String (byte_of_Z (Z.lor 224 (Z.shiftr x 12)))
      (String (byte_of_Z (Z.lor 128 (Z.land (Z.shiftr x 6) 63)))
         (String (byte_of_Z (Z.lor 128 (Z.land x 63))) EmptyString)) in
  if (0 <=? r) && (r <=? 127) then String (byte_of_Z r) EmptyString
  else if (0 <=? r) && (r <=? 2047) then
    String (byte_of_Z (Z.lor 192 (Z.shiftr r 6)))
      (String (byte_of_Z (Z.lor 128 (Z.land r 63))) EmptyString)
  else if (r <? 0) || (1114111 <? r) || ((55296 <=? r) && (r <=? 57343)) then
    enc3 RuneError
  else if r <=? 65535 then enc3 r
  else
    String (byte_of_Z (Z.lor 240 (Z.shiftr r 18)))
      (String (byte_of_Z (Z.lor 128 (Z.land (Z.shiftr r 12) 63)))
         (String (byte_of_Z (Z.lor 128 (Z.land (Z.shiftr r 6) 63)))
            (String (byte_of_Z (Z.lor 128 (Z.land r 63))) EmptyString))).

Definition WriteRune (buf : string) (r : rune) : string := buf +:+ utf8_EncodeRune r.

Fixpoint encode_runes (rs : list rune) : string :=
  match rs with
  | [] => EmptyString
  | r :: rs' => utf8_EncodeRune r +:+ encode_runes rs'
  end.

Definition in_range (lo hi x : Z) : bool := (lo <=? x) && (x <=? hi).

(** [utf8.DecodeRune] applied repeatedly: the rune sequence that
    [strings.NewReader(s)] yields through [ReadRune], and the conversion
    [[]rune(s)].  An invalid encoding yields [RuneError] and consumes one
    byte. *)
Fixpoint decode_runes (s : string) : list rune :=
  match s with
  | EmptyString => []
  | String a0 s1 =>
    let b0 := rc a0 in
    if b0 <? 128 then b0 :: decode_runes s1
    else if in_range 194 223 b0 then
      match s1 with
      | String a1 s2 =>
        let b1 := rc a1 in
        if in_range 128 191 b1
        then (Z.lor (Z.shiftl (Z.land b0 31) 6) (Z.land b1 63)) :: decode_runes s2
        else RuneError :: decode_runes s1
      | _ => RuneError :: decode_runes s1
      end
    else if in_range 224 239 b0 then
      match s1 with
      | String a1 (String a2 s3) =>
        let b1 := rc a1 in
        let b2 := rc a2 in
        let lo := if b0 =? 224 then 160 else 128 in
        let hi := if b0 =? 237 then 159 else 191 in
        if in_range lo hi b1 && in_range 128 191 b2
        then (Z.lor (Z.lor (Z.shiftl (Z.land b0 15) 12) (Z.shiftl (Z.land b1 63) 6))
                (Z.land b2 63)) :: decode_runes s3
        else RuneError :: decode_runes s1
      | _ => RuneError :: decode_runes s1
      end
    else if in_range 240 244 b0 then
      match s1 with
      | String a1 (String a2 (String a3 s4)) =>
        let b1 := rc a1 in
        let b2 := rc a2 in
        let b3 := rc a3 in
        let lo := if b0 =? 240 then 144 else 128 in
        let hi := if b0 =? 244 then 143 else 191 in
        if in_range lo hi b1 && in_range 128 191 b2 && in_range 128 191 b3
        then (Z.lor (Z.lor (Z.lor (Z.shiftl (Z.land b0 7) 18) (Z.shiftl (Z.land b1 63) 12))
                       (Z.shiftl (Z.land b2 63) 6)) (Z.land b3 63)) :: decode_runes s4
        else RuneError :: decode_runes s1
      | _ => RuneError :: decode_runes s1
      end
    else RuneError :: decode_runes s1
  end.

(** The letter [U+00B5] (micro sign), written 'µ' in the sources. *)
Definition micro : rune := 181.

(** ** Decimal formatting and parsing ([strconv], [fmt] with [%d]) *)

Definition MaxInt64 : Z := 9223372036854775807.
Definition MinInt64 : Z := -9223372036854775808.
Definition MaxUint64 : Z := 18446744073709551615.

(** Two's-complement wrap-around of a mathematical integer to [int64]. *)
Definition wrap64 (z : Z) : Z := (z + 2 ^ 63) mod 2 ^ 64 - 2 ^ 63.

(** Wrap-around to [uint64]. *)
Definition wrapU64 (z : Z) : Z := z mod 2 ^ 64.

Definition digit_char (d : Z) : ascii := byte_of_Z (48 + d).

Fixpoint format_digits (fuel : nat) (n : Z) (acc : string) : string :=
  match fuel with
  | O => acc
  | S f =>
    let acc' := String (digit_char (n mod 10)) acc in
    if n <? 10 then acc' else format_digits f (n / 10) acc'
  end.

(** Decimal digits of a natural number below [10 ^ 40]; every 64-bit
    value has at most 20. *)
Definition FormatUint (n : Z) : string := format_digits 40 n EmptyString.

(** [strconv.FormatInt(n, 10)], [strconv.Itoa] and [fmt.Sprintf("%d", n)]. *)
Definition FormatInt (n : Z) : string :=
  if n <? 0 then String "-"%char (FormatUint (- n)) else FormatUint n.

Definition is_digit_byte (a : ascii) : bool := in_range 48 57 (rc a).

Fixpoint parse_digits (s : string) (acc : Z) : option Z :=
  match s with
  | EmptyString => Some acc
  | String a s' =>
    if is_digit_byte a then parse_digits s' (acc * 10 + (rc a - 48)) else None
  end.

(** The outcome of [strconv.ParseInt] / [ParseUint]: the value, or a
    syntax error (value 0), or a range error together with the nearest
    representable value, which is what the functions return with it. *)
Inductive NumResult : Type :=
| NumOk (v : Z)
| NumErrSyntax
| NumErrRange (clamped : Z).

Definition num_value (r : NumResult) : Z :=
  match r with
  | NumOk v => v
  | NumErrSyntax => 0
  | NumErrRange c => c
  end.

Definition num_failed (r : NumResult) : bool :=
  match r with
  | NumOk _ => false
  | _ => true
  end.

(** [strconv.ParseUint(s, 10, 64)]. *)
Definition ParseUint (s : string) : NumResult :=
  match s with
  | EmptyString => NumErrSyntax
  | _ =>
    match parse_digits s 0 with
    | None => NumErrSyntax
    | Some v => if v <=? MaxUint64 then NumOk v else NumErrRange MaxUint64
    end
  end.

(** [strconv.ParseInt(s, 10, 64)]: an optional sign, then digits. *)
Definition ParseInt (s : string) : NumResult :=
  match s with
  | EmptyString => NumErrSyntax
  | String a s' =>
    let neg := Ascii.eqb a "-"%char in
    let body := if neg || Ascii.eqb a "+"%char then s' else s in
    match body with
    | EmptyString => NumErrSyntax
    | _ =>
      match parse_digits body 0 with
      | None => NumErrSyntax
      | Some v =>
        if neg then (if v <=? 2 ^ 63 then NumOk (- v) else NumErrRange MinInt64)
        else (if v <=? MaxInt64 then NumOk v else NumErrRange MaxInt64)
      end
    end
  end.

(** ** The host libraries

    Functions of Go's standard library that are not written out here:
    floating-point conversion, regular expression compilation, the
    time-zone database, and the case tables of package [unicode] for
    the runes above ASCII.  Everything below is stated for an arbitrary
    [Host]. *)

Record Host : Type := mkHost {
  (** [float64] *)
  float64 : Type;
  (** [strconv.ParseFloat(s, 64)]; [None] for an error *)
  ParseFloat : string -> option float64;
  (** [v * float64(mul)] for [mul] 1 or -1 *)
  float64_mul : float64 -> Z -> float64;
  (** [strconv.FormatFloat(v, fmt, prec, 64)] *)
  FormatFloat : float64 -> ascii -> Z -> string;
  (** the error text of [regexp.Compile(expr)], if it fails *)
  regexp_Compile_error : string -> option string;
  (** [time.Location], behind a pointer *)
  time_Location : Type;
  (** [time.LoadLocation(name)]; [None] for an error *)
  time_LoadLocation : string -> option time_Location;
  (** the [String] method of a location *)
  Location_String : time_Location -> string;
  (** [time.Time] *)
  time_Time : Type;
  (** [t.UTC().Format(time.RFC3339Nano)] *)
  time_Format : time_Time -> string;
  (** [unicode.To(unicode.LowerCase, r)], which [unicode.ToLower] calls
      for a rune above [unicode.MaxASCII] *)
  unicode_To_LowerCase : Z -> Z
}.

Existing Class Host.

(** ** [strings.ToLower] *)

(** The loop of [strings.ToLower] over a string of ASCII bytes. *)
Definition lower_byte (a : ascii) : ascii :=
  if in_range 65 90 (rc a) then byte_of_Z (rc a + 32) else a.

Fixpoint lower_bytes (s : string) : string :=
  match s with
  | EmptyString => EmptyString
  | String a s' => String (lower_byte a) (lower_bytes s')
  end.

(** Whether every byte is below [utf8.RuneSelf]. *)
Fixpoint isASCII (s : string) : bool :=
  match s with
  | EmptyString => true
  | String a s' => (rc a <? 128) && isASCII s'
  end.

(** [strings.Map(mapping, s)]: every rune of [s] (an invalid byte is
    [RuneError]) is replaced by its image, and dropped when the image is
    negative. *)
Definition strings_Map (mapping : rune -> rune) (s : string) : string :=
  encode_runes (filter (fun r => 0 <=? r) (map mapping (decode_runes s))).

Section WithHost.

Context {H : Host}.

(** [unicode.ToLower] *)
Definition unicode_ToLower (r : rune) : rune :=
  if r <=? 127 then
    if (rc "A" <=? r) && (r <=? rc "Z") then r + (rc "a" - rc "A") else r
  else unicode_To_LowerCase H r.

(** [strings.ToLower]: the byte loop on an ASCII string, [strings.Map]
    with [unicode.ToLower] on any other. *)
Definition ToLower (s : string) : string :=
  if isASCII s then lower_bytes s else strings_Map unicode_ToLower s.

End WithHost.

(** [strings.TrimPrefix(s, "$")]. *)
Definition TrimPrefix_dollar (s : string) : string :=
  match s with
  | String a s' => if Ascii.eqb a "$"%char then s' else s
  | EmptyString => EmptyString
  end.

Fixpoint Join (l : list string) (sep : string) : string :=
  match l with
  | [] => EmptyString
  | [x] => x
  | x :: rest => x +:+ sep +:+ Join rest sep
  end.

(** ** Package [token] *)

Module token.

(** The lexical tokens, in the order of the [iota] block. *)
Inductive Token : Type :=
| ILLEGAL | EOF | WS | COMMENT
| IDENT | BOUNDPARAM | NUMBER | INTEGER | DURATIONVAL | STRING | BADSTRING
| BADESCAPE | TRUE | FALSE | REGEX | BADREGEX
| ADD | SUB | MUL | DIV | MOD | BITAND | BITOR | BITXOR
| AND | OR
| EQ | NEQ | EQREGEX | NEQREGEX | LT | LTE | GT | GTE
| LPAREN | RPAREN | COMMA | COLON | DOUBLECOLON | SEMICOLON | DOT
| ALL | ANALYZE | ANY | AS | ASC | BEGIN | BY | DESC | DISTINCT | EXPLAIN
| FIELD | FROM | GROUP | IN | INF | INSERT | INTO | LIMIT | METRIC | OFFSET
| ORDER | SELECT | SLIMIT | SOFFSET | TAG | WHERE.

Definition literal_beg : Z := 4.
Definition literal_end : Z := 17.
Definition operator_beg : Z := 18.
Definition operator_end : Z := 37.
Definition keyword_beg : Z := 45.
Definition keyword_end : Z := 72.

(** The integer value of a token constant. *)
Definition code (tok : Token) : Z :=
  match tok with
  | ILLEGAL => 0 | EOF => 1 | WS => 2 | COMMENT => 3
  | IDENT => 5 | BOUNDPARAM => 6 | NUMBER => 7 | INTEGER => 8
  | DURATIONVAL => 9 | STRING => 10 | BADSTRING => 11 | BADESCAPE => 12
  | TRUE => 13 | FALSE => 14 | REGEX => 15 | BADREGEX => 16
  | ADD => 19 | SUB => 20 | MUL => 21 | DIV => 22 | MOD => 23
  | BITAND => 24 | BITOR => 25 | BITXOR => 26
  | AND => 27 | OR => 28
  | EQ => 29 | NEQ => 30 | EQREGEX => 31 | NEQREGEX => 32
  | LT => 33 | LTE => 34 | GT => 35 | GTE => 36
  | LPAREN => 38 | RPAREN => 39 | COMMA => 40 | COLON => 41
  | DOUBLECOLON => 42 | SEMICOLON => 43 | DOT => 44
  | ALL => 46 | ANALYZE => 47 | ANY => 48 | AS => 49 | ASC => 50
  | BEGIN => 51 | BY => 52 | DESC => 53 | DISTINCT => 54 | EXPLAIN => 55
  | FIELD => 56 | FROM => 57 | GROUP => 58 | IN => 59 | INF => 60
  | INSERT => 61 | INTO => 62 | LIMIT => 63 | METRIC => 64 | OFFSET => 65
  | ORDER => 66 | SELECT => 67 | SLIMIT => 68 | SOFFSET => 69 | TAG => 70
  | WHERE => 71
  end.

Definition eqb (a b : Token) : bool := code a =? code b.

(** The [tokens] table behind [Token.String]; constants without an entry
    ([COMMENT], [BOUNDPARAM], [INTEGER], [BADREGEX]) print as the empty
    string. *)
Definition String (tok : Token) : string :=
  match tok with
  | ILLEGAL => "ILLEGAL" | EOF => "EOF" | WS => "WS" | COMMENT => ""
  | IDENT => "IDENT" | BOUNDPARAM => "" | NUMBER => "NUMBER" | INTEGER => ""
  | DURATIONVAL => "DURATIONVAL" | STRING => "STRING"
  | BADSTRING => "BADSTRING" | BADESCAPE => "BADESCAPE"
  | TRUE => "TRUE" | FALSE => "FALSE" | REGEX => "REGEX" | BADREGEX => ""
  | ADD => "+" | SUB => "-" | MUL => "*" | DIV => "/" | MOD => "%"
  | BITAND => "&" | BITOR => "|" | BITXOR => "^"
  | AND => "AND" | OR => "OR"
  | EQ => "=" | NEQ => "!=" | EQREGEX => "=~" | NEQREGEX => "!~"
  | LT => "<" | LTE => "<=" | GT => ">" | GTE => ">="
  | LPAREN => "(" | RPAREN => ")" | COMMA => "," | COLON => ":"
  | DOUBLECOLON => "::" | SEMICOLON => ";" | DOT => "."
  | ALL => "ALL" | ANALYZE => "ANALYZE" | ANY => "ANY" | AS => "AS"
  | ASC => "ASC" | BEGIN => "BEGIN" | BY => "BY" | DESC => "DESC"
  | DISTINCT => "DISTINCT" | EXPLAIN => "EXPLAIN" | FIELD => "FIELD"
  | FROM => "FROM" | GROUP => "GROUP" | IN => "IN" | INF => "INF"
  | INSERT => "INSERT" | INTO => "INTO" | LIMIT => "LIMIT"
  | METRIC => "METRIC" | OFFSET => "OFFSET" | ORDER => "ORDER"
  | SELECT => "SELECT" | SLIMIT => "SLIMIT" | SOFFSET => "SOFFSET"
  | TAG => "TAG" | WHERE => "WHERE"
  end%string.

Definition keyword_tokens : list Token :=
  [ALL; ANALYZE; ANY; AS; ASC; BEGIN; BY; DESC; DISTINCT; EXPLAIN; FIELD;
   FROM; GROUP; IN; INF; INSERT; INTO; LIMIT; METRIC; OFFSET; ORDER; SELECT;
   SLIMIT; SOFFSET; TAG; WHERE].

Section WithHost.

Context {H : Host}.

(** The [keywords] map as [init] fills it. *)
Definition keywords : gmap string Token :=
  let m0 : gmap string Token :=
    fold_left (fun m tok => <[ToLower (String tok) := tok]> m) keyword_tokens ∅ in
  let m1 := fold_left (fun m tok => <[ToLower (String tok) := tok]> m) [AND; OR] m0 in
  <["false"%string := FALSE]> (<["true"%string := TRUE]> m1).

Definition Precedence (tok : Token) : Z :=
  match tok with
  | OR => 1
  | AND => 2
  | EQ | NEQ | EQREGEX | NEQREGEX | LT | LTE | GT | GTE => 3
  | ADD | SUB | BITOR | BITXOR => 4
  | MUL | DIV | MOD | BITAND => 5
  | _ => 0
  end.

Definition IsOperator (tok : Token) : bool :=
  (operator_beg <? code tok) && (code tok <? operator_end).

Definition IsRegexOp (tok : Token) : bool :=
  eqb tok EQREGEX || eqb tok NEQREGEX.

Definition Lookup (ident : string) : Token :=
  match keywords !! ToLower ident with
  | Some tok => tok
  | None => IDENT
  end.

End WithHost.

(** Line and character of a token, both zero-based. *)
Record Pos : Type := mkPos { Line : Z; Char : Z }.

Lemma eqb_eq (a b : Token) : eqb a b = true <-> a = b.
Proof.
  unfold eqb. split.
  - destruct a, b; simpl; intros H; try reflexivity; discriminate H.
  - intros ->. apply Z.eqb_refl.
Qed.

Lemma eqb_refl (a : Token) : eqb a a = true.
Proof. apply eqb_eq. reflexivity. Qed.

Lemma eqb_neq (a b : Token) : eqb a b = false <-> a <> b.
Proof.
  split.
  - intros H E. apply eqb_eq in E. congruence.
  - intros H. destruct (eqb a b) eqn:E; [apply eqb_eq in E; contradiction | reflexivity].
Qed.

End token.

(** ** Package [tools] *)

Module tools.

Definition IsWhitespace (ch : rune) : bool :=
  (ch =? rc " ") || (ch =? 9) || (ch =? 10).

Definition IsLetter (ch : rune) : bool :=
  ((rc "a" <=? ch) && (ch <=? rc "z")) || ((rc "A" <=? ch) && (ch <=? rc "Z")).

Definition IsDigit (ch : rune) : bool := (rc "0" <=? ch) && (ch <=? rc "9").

Definition IsIdentChar (ch : rune) : bool := IsLetter ch || IsDigit ch || (ch =? rc "_").

Definition IsIdentFirstChar (ch : rune) : bool := IsLetter ch || (ch =? rc "_").

(** A [strings.NewReplacer] over single-byte patterns: each byte is
    replaced by the text of its first matching pair. *)
Fixpoint replace_bytes (f : ascii -> option string) (s : string) : string :=
  match s with
  | EmptyString => EmptyString
  | String a s' =>
    match f a with
    | Some t => t +:+ replace_bytes f s'
    | None => String a (replace_bytes f s')
    end
  end.

Definition backslash : ascii := "\"%char.
Definition newline : ascii := ascii_of_nat 10.
Definition dquote : ascii := ascii_of_nat 34.
Definition squote : ascii := "'"%char.

Definition esc (a : ascii) : string := String backslash (String a EmptyString).

Definition qsReplacer (a : ascii) : option string :=
  if Ascii.eqb a newline then Some (esc "n")
  else if Ascii.eqb a backslash then Some (esc backslash)
  else if Ascii.eqb a squote then Some (esc squote)
  else None.

Definition qiReplacer (a : ascii) : option string :=
  if Ascii.eqb a newline then Some (esc "n")
  else if Ascii.eqb a backslash then Some (esc backslash)
  else if Ascii.eqb a dquote then Some (esc dquote)
  else None.

Definition QuoteString (s : string) : string :=
  String squote (replace_bytes qsReplacer s +:+ String squote EmptyString).

(** The [range] loop of [IdentNeedsQuotes] over the runes of the
    identifier: the first rune must be a letter or [_], the others
    identifier characters. *)
Fixpoint bad_ident_runes (first : bool) (rs : list rune) : bool :=
  match rs with
  | [] => false
  | r :: rs' =>
    if first && negb (IsIdentFirstChar r) then true
    else if negb first && negb (IsIdentChar r) then true
    else bad_ident_runes false rs'
  end.

Section WithHost.

Context {H : Host}.

Definition IdentNeedsQuotes (ident : string) : bool :=
  if negb (token.eqb (token.Lookup ident) token.IDENT) then true
  else bad_ident_runes true (decode_runes ident).

Fixpoint QuoteIdent_loop (i len : Z) (segments : list string) : string :=
  match segments with
  | [] => EmptyString
  | segment :: rest =>
    let empty := String.eqb segment EmptyString in
    let needQuote :=
      IdentNeedsQuotes segment
      || ((i <? len - 1) && negb empty)
      || (((i =? 0) || (i =? len - 1)) && empty) in
    let q := if needQuote then String dquote EmptyString else EmptyString in
    q +:+ replace_bytes qiReplacer segment +:+ q
      +:+ (if i <? len - 1 then "." else EmptyString)
      +:+ QuoteIdent_loop (i + 1) len rest
  end.

Definition QuoteIdent (segments : list string) : string :=
  QuoteIdent_loop 0 (Z.of_nat (length segments)) segments.

End WithHost.

Definition Week : Z := 7 * 24 * 3600 * 1000000000.
Definition Day : Z := 24 * 3600 * 1000000000.
Definition Hour : Z := 3600 * 1000000000.
Definition Minute : Z := 60 * 1000000000.
Definition Second : Z := 1000000000.
Definition Millisecond : Z := 1000000.
Definition Microsecond : Z := 1000.

(** [FormatDuration]; [%] and [/] of Go truncate towards zero. *)
Definition FormatDuration (d : Z) : string :=
  if d =? 0 then "0s"
  else if Z.rem d Week =? 0 then FormatInt (Z.quot d Week) +:+ "w"
  else if Z.rem d Day =? 0 then FormatInt (Z.quot d Day) +:+ "d"
  else if Z.rem d Hour =? 0 then FormatInt (Z.quot d Hour) +:+ "h"
  else if Z.rem d Minute =? 0 then FormatInt (Z.quot d Minute) +:+ "m"
  else if Z.rem d Second =? 0 then FormatInt (Z.quot d Second) +:+ "s"
  else if Z.rem d Millisecond =? 0 then FormatInt (Z.quot d Millisecond) +:+ "ms"
  else if Z.rem d Microsecond =? 0 then FormatInt (Z.quot d Microsecond) +:+ "u"
  else FormatInt d +:+ "ns".

End tools.

(** ** Package [scanner] *)

Module scanner.

(** The marker code point of the reader for "no more input". *)
Definition EOF : rune := 0.

Definition tokinfo : Type := token.Pos * token.Token * string.

Record bufEntry : Type := mkEntry { e_ch : rune; e_pos : token.Pos }.

Definition zeroPos : token.Pos := token.mkPos 0 0.
Definition zeroEntry : bufEntry := mkEntry 0 zeroPos.

(** The buffered rune reader.  [src] is the underlying
    [io.RuneScanner]: the runes it has not delivered yet. *)
Record reader : Type := mkReader {
  src : list rune;
  r_i : Z;
  r_n : Z;
  pos : token.Pos;
  r_buf : list bufEntry;
  eof : bool
}.

Definition newReader (input : list rune) : reader :=
  mkReader input 0 0 zeroPos [zeroEntry; zeroEntry; zeroEntry] false.

(** [curr]: the last read character and position.  The index is
    [(i - n + 3) % 3], which Go's truncating [%] keeps inside the array
    as long as at most three runes are unread. *)
Definition curr (r : reader) : rune * token.Pos :=
  let i := Z.rem (r_i r - r_n r + 3) 3 in
  let e := nth (Z.to_nat i) (r_buf r) zeroEntry in
  (e_ch e, e_pos e).

(** One [ReadRune] of the underlying stream with the carriage-return
    handling of [read]: a ['\r'] becomes ['\n'] and swallows a directly
    following ['\n']; an error of the stream is [EOF]. *)
Definition next_rune (input : list rune) : rune * list rune :=
  match input with
  | [] => (EOF, [])
  | c :: rest =>
    if c =? 13 then
      match rest with
      | c2 :: rest2 => if c2 =? 10 then (10, rest2) else (10, rest)
      | [] => (10, [])
      end
    else (c, rest)
  end.

Definition read (r : reader) : (rune * token.Pos) * reader :=
  if 0 <? r_n r then
    let r' := mkReader (src r) (r_i r) (r_n r - 1) (pos r) (r_buf r) (eof r) in
    (curr r', r')
  else
    let '(ch, src') := next_rune (src r) in
    let i' := Z.rem (r_i r + 1) 3 in
    let buf' := <[Z.to_nat i' := mkEntry ch (pos r)]> (r_buf r) in
    let pos' :=
      if ch =? 10 then token.mkPos (token.Line (pos r) + 1) 0
      else if negb (eof r) then token.mkPos (token.Line (pos r)) (token.Char (pos r) + 1)
      else pos r in
    let eof' := if ch =? EOF then true else eof r in
    let r' := mkReader src' i' (r_n r) pos' buf' eof' in
    (curr r', r').

Definition unread (r : reader) : reader :=
  mkReader (src r) (r_i r) (r_n r + 1) (pos r) (r_buf r) (eof r).

(** [ReadRune] of the [io.RuneScanner] wrapper: the error is [io.EOF]
    exactly when the rune is [EOF]. *)
Definition ReadRune (r : reader) : (rune * bool) * reader :=
  let '((ch, _), r') := read r in ((ch, ch =? EOF), r').

Definition UnreadRune (r : reader) : reader := unread r.

(** *** Free-standing scanning functions over a rune reader *)

Fixpoint ScanBareIdent_loop (fuel : nat) (buf : string) (r : reader)
  : option (string * reader) :=
  match fuel with
  | O => None
  | S f =>
    let '((ch, err), r1) := ReadRune r in
    if err then Some (buf, r1)
    else if negb (tools.IsIdentChar ch) then Some (buf, UnreadRune r1)
    else ScanBareIdent_loop f (WriteRune buf ch) r1
  end.

Definition ScanBareIdent (fuel : nat) (r : reader) : option (string * reader) :=
  ScanBareIdent_loop fuel EmptyString r.

Inductive strError : Type := strOk | errBadString | errBadEscape.

Fixpoint ScanString_loop (fuel : nat) (ending : rune) (buf : string) (r : reader)
  : option (string * strError * reader) :=
  match fuel with
  | O => None
  | S f =>
    let '((ch0, err), r1) := ReadRune r in
    if ch0 =? ending then Some (buf, strOk, r1)
    else if err || (ch0 =? 10) then Some (buf, errBadString, r1)
    else if ch0 =? rc "\" then
      let '((ch1, _), r2) := ReadRune r1 in
      if ch1 =? rc "n" then ScanString_loop f ending (WriteRune buf 10) r2
      else if ch1 =? rc "\" then ScanString_loop f ending (WriteRune buf (rc "\")) r2
      else if ch1 =? 34 then ScanString_loop f ending (WriteRune buf 34) r2
      else if ch1 =? rc "'" then ScanString_loop f ending (WriteRune buf (rc "'")) r2
      else Some (utf8_EncodeRune ch0 +:+ utf8_EncodeRune ch1, errBadEscape, r2)
    else ScanString_loop f ending (WriteRune buf ch0) r1
  end.

Definition ScanString (fuel : nat) (r : reader) : option (string * strError * reader) :=
  let '((ending, err), r1) := ReadRune r in
  if err then Some (EmptyString, errBadString, r1)
  else ScanString_loop fuel ending EmptyString r1.

Inductive delimError : Type :=
| delimOk
| delimEOF            (* the error of the reader *)
| delimExpected       (* "expected %s; found %s" *)
| delimNewline        (* "delimited text contains new line" *)
| delimBadEscape.     (* errBadEscape *)

Fixpoint ScanDelimited_loop (fuel : nat) (end_ : rune) (escapes : rune -> option rune)
    (escapesPassThru : bool) (buf : string) (r : reader)
  : option (string * delimError * reader) :=
  match fuel with
  | O => None
  | S f =>
    let '((ch0, err), r1) := ReadRune r in
    if ch0 =? end_ then Some (buf, delimOk, r1)
    else if err then Some (buf, delimEOF, r1)
    else if ch0 =? 10 then Some (EmptyString, delimNewline, r1)
    else if ch0 =? rc "\" then
      let '((ch1, err1), r2) := ReadRune r1 in
      if err1 then Some (EmptyString, delimEOF, r2)
      else
        match escapes ch1 with
        | None =>
          if escapesPassThru
          then ScanDelimited_loop f end_ escapes escapesPassThru
                 (WriteRune buf ch0) (UnreadRune r2)
          else Some (WriteRune (WriteRune EmptyString ch0) ch1, delimBadEscape, r2)
        | Some c => ScanDelimited_loop f end_ escapes escapesPassThru (WriteRune buf c) r2
        end
    else ScanDelimited_loop f end_ escapes escapesPassThru (WriteRune buf ch0) r1
  end.

Definition ScanDelimited (fuel : nat) (r : reader) (start end_ : rune)
    (escapes : rune -> option rune) (escapesPassThru : bool)
  : option (string * delimError * reader) :=
  let '((ch, err), r1) := ReadRune r in
  if err then Some (EmptyString, delimEOF, r1)
  else if negb (ch =? start) then Some (EmptyString, delimExpected, r1)
  else ScanDelimited_loop fuel end_ escapes escapesPassThru EmptyString r1.

(** *** The methods of [scanner] (a struct holding only the reader) *)

Fixpoint scanWhitespace_loop (fuel : nat) (buf : string) (r : reader)
  : option (string * reader) :=
  match fuel with
  | O => None
  | S f =>
    let '((ch, _), r1) := read r in
    if ch =? EOF then Some (buf, r1)
    else if negb (tools.IsWhitespace ch) then Some (buf, unread r1)
    else scanWhitespace_loop f (WriteRune buf ch) r1
  end.

Definition scanWhitespace (fuel : nat) (r : reader) : option (tokinfo * reader) :=
  let '(ch, p) := curr r in
  match scanWhitespace_loop fuel (WriteRune EmptyString ch) r with
  | Some (lit, r') => Some ((p, token.WS, lit), r')
  | None => None
  end.

Fixpoint skipUntilNewline (fuel : nat) (r : reader) : option reader :=
  match fuel with
  | O => None
  | S f =>
    let '((ch, _), r1) := read r in
    if (ch =? 10) || (ch =? EOF) then Some r1 else skipUntilNewline f r1
  end.

(** [skipUntilEndComment]; [star] tells that the label [star:] has been
    reached.  The result is [true] for a [nil] error. *)
Fixpoint skipUntilEndComment (fuel : nat) (star : bool) (r : reader)
  : option (bool * reader) :=
  match fuel with
  | O => None
  | S f =>
    let '((ch, _), r1) := read r in
    if star then
      if ch =? rc "/" then Some (true, r1)
      else if ch =? rc "*" then skipUntilEndComment f true r1
      else if ch =? EOF then Some (false, r1)
      else skipUntilEndComment f false r1
    else
      if ch =? rc "*" then skipUntilEndComment f true r1
      else if ch =? EOF then Some (false, r1)
      else skipUntilEndComment f false r1
  end.

Definition scanString (fuel : nat) (r : reader) : option (tokinfo * reader) :=
  let r0 := unread r in
  let '(_, p) := curr r0 in
  match ScanString fuel r0 with
  | None => None
  | Some (lit, errBadString, r1) => Some ((p, token.BADSTRING, lit), r1)
  | Some (lit, errBadEscape, r1) =>
    let '(_, p1) := curr r1 in Some ((p1, token.BADESCAPE, lit), r1)
  | Some (lit, strOk, r1) => Some ((p, token.STRING, lit), r1)
  end.

Section WithHost.

Context {H : Host}.

Fixpoint scanIdent_loop (fuel : nat) (p : token.Pos) (buf : string) (r : reader)
  : option ((tokinfo + string) * reader) :=
  match fuel with
  | O => None
  | S f =>
    let '((ch, _), r1) := read r in
    if ch =? EOF then Some (inr buf, r1)
    else if ch =? 34 then
      match scanString fuel r1 with
      | None => None
      | Some ((pos0, tok0, lit0), r2) =>
        if token.eqb tok0 token.BADSTRING || token.eqb tok0 token.BADESCAPE
        then Some (inl (pos0, tok0, lit0), r2)
        else Some (inl (p, token.IDENT, lit0), r2)
      end
    else if tools.IsIdentChar ch then
      match ScanBareIdent fuel (unread r1) with
      | None => None
      | Some (s, r2) => scanIdent_loop f p (buf +:+ s) r2
      end
    else Some (inr buf, unread r1)
  end.

Definition scanIdent (fuel : nat) (lookup : bool) (r : reader) : option (tokinfo * reader) :=
  let '((_, p), r0) := read r in
  let r1 := unread r0 in
  match scanIdent_loop fuel p EmptyString r1 with
  | None => None
  | Some (inl t, r2) => Some (t, r2)
  | Some (inr lit, r2) =>
    let tok := token.Lookup lit in
    if lookup && negb (token.eqb tok token.IDENT)
    then Some ((p, tok, EmptyString), r2)
    else Some ((p, token.IDENT, lit), r2)
  end.

Definition regexEscapes (ch : rune) : option rune :=
  if ch =? rc "/" then Some (rc "/") else None.

Definition ScanRegex (fuel : nat) (r : reader) : option (tokinfo * reader) :=
  let '(_, p) := curr r in
  match ScanDelimited fuel r (rc "/") (rc "/") regexEscapes true with
  | None => None
  | Some (b, delimBadEscape, r1) =>
    let '(_, p1) := curr r1 in Some ((p1, token.BADESCAPE, EmptyString), r1)
  | Some (b, delimOk, r1) => Some ((p, token.REGEX, b), r1)
  | Some (b, _, r1) => Some ((p, token.BADREGEX, EmptyString), r1)
  end.

Fixpoint scanDigits_loop (fuel : nat) (buf : string) (r : reader) : option (string * reader) :=
  match fuel with
  | O => None
  | S f =>
    let '((ch, _), r1) := read r in
    if negb (tools.IsDigit ch) then Some (buf, unread r1)
    else scanDigits_loop f (WriteRune buf ch) r1
  end.

Definition scanDigits (fuel : nat) (r : reader) : option (string * reader) :=
  scanDigits_loop fuel EmptyString r.

Definition isDurationLetter (ch : rune) : bool := tools.IsLetter ch || (ch =? micro).

(** The first inner loop of the duration branch: letters. *)
Fixpoint scanNumber_letters (fuel : nat) (buf : string) (r : reader)
  : option (string * reader) :=
  match fuel with
  | O => None
  | S f =>
    let '((ch1, _), r1) := read r in
    if negb (tools.IsLetter ch1) && negb (ch1 =? micro) then Some (buf, unread r1)
    else scanNumber_letters f (WriteRune buf ch1) r1
  end.

(** The second inner loop: letters and digits. *)
Fixpoint scanNumber_alnum (fuel : nat) (buf : string) (r : reader)
  : option (string * reader) :=
  match fuel with
  | O => None
  | S f =>
    let '((ch0, _), r1) := read r in
    if tools.IsLetter ch0 || (ch0 =? micro) || tools.IsDigit ch0
    then scanNumber_alnum f (WriteRune buf ch0) r1
    else Some (buf, unread r1)
  end.

(** [scanNumber] from "Read as many digits as possible" on. *)
Definition scanNumber_body (fuel : nat) (p : token.Pos) (r0 : reader)
  : option (tokinfo * reader) :=
  match scanDigits fuel r0 with
  | None => None
  | Some (ds, r1) =>
    let '((ch0, _), r2) := read r1 in
    let frac : option (bool * string * reader) :=
      if ch0 =? rc "." then
        let '((ch1, _), r3) := read r2 in
        if tools.IsDigit ch1 then
          match scanDigits fuel r3 with
          | None => None
          | Some (ds2, r4) => Some (true, WriteRune (WriteRune ds ch0) ch1 +:+ ds2, r4)
          end
        else Some (true, ds, unread r3)
      else Some (false, ds, unread r2) in
    match frac with
    | None => None
    | Some (isDecimal, buf, r5) =>
      if negb isDecimal then
        let '((c0, _), r6) := read r5 in
        if tools.IsLetter c0 || (c0 =? micro) then
          match scanNumber_letters fuel (WriteRune buf c0) r6 with
          | None => None
          | Some (buf1, r7) =>
            match scanNumber_alnum fuel buf1 r7 with
            | None => None
            | Some (buf2, r8) => Some ((p, token.DURATIONVAL, buf2), r8)
            end
          end
        else Some ((p, token.INTEGER, buf), unread r6)
      else Some ((p, token.NUMBER, buf), r5)
    end
  end.

Definition scanNumber (fuel : nat) (r : reader) : option (tokinfo * reader) :=
  let '(ch, p) := curr r in
  if ch =? rc "." then
    let '((ch1, _), r1) := read r in
    let r2 := unread r1 in
    if negb (tools.IsDigit ch1) then Some ((p, token.ILLEGAL, "."%string), r2)
    else scanNumber_body fuel p (unread r2)
  else scanNumber_body fuel p (unread r).

(** [Scan]: the next token, its position and its literal text. *)
Definition Scan (fuel : nat) (r : reader) : option (tokinfo * reader) :=
  let '((ch0, p), r0) := read r in
  let tk (t : token.Token) (r' : reader) := Some ((p, t, EmptyString), r') in
  if tools.IsWhitespace ch0 then scanWhitespace fuel r0
  else if tools.IsLetter ch0 || (ch0 =? rc "_") then scanIdent fuel true (unread r0)
  else if tools.IsDigit ch0 then scanNumber fuel r0
  else if ch0 =? EOF then tk token.EOF r0
  else if ch0 =? 34 then scanIdent fuel true (unread r0)
  else if ch0 =? rc "'" then scanString fuel r0
  else if ch0 =? rc "." then
    let '((ch1, _), r1) := read r0 in
    let r2 := unread r1 in
    if tools.IsDigit ch1 then scanNumber fuel r2 else tk token.DOT r2
  else if ch0 =? rc "$" then
    match scanIdent fuel false r0 with
    | None => None
    | Some ((_, tok, lit), r1) =>
      if negb (token.eqb tok token.IDENT)
      then Some ((p, tok, "$" +:+ lit), r1)
      else Some ((p, token.BOUNDPARAM, "$" +:+ lit), r1)
    end
  else if ch0 =? rc "+" then tk token.ADD r0
  else if ch0 =? rc "-" then
    let '((ch1, _), r1) := read r0 in
    if ch1 =? rc "-" then
      match skipUntilNewline fuel r1 with
      | None => None
      | Some r2 => tk token.COMMENT r2
      end
    else tk token.SUB (unread r1)
  else if ch0 =? rc "*" then tk token.MUL r0
  else if ch0 =? rc "/" then
    let '((ch1, _), r1) := read r0 in
    if ch1 =? rc "*" then
      match skipUntilEndComment fuel false r1 with
      | None => None
      | Some (true, r2) => tk token.COMMENT r2
      | Some (false, r2) => tk token.ILLEGAL r2
      end
    else tk token.DIV (unread r1)
  else if ch0 =? rc "%" then tk token.MOD r0
  else if ch0 =? rc "&" then tk token.BITAND r0
  else if ch0 =? rc "|" then tk token.BITOR r0
  else if ch0 =? rc "^" then tk token.BITXOR r0
  else if ch0 =? rc "=" then
    let '((ch1, _), r1) := read r0 in
    if ch1 =? rc "~" then tk token.EQREGEX r1 else tk token.EQ (unread r1)
  else if ch0 =? rc "!" then
    let '((ch1, _), r1) := read r0 in
    if ch1 =? rc "=" then tk token.NEQ r1
    else if ch1 =? rc "~" then tk token.NEQREGEX r1
    else Some ((p, token.ILLEGAL, utf8_EncodeRune ch0), unread r1)
  else if ch0 =? rc ">" then
    let '((ch1, _), r1) := read r0 in
    if ch1 =? rc "=" then tk token.GTE r1 else tk token.GT (unread r1)
  else if ch0 =? rc "<" then
    let '((ch1, _), r1) := read r0 in
    if ch1 =? rc "=" then tk token.LTE r1
    else if ch1 =? rc ">" then tk token.NEQ r1
    else tk token.LT (unread r1)
  else if ch0 =? rc "(" then tk token.LPAREN r0
  else if ch0 =? rc ")" then tk token.RPAREN r0
  else if ch0 =? rc "," then tk token.COMMA r0
  else if ch0 =? rc ";" then tk token.SEMICOLON r0
  else if ch0 =? rc ":" then
    let '((ch1, _), r1) := read r0 in
    if ch1 =? rc ":" then tk token.DOUBLECOLON r1 else tk token.COLON (unread r1)
  else Some ((p, token.ILLEGAL, utf8_EncodeRune ch0), r0).

(** *** The buffered scanner *)

Definition zeroTok : tokinfo := (zeroPos, token.ILLEGAL, EmptyString).

Record bufScanner : Type := mkBufScanner {
  s : reader;
  i : Z;
  n : Z;
  buf : list tokinfo
}.

Definition NewScanner (input : list rune) : bufScanner :=
  mkBufScanner (newReader input) 0 0 [zeroTok; zeroTok; zeroTok].

Definition bcurr (b : bufScanner) : tokinfo :=
  nth (Z.to_nat (Z.rem (i b - n b + 3) 3)) (buf b) zeroTok.

Definition ScanFunc (scan : reader -> option (tokinfo * reader)) (b : bufScanner)
  : option (tokinfo * bufScanner) :=
  if 0 <? n b then
    let b' := mkBufScanner (s b) (i b) (n b - 1) (buf b) in
    Some (bcurr b', b')
  else
    match scan (s b) with
    | None => None
    | Some (t, r') =>
      let i' := Z.rem (i b + 1) 3 in
      let b' := mkBufScanner r' i' (n b) (<[Z.to_nat i' := t]> (buf b)) in
      Some (bcurr b', b')
    end.

Definition bScan (fuel : nat) (b : bufScanner) : option (tokinfo * bufScanner) :=
  ScanFunc (Scan fuel) b.

Definition bScanRegex (fuel : nat) (b : bufScanner) : option (tokinfo * bufScanner) :=
  ScanFunc (ScanRegex fuel) b.

Definition Peek (b : bufScanner) : rune * bufScanner :=
  let '((r, _), rd) := ReadRune (s b) in
  let rd' := if negb (r =? EOF) then UnreadRune rd else rd in
  (r, mkBufScanner rd' (i b) (n b) (buf b)).

Definition Unscan (b : bufScanner) : bufScanner :=
  mkBufScanner (s b) (i b) (n b + 1) (buf b).

End WithHost.

End scanner.


(** ** Package [ast] *)

Module ast.

Inductive DataType : Type :=
| Unknown | Float | Integer | String_ | Boolean | Time | Duration | Tag
| AnyField | Unsigned.

Definition DataType_String (d : DataType) : string :=
  match d with
  | Float => "float"
  | Integer => "integer"
  | Unsigned => "unsigned"
  | String_ => "string"
  | Boolean => "boolean"
  | Time => "time"
  | Duration => "duration"
  | Tag => "tag"
  | AnyField => "field"
  | Unknown => "unknown"
  end.

(** The integer value of a [DataType] constant. *)
Definition DataType_code (d : DataType) : Z :=
  match d with
  | Unknown => 0 | Float => 1 | Integer => 2 | String_ => 3 | Boolean => 4
  | Time => 5 | Duration => 6 | Tag => 7 | AnyField => 8 | Unsigned => 9
  end.

Definition DataType_eqb (a b : DataType) : bool := DataType_code a =? DataType_code b.

Definition DataTypeFromString (s : string) : DataType :=
  if String.eqb s "float" then Float
  else if String.eqb s "integer" then Integer
  else if String.eqb s "unsigned" then Unsigned
  else if String.eqb s "string" then String_
  else if String.eqb s "boolean" then Boolean
  else if String.eqb s "time" then Time
  else if String.eqb s "duration" then Duration
  else if String.eqb s "tag" then Tag
  else if String.eqb s "field" then AnyField
  else Unknown.

(** [LessThan]: whether [other] has a greater precedence than [d]. *)
Definition LessThan (d other : DataType) : bool :=
  if DataType_eqb d Unknown then true
  else if DataType_eqb d Unsigned then
    negb (DataType_eqb other Unknown) && (DataType_code other <=? DataType_code Integer)
  else if DataType_eqb other Unsigned then DataType_code String_ <=? DataType_code d
  else negb (DataType_eqb other Unknown) && (DataType_code other <? DataType_code d).

Inductive FillOption : Type :=
| NullFill | NoFill | NumberFill | PreviousFill | LinearFill.

(** A compiled [*regexp.Regexp], known by the text it was compiled from
    ([Regexp.String]). *)
Definition Regexp : Type := string.

(** [RegexLiteral]; the pointer [Val] may be nil. *)
Record RegexLiteralT : Type := mkRegexLiteral { re_Val : option Regexp }.

Record Metric : Type := mkMetric {
  Database : string;
  TimeToLive : string;
  Name : string;
  Regex : option RegexLiteralT;
  IsTarget : bool;
  SystemIterator : string
}.

Definition emptyMetric : Metric :=
  mkMetric EmptyString EmptyString EmptyString None false EmptyString.

Record Target : Type := mkTarget { t_Metric : Metric }.

Record SortField : Type := mkSortField { sf_Name : string; Ascending : bool }.

Section WithHost.

Context (H : Host).

Inductive Expr : Type :=
| BinaryExpr (Op : token.Token) (LHS RHS : Expr)
| Call (Name : string) (Args : list Expr)
| Distinct (Val : string)
| ParenExpr (e : Expr)
| VarRef (Val : string) (Type_ : DataType)
| Wildcard (Type_ : token.Token)
| BooleanLiteral (Val : bool)
| BoundParameter (Name : string)
| DurationLiteral (Val : Z)
| IntegerLiteral (Val : Z)
| UnsignedLiteral (Val : Z)
| NilLiteral
| NumberLiteral (Val : float64 H)
| RegexLiteral (l : RegexLiteralT)
| ListLiteral (Vals : list string)
| StringLiteral (Val : string)
| TimeLiteral (Val : time_Time H).

Record Field : Type := mkField { f_Expr : Expr; Alias : string }.

Record Dimension : Type := mkDimension { d_Expr : Expr }.

(** The dynamic value of [FillValue interface{}]. *)
Inductive FillValueT : Type :=
| FillNil
| FillInt64 (v : Z)
| FillFloat64 (v : float64 H).

(** The fields of [SelectStatement], over the type of its sources. *)
Record SelectFields (Src : Type) : Type := mkSelect {
  Fields : list Field;
  Target_ : option Target;
  Dimensions : list Dimension;
  Sources : list Src;
  Condition : option Expr;
  SortFields : list SortField;
  Limit : Z;
  Offset : Z;
  SLimit : Z;
  SOffset : Z;
  groupByInterval : Z;
  IsRawQuery : bool;
  Fill : FillOption;
  FillValue : FillValueT;
  Location_ : option (time_Location H);
  TimeAlias : string;
  OmitTime : bool;
  StripName : bool;
  EmitName : string;
  Dedupe : bool
}.

(** A [Source] is a [*Metric] or a [*SubQuery] holding a statement. *)
Inductive Source : Type :=
| SrcMetric (m : Metric)
| SubQuery (Statement : SelectFields Source).

Definition SelectStatement : Type := SelectFields Source.

(** [SelectStatement] is the only [Statement]. *)
Definition Statement : Type := SelectStatement.

Record Query : Type := mkQuery { Statements : list Statement }.

(** The zero value [&ast.SelectStatement{}]. *)
Definition emptySelect : SelectStatement :=
  mkSelect Source [] None [] [] None [] 0 0 0 0 0 false NullFill FillNil None
    EmptyString false false EmptyString false.

(** *** Nodes and [Walk] *)

(** The dynamic type and value of a [Node] handed to a visitor. *)
Inductive Node : Type :=
| NodeQuery (q : Query)
| NodeStatements (l : list Statement)
| NodeSelectStatement (st : SelectStatement)
| NodeMetric (m : Metric)
| NodeSubQuery (st : SelectStatement)
| NodeSources (l : list Source)
| NodeTarget (t : option Target)
| NodeField (f : Field)
| NodeFields (l : list Field)
| NodeSortField (f : SortField)
| NodeSortFields (l : list SortField)
| NodeDimension (d : Dimension)
| NodeDimensions (l : list Dimension)
| NodeExpr (e : Expr).

Section Walk.

(** A visitor with state [S].  [Visit n st] gives the state after the
    visit and whether the walk descends into the children of [n]: every
    visitor of these packages returns itself or nil. *)
Context {S : Type} (Visit : Node -> S -> S * bool).

Fixpoint WalkExpr (e : Expr) (st : S) : S :=
  let '(st1, descend) := Visit (NodeExpr e) st in
  if descend then
    match e with
    | BinaryExpr _ lhs rhs => WalkExpr rhs (WalkExpr lhs st1)
    | Call _ args => fold_left (fun acc a => WalkExpr a acc) args st1
    | ParenExpr e' => WalkExpr e' st1
    | _ => st1
    end
  else st1.

(** [Walk] of an [Expr] interface value that may be nil. *)
Definition WalkOptExpr (e : option Expr) (st : S) : S :=
  match e with
  | None => st
  | Some e' => WalkExpr e' st
  end.

Definition WalkField (f : Field) (st : S) : S :=
  let '(st1, descend) := Visit (NodeField f) st in
  if descend then WalkExpr (f_Expr f) st1 else st1.

Definition WalkFields (l : list Field) (st : S) : S :=
  let '(st1, descend) := Visit (NodeFields l) st in
  if descend then fold_left (fun acc f => WalkField f acc) l st1 else st1.

Definition WalkDimension (d : Dimension) (st : S) : S :=
  let '(st1, descend) := Visit (NodeDimension d) st in
  if descend then WalkExpr (d_Expr d) st1 else st1.

Definition WalkDimensions (l : list Dimension) (st : S) : S :=
  let '(st1, descend) := Visit (NodeDimensions l) st in
  if descend then fold_left (fun acc d => WalkDimension d acc) l st1 else st1.

Definition WalkMetric (m : Metric) (st : S) : S :=
  fst (Visit (NodeMetric m) st).

Definition WalkTarget (t : option Target) (st : S) : S :=
  let '(st1, descend) := Visit (NodeTarget t) st in
  if descend then
    match t with
    | Some t' => WalkMetric (t_Metric t') st1
    | None => st1
    end
  else st1.

Definition WalkSortField (f : SortField) (st : S) : S :=
  fst (Visit (NodeSortField f) st).

Definition WalkSortFields (l : list SortField) (st : S) : S :=
  let '(st1, descend) := Visit (NodeSortFields l) st in
  if descend then fold_left (fun acc f => WalkSortField f acc) l st1 else st1.

Fixpoint WalkSource (src : Source) (st : S) : S :=
  match src with
  | SrcMetric m => WalkMetric m st
  | SubQuery stmt =>
    let '(st1, descend) := Visit (NodeSubQuery stmt) st in
    if descend then
      let '(st2, descend2) := Visit (NodeSelectStatement stmt) st1 in
      if descend2 then
        let st3 := WalkFields (Fields _ stmt) st2 in
        let st4 := WalkTarget (Target_ _ stmt) st3 in
        let st5 := WalkDimensions (Dimensions _ stmt) st4 in
        let st6 :=
          let '(s0, d0) := Visit (NodeSources (Sources _ stmt)) st5 in
          if d0 then fold_left (fun acc x => WalkSource x acc) (Sources _ stmt) s0 else s0 in
        let st7 := WalkOptExpr (Condition _ stmt) st6 in
        WalkSortFields (SortFields _ stmt) st7
      else st2
    else st1
  end.

Definition WalkSources (l : list Source) (st : S) : S :=
  let '(st1, descend) := Visit (NodeSources l) st in
  if descend then fold_left (fun acc x => WalkSource x acc) l st1 else st1.

Definition WalkSelectStatement (stmt : SelectStatement) (st : S) : S :=
  let '(st2, descend2) := Visit (NodeSelectStatement stmt) st in
  if descend2 then
    let st3 := WalkFields (Fields _ stmt) st2 in
    let st4 := WalkTarget (Target_ _ stmt) st3 in
    let st5 := WalkDimensions (Dimensions _ stmt) st4 in
    let st6 := WalkSources (Sources _ stmt) st5 in
    let st7 := WalkOptExpr (Condition _ stmt) st6 in
    WalkSortFields (SortFields _ stmt) st7
  else st2.

Definition WalkStatements (l : list Statement) (st : S) : S :=
  let '(st1, descend) := Visit (NodeStatements l) st in
  if descend then fold_left (fun acc x => WalkSelectStatement x acc) l st1 else st1.

Definition WalkQuery (q : Query) (st : S) : S :=
  let '(st1, descend) := Visit (NodeQuery q) st in
  if descend then WalkStatements (Statements q) st1 else st1.

(** [Walk(v, node)] for a non-nil interface value [node]. *)
Definition Walk (node : Node) (st : S) : S :=
  match node with
  | NodeQuery q => WalkQuery q st
  | NodeStatements l => WalkStatements l st
  | NodeSelectStatement stmt => WalkSelectStatement stmt st
  | NodeMetric m => WalkMetric m st
  | NodeSubQuery stmt => WalkSource (SubQuery stmt) st
  | NodeSources l => WalkSources l st
  | NodeTarget t => WalkTarget t st
  | NodeField f => WalkField f st
  | NodeFields l => WalkFields l st
  | NodeSortField f => WalkSortField f st
  | NodeSortFields l => WalkSortFields l st
  | NodeDimension d => WalkDimension d st
  | NodeDimensions l => WalkDimensions l st
  | NodeExpr e => WalkExpr e st
  end.

End Walk.

(** [WalkFunc(node, fn)]: the visitor calls [fn] and always descends. *)
Definition WalkFunc {S : Type} (node : Node) (fn : Node -> S -> S) (st : S) : S :=
  Walk (fun n st' => (fn n st', true)) node st.

(** *** Names of expressions and fields *)

(** [containsVarRefVisitor.Visit]; the state is the field [contains]. *)
Definition containsVarRefVisitor_Visit (n : Node) (contains : bool) : bool * bool :=
  match n with
  | NodeExpr (Call _ _) => (contains, false)
  | NodeExpr (VarRef _ _) => (true, true)
  | _ => (contains, true)
  end.

Definition ContainsVarRef (expr : Expr) : bool :=
  Walk containsVarRefVisitor_Visit (NodeExpr expr) false.

(** [binaryExprNameVisitor.Visit]; the state is the field [names]. *)
Definition binaryExprNameVisitor_Visit (n : Node) (names : list string)
  : list string * bool :=
  match n with
  | NodeExpr (VarRef val _) => (names ++ [val], true)
  | NodeExpr (Call name _) => (names ++ [name], false)
  | _ => (names, true)
  end.

(** [(e *BinaryExpr) Name]. *)
Definition BinaryExpr_Name (op : token.Token) (lhs rhs : Expr) : string :=
  Join (Walk binaryExprNameVisitor_Visit (NodeExpr (BinaryExpr op lhs rhs)) []) "_".

(** The loop of [walkNames] and [walkRefs] over the arguments of a
    call: the arguments that are variable references. *)
Fixpoint callArgNames (args : list Expr) (a : list string) : list string :=
  match args with
  | [] => a
  | VarRef val _ :: rest => callArgNames rest (a ++ [val])
  | _ :: rest => callArgNames rest a
  end.

Fixpoint walkNames (exp : Expr) : list string :=
  match exp with
  | VarRef val _ => [val]
  | Call _ args => callArgNames args []
  | BinaryExpr _ lhs rhs => walkNames lhs ++ walkNames rhs
  | ParenExpr e => walkNames e
  | _ => []
  end.

(** [(f *Field) Name], on the two fields of [f]; the recursive call is
    on a field without alias. *)
Fixpoint Field_Name_of (alias : string) (e : Expr) : string :=
  if negb (String.eqb alias EmptyString) then alias
  else
    match e with
    | Call name _ => name
    | BinaryExpr op lhs rhs => BinaryExpr_Name op lhs rhs
    | ParenExpr e' => Field_Name_of EmptyString e'
    | VarRef val _ => val
    | _ => EmptyString
    end.

Definition Field_Name (f : Field) : string := Field_Name_of (Alias f) (f_Expr f).

Definition Fields_AliasNames (a : list Field) : list string :=
  fold_left (fun names f => names ++ [Field_Name f]) a [].

Definition Fields_Names (a : list Field) : list string :=
  fold_left
    (fun names f =>
       match f_Expr f with
       | Call name _ => names ++ [name]
       | VarRef val _ => names ++ [val]
       | BinaryExpr _ _ _ => names ++ walkNames (f_Expr f)
       | ParenExpr _ => names ++ walkNames (f_Expr f)
       | _ => names
       end)
    a [].

(** The inner loop of [FieldExprByName] over [call.Args[1 : len-1]]. *)
Fixpoint findArgByName (args : list Expr) (name : string) : option Expr :=
  match args with
  | [] => None
  | arg :: rest =>
    match arg with
    | VarRef val _ => if String.eqb val name then Some arg else findArgByName rest name
    | _ => findArgByName rest name
    end
  end.

(** What one iteration of [FieldExprByName] returns, if it returns. *)
Definition fieldExprByName_step (f : Field) (name : string) : option Expr :=
  if String.eqb (Field_Name f) name then Some (f_Expr f)
  else
    match f_Expr f with
    | Call cname args =>
      if (String.eqb cname "top" || String.eqb cname "bottom")
         && (2 <? Z.of_nat (length args))
      then findArgByName (removelast (tl args)) name
      else None
    | _ => None
    end.

Fixpoint FieldExprByName_loop (i : Z) (a : list Field) (name : string)
  : Z * option Expr :=
  match a with
  | [] => (-1, None)
  | f :: rest =>
    match fieldExprByName_step f name with
    | Some e => (i, Some e)
    | None => FieldExprByName_loop (i + 1) rest name
    end
  end.

Definition FieldExprByName (a : list Field) (name : string) : Z * option Expr :=
  FieldExprByName_loop 0 a name.

(** [(d *Distinct) NewCall], on the field of [d]. *)
Definition Distinct_NewCall (val : string) : Expr :=
  Call "distinct" [VarRef val Unknown].

(** *** Canonical text: the [String] methods *)

(** [strings.Replace(s, "/", "\/", -1)] *)
Definition escape_slashes (s : string) : string :=
  tools.replace_bytes
    (fun a => if Ascii.eqb a "/"%char then Some (tools.esc "/"%char) else None) s.

Definition RegexLiteral_String (r : RegexLiteralT) : string :=
  match re_Val r with
  | Some re => "/" +:+ escape_slashes re +:+ "/"
  | None => EmptyString
  end.

Definition VarRef_String (val : string) (ty : DataType) : string :=
  let q := tools.QuoteIdent [val] in
  match ty with
  | Unknown => q
  | _ => q +:+ "::" +:+ DataType_String ty
  end.

Definition Wildcard_String (ty : token.Token) : string :=
  match ty with
  | token.FIELD => "*::field"
  | token.TAG => "*::tag"
  | _ => "*"
  end.

Fixpoint ListLiteral_loop (first : bool) (vals : list string) : string :=
  match vals with
  | [] => EmptyString
  | tagKey :: rest =>
    (if first then EmptyString else ", "%string)
      +:+ tools.QuoteIdent [tagKey] +:+ ListLiteral_loop false rest
  end.

Fixpoint Expr_String (e : Expr) : string :=
  match e with
  | BinaryExpr op lhs rhs =>
    Expr_String lhs +:+ " " +:+ token.String op +:+ " " +:+ Expr_String rhs
  | Call name args => name +:+ "(" +:+ Join (map Expr_String args) ", " +:+ ")"
  | Distinct val => "DISTINCT " +:+ val
  | ParenExpr e' => "(" +:+ Expr_String e' +:+ ")"
  | VarRef val ty => VarRef_String val ty
  | Wildcard ty => Wildcard_String ty
  | BooleanLiteral b => if b then "true" else "false"
  | BoundParameter name => "$" +:+ tools.QuoteIdent [name]
  | DurationLiteral d => tools.FormatDuration d
  | IntegerLiteral v => FormatInt v
  | UnsignedLiteral v => FormatUint v
  | NilLiteral => "nil"
  | NumberLiteral v => FormatFloat H v "f"%char 3
  | RegexLiteral r => RegexLiteral_String r
  | ListLiteral vals => "(" +:+ ListLiteral_loop true vals +:+ ")"
  | StringLiteral v => tools.QuoteString v
  | TimeLiteral t => "'" +:+ time_Format H t +:+ "'"
  end.

Definition Field_String (f : Field) : string :=
  let str := Expr_String (f_Expr f) in
  if String.eqb (Alias f) EmptyString then str
  else str +:+ " AS " +:+ tools.QuoteIdent [Alias f].

Definition Fields_String (a : list Field) : string :=
  Join (map Field_String a) ", ".

Definition Metric_String (m : Metric) : string :=
  let nonempty (x : string) := negb (String.eqb x EmptyString) in
  (if nonempty (Database m) then tools.QuoteIdent [Database m] +:+ "." else EmptyString)
  +:+ (if nonempty (TimeToLive m) then tools.QuoteIdent [TimeToLive m] else EmptyString)
  +:+ (if nonempty (Database m) || nonempty (TimeToLive m) then "."%string else EmptyString)
  +:+ (if nonempty (Name m) && negb (nonempty (SystemIterator m))
       then tools.QuoteIdent [Name m]
       else if nonempty (SystemIterator m) then tools.QuoteIdent [SystemIterator m]
       else match Regex m with
            | Some r => RegexLiteral_String r
            | None => EmptyString
            end).

(** [Target.String] for a non-nil target. *)
Definition Target_String (t : Target) : string :=
  "INTO " +:+ Metric_String (t_Metric t)
  +:+ (if String.eqb (Name (t_Metric t)) EmptyString then ":METRIC"%string else EmptyString).

Definition Dimension_String (d : Dimension) : string := Expr_String (d_Expr d).

Definition Dimensions_String (a : list Dimension) : string :=
  Join (map Dimension_String a) ", ".

Definition SortField_String (field : SortField) : string :=
  (if negb (String.eqb (sf_Name field) EmptyString) then sf_Name field +:+ " " else EmptyString)
  +:+ (if Ascending field then "ASC"%string else "DESC"%string).

Definition SortFields_String (a : list SortField) : string :=
  Join (map SortField_String a) ", ".

(** [fmt.Sprintf("%v", v)] of a fill value. *)
Definition FillValue_String (v : FillValueT) : string :=
  match v with
  | FillNil => "<nil>"
  | FillInt64 n => FormatInt n
  | FillFloat64 x => FormatFloat H x "g"%char (-1)
  end.

(** [Sources.String]: the sources joined by a comma and a space. *)
Definition Sources_String_with {Src : Type} (str : Src -> string) (a : list Src) : string :=
  Join (map str a) ", ".

(** [SelectStatement.String], over the printer of its sources. *)
Definition SelectFields_String {Src : Type} (str : Src -> string) (s : SelectFields Src)
  : string :=
  "SELECT " +:+ Fields_String (Fields _ s)
  +:+ match Target_ _ s with
      | Some t => " " +:+ Target_String t
      | None => EmptyString
      end
  +:+ (if 0 <? Z.of_nat (length (Sources _ s))
       then " FROM " +:+ Sources_String_with str (Sources _ s) else EmptyString)
  +:+ match Condition _ s with
      | Some c => " WHERE " +:+ Expr_String c
      | None => EmptyString
      end
  +:+ (if 0 <? Z.of_nat (length (Dimensions _ s))
       then " GROUP BY " +:+ Dimensions_String (Dimensions _ s) else EmptyString)
  +:+ match Fill _ s with
      | NoFill => " fill(none)"
      | NumberFill => " fill(" +:+ FillValue_String (FillValue _ s) +:+ ")"
      | LinearFill => " fill(linear)"
      | PreviousFill => " fill(previous)"
      | NullFill => EmptyString
      end
  +:+ (if 0 <? Z.of_nat (length (SortFields _ s))
       then " ORDER BY " +:+ SortFields_String (SortFields _ s) else EmptyString)
  +:+ (if 0 <? Limit _ s then " LIMIT " +:+ FormatInt (Limit _ s) else EmptyString)
  +:+ (if 0 <? Offset _ s then " OFFSET " +:+ FormatInt (Offset _ s) else EmptyString)
  +:+ (if 0 <? SLimit _ s then " SLIMIT " +:+ FormatInt (SLimit _ s) else EmptyString)
  +:+ (if 0 <? SOffset _ s then " SOFFSET " +:+ FormatInt (SOffset _ s) else EmptyString)
  +:+ match Location_ _ s with
      | Some loc => " TZ('" +:+ Location_String H loc +:+ "')"
      | None => EmptyString
      end.

Fixpoint Source_String (src : Source) : string :=
  match src with
  | SrcMetric m => Metric_String m
  | SubQuery stmt => "(" +:+ SelectFields_String Source_String stmt +:+ ")"
  end.

Definition SelectStatement_String (s : SelectStatement) : string :=
  SelectFields_String Source_String s.

Definition Sources_String (a : list Source) : string :=
  Sources_String_with Source_String a.

Definition Statements_String (a : list Statement) : string :=
  Join (map SelectStatement_String a) (";" +:+ String tools.newline EmptyString).

Definition Query_String (q : Query) : string := Statements_String (Statements q).

End WithHost.

End ast.

(** ** Package [parser] *)

Module parser.

(** The two kinds of error values the parser returns: a [*ParseError]
    and the plain errors of [errors.New] and [fmt.Errorf]. *)
Inductive error : Type :=
| ParseError (Message Found : string) (Expected : list string) (Pos : token.Pos)
| errorString (msg : string).

Definition newParseError (found : string) (expected : list string) (pos : token.Pos)
  : error :=
  ParseError EmptyString found expected pos.

(** The [Error] method. *)
Definition Error (e : error) : string :=
  match e with
  | errorString msg => msg
  | ParseError message found expected pos =>
    let at_ := " at line " +:+ FormatInt (token.Line pos + 1)
               +:+ ", char " +:+ FormatInt (token.Char pos + 1) in
    if negb (String.eqb message EmptyString) then message +:+ at_
    else "found " +:+ found +:+ ", expected " +:+ Join expected ", " +:+ at_
  end.

Definition ErrInvalidDuration : error := errorString "invalid duration".

Definition tokstr (tok : token.Token) (lit : string) : string :=
  if negb (String.eqb lit EmptyString) then lit else token.String tok.

(** *** [ParseDuration] *)

Fixpoint span_digits (a : list rune) : list rune * list rune :=
  match a with
  | [] => ([], [])
  | c :: rest =>
    if tools.IsDigit c
    then let '(ds, tl) := span_digits rest in (c :: ds, tl)
    else ([], a)
  end.

(** The parsing loop of [ParseDuration]; [a] is what is left of the rune
    slice from index [i] on.  Arithmetic on [time.Duration] wraps. *)
Fixpoint ParseDuration_loop (fuel : nat) (a : list rune) (d measure : Z) (unit : string)
  : option (error + (Z * Z * string)) :=
  match a with
  | [] => Some (inr (d, measure, unit))
  | _ =>
    match fuel with
    | O => None
    | S f =>
      let '(ds, rest) := span_digits a in
      match ds, rest with
      | [], _ | _, [] => Some (inl ErrInvalidDuration)
      | _, u :: rest' =>
        match ParseInt (encode_runes ds) with
        | NumOk n =>
          let add (k : Z) := wrap64 (d + wrap64 (n * k)) in
          let one := utf8_EncodeRune u in
          if u =? rc "n" then
            match rest' with
            | c :: rest'' =>
              if c =? rc "s" then ParseDuration_loop f rest'' (add 1) n "ns"
              else Some (inl ErrInvalidDuration)
            | [] => Some (inl ErrInvalidDuration)
            end
          else if (u =? rc "u") || (u =? micro) then
            ParseDuration_loop f rest' (add tools.Microsecond) n one
          else if u =? rc "m" then
            match rest' with
            | c :: rest'' =>
              if c =? rc "s" then ParseDuration_loop f rest'' (add tools.Millisecond) n "ms"
              else ParseDuration_loop f rest' (add tools.Minute) n one
            | [] => ParseDuration_loop f rest' (add tools.Minute) n one
            end
          else if u =? rc "s" then ParseDuration_loop f rest' (add tools.Second) n one
          else if u =? rc "h" then ParseDuration_loop f rest' (add tools.Hour) n one
          else if u =? rc "d" then ParseDuration_loop f rest' (add tools.Day) n one
          else if u =? rc "w" then ParseDuration_loop f rest' (add tools.Week) n one
          else Some (inl ErrInvalidDuration)
        | _ => Some (inl ErrInvalidDuration)
        end
      end
    end
  end.

(** [ParseDuration]: the duration, or the error. *)
Definition ParseDuration (s : string) : error + Z :=
  if Z.of_nat (String.length s) <? 2 then inl ErrInvalidDuration
  else
    let a := decode_runes s in
    let '(isNegative, body) :=
      match a with
      | c :: rest => if c =? rc "-" then (true, rest) else (false, a)
      | [] => (false, a)
      end in
    match ParseDuration_loop (S (length body)) body 0 0 EmptyString with
    | None => inl ErrInvalidDuration
    | Some (inl e) => inl e
    | Some (inr (d, measure, unit)) =>
      if (d <? 0) && negb isNegative then
        inl (errorString ("overflowed duration " +:+ FormatInt measure +:+ unit
                          +:+ ": choose a smaller duration or INF"))
      else inr (if isNegative then wrap64 (- d) else d)
    end.

Definition FormatDuration (d : Z) : string := tools.FormatDuration d.

(** The outcome of a parser method: a value, an error, a Go panic, or
    the model's fuel has run out. *)
Inductive Res (A : Type) : Type :=
| Ok (a : A)
| Err (e : error)
| Panic (msg : string)
| OutOfFuel.

Arguments Ok {A} a.
Arguments Err {A} e.
Arguments Panic {A} msg.
Arguments OutOfFuel {A}.

Section WithHost.

Context (H : Host).

Abbreviation Expr := (ast.Expr H).

(** *** Parameter values *)

Inductive Value : Type :=
| Identifier (v : string)
| StringValue (v : string)
| RegexValue (v : string)
| NumberValue (v : float64 H)
| IntegerValue (v : Z)
| BooleanValue (v : bool)
| DurationValue (v : string)
| ErrorValue (v : string).

Definition TokenType (v : Value) : token.Token :=
  match v with
  | Identifier _ => token.IDENT
  | StringValue _ => token.STRING
  | RegexValue _ => token.REGEX
  | NumberValue _ => token.NUMBER
  | IntegerValue _ => token.INTEGER
  | BooleanValue b => if b then token.TRUE else token.FALSE
  | DurationValue _ => token.DURATIONVAL
  | ErrorValue _ => token.BOUNDPARAM
  end.

(** The [Value] method. *)
Definition Value_ (v : Value) : string :=
  match v with
  | Identifier s | StringValue s | RegexValue s | DurationValue s | ErrorValue s => s
  | NumberValue x => FormatFloat H x "f"%char (-1)
  | IntegerValue n => FormatInt n
  | BooleanValue _ => EmptyString
  end.

(** *** The parser and its result monad *)

Record Parser : Type := mkParser {
  s : scanner.bufScanner;
  params : gmap string Value
}.

Definition NewParser (input : list rune) : Parser :=
  mkParser (scanner.NewScanner input) ∅.

(** [SetParams], for parameters that are bound already. *)
Definition SetParams (p : Parser) (ps : gmap string Value) : Parser :=
  mkParser (s p) ps.

(** A method of [*Parser]: it returns a value and the parser as it has
    left it, or fails. *)
Definition M (A : Type) : Type := Parser -> Res (A * Parser).

Definition ret {A} (a : A) : M A := fun p => Ok (a, p).

Definition bind {A B} (c : M A) (k : A -> M B) : M B :=
  fun p =>
    match c p with
    | Ok (a, p') => k a p'
    | Err e => Err e
    | Panic m => Panic m
    | OutOfFuel => OutOfFuel
    end.

Definition fail {A} (e : error) : M A := fun _ => Err e.

Definition outOfFuel {A} : M A := fun _ => OutOfFuel.

Definition panic {A} (msg : string) : M A := fun _ => Panic msg.

Notation "x <- c ;; k" := (bind c (fun x => k))
  (at level 100, c at next level, right associativity).
Notation "c ;;; k" := (bind c (fun _ => k))
  (at level 100, right associativity).

Definition liftScan (f : scanner.bufScanner -> option (scanner.tokinfo * scanner.bufScanner))
  : M scanner.tokinfo :=
  fun p =>
    match f (s p) with
    | None => OutOfFuel
    | Some (t, b) => Ok (t, mkParser b (params p))
    end.

(** [p.s.Unscan()] *)
Definition Unscan : M unit :=
  fun p => Ok (tt, mkParser (scanner.Unscan (s p)) (params p)).

(** [p.s.Peek()] *)
Definition Peek : M rune :=
  fun p => let '(r, b) := scanner.Peek (s p) in Ok (r, mkParser b (params p)).

(** The substitution of a bound parameter that [scan] and [scanRegex]
    apply to the token they got. *)
Definition substitute (ps : gmap string Value) (t : scanner.tokinfo) : scanner.tokinfo :=
  let '(pos, tok, lit) := t in
  if token.eqb tok token.BOUNDPARAM then
    let k := TrimPrefix_dollar lit in
    if negb (Z.of_nat (String.length k) =? 0) then
      match ps !! k with
      | Some v => (pos, TokenType v, Value_ v)
      | None => t
      end
    else t
  else t.

Definition scan (fuel : nat) : M scanner.tokinfo :=
  fun p =>
    match liftScan (scanner.bScan fuel) p with
    | Ok (t, p') => Ok (substitute (params p) t, p')
    | Err e => Err e
    | Panic m => Panic m
    | OutOfFuel => OutOfFuel
    end.

Definition scanRegex (fuel : nat) : M scanner.tokinfo :=
  fun p =>
    match liftScan (scanner.bScanRegex fuel) p with
    | Ok (t, p') => Ok (substitute (params p) t, p')
    | Err e => Err e
    | Panic m => Panic m
    | OutOfFuel => OutOfFuel
    end.

Fixpoint ScanIgnoreWhitespace (fuel : nat) : M scanner.tokinfo :=
  match fuel with
  | O => outOfFuel
  | S f =>
    tk <- scan f ;; let '(pos, tok, lit) := tk in
    if token.eqb tok token.WS || token.eqb tok token.COMMENT
    then ScanIgnoreWhitespace f
    else ret (pos, tok, lit)
  end.

Definition consumeWhitespace (fuel : nat) : M unit :=
  tk <- scan fuel ;; let '(_, tok, _) := tk in
  if negb (token.eqb tok token.WS) then Unscan else ret tt.

Fixpoint parseTokens (fuel : nat) (toks : list token.Token) : M unit :=
  match toks with
  | [] => ret tt
  | expected :: rest =>
    tk <- ScanIgnoreWhitespace fuel ;; let '(pos, tok, lit) := tk in
    if negb (token.eqb tok expected)
    then fail (newParseError (tokstr tok lit) [token.String expected] pos)
    else parseTokens fuel rest
  end.

Definition parseIdent (fuel : nat) : M string :=
  tk <- ScanIgnoreWhitespace fuel ;; let '(pos, tok, lit) := tk in
  if negb (token.eqb tok token.IDENT)
  then fail (newParseError (tokstr tok lit) ["identifier"%string] pos)
  else ret lit.

(** The loop of [parseSegmentedIdents]. *)
Fixpoint parseSegmentedIdents_loop (fuel : nat) (idents : list string) : M (list string) :=
  match fuel with
  | O => outOfFuel
  | S f =>
    tk <- scan f ;; let '(_, tok, _) := tk in
    if negb (token.eqb tok token.DOT) then Unscan ;;; ret idents
    else
      ch <- Peek ;;
      if ch =? rc "/" then ret idents
      else if ch =? rc ":" then ret idents
      else if ch =? rc "." then parseSegmentedIdents_loop f (idents ++ [EmptyString])
      else
        ident <- parseIdent f ;;
        parseSegmentedIdents_loop f (idents ++ [ident])
  end.

Definition parseSegmentedIdents (fuel : nat) : M (list string) :=
  ident <- parseIdent fuel ;;
  idents <- parseSegmentedIdents_loop fuel [ident] ;;
  if 3 <? Z.of_nat (length idents) then
    fail (ParseError ("too many segments in " +:+ tools.QuoteIdent idents)
            EmptyString [] scanner.zeroPos)
  else ret idents.

(** [ParseOptionalTokenAndInt]: the token [t] followed by an integer,
    if the token is there.  The error of [strconv.ParseInt] is dropped. *)
Definition ParseOptionalTokenAndInt (fuel : nat) (t : token.Token) : M Z :=
  tk <- ScanIgnoreWhitespace fuel ;; let '(_, tok, _) := tk in
  if negb (token.eqb tok t) then Unscan ;;; ret 0
  else
    tk <- ScanIgnoreWhitespace fuel ;; let '(pos, tok, lit) := tk in
    if negb (token.eqb tok token.INTEGER)
    then fail (newParseError (tokstr tok lit) ["integer"%string] pos)
    else
      let n := num_value (ParseInt lit) in
      if n <? 0
      then fail (ParseError (token.String t +:+ " must be >= 0") EmptyString [] pos)
      else ret n.

(** [parseAlias]: the alias after [AS], if there is one. *)
Definition parseAlias (fuel : nat) : M string :=
  tk <- ScanIgnoreWhitespace fuel ;; let '(_, tok, _) := tk in
  if negb (token.eqb tok token.AS) then Unscan ;;; ret EmptyString
  else parseIdent fuel.

Definition parseSortField (fuel : nat) : M ast.SortField :=
  ident <- parseIdent fuel ;;
  tk <- ScanIgnoreWhitespace fuel ;; let '(_, tok, _) := tk in
  if negb (token.eqb tok token.ASC) && negb (token.eqb tok token.DESC)
  then Unscan ;;; ret (ast.mkSortField ident true)
  else ret (ast.mkSortField ident (token.eqb tok token.ASC)).

Fixpoint parseSortFields_loop (fuel : nat) (fields : list ast.SortField)
  : M (list ast.SortField) :=
  match fuel with
  | O => outOfFuel
  | S f =>
    tk <- ScanIgnoreWhitespace f ;; let '(_, tok, _) := tk in
    if negb (token.eqb tok token.COMMA) then Unscan ;;; ret fields
    else
      field <- parseSortField f ;;
      parseSortFields_loop f (fields ++ [field])
  end.

Definition onlyTime : error := errorString "only ORDER BY time supported at this time".

Definition parseSortFields (fuel : nat) : M (list ast.SortField) :=
  tk <- ScanIgnoreWhitespace fuel ;; let '(pos, tok, lit) := tk in
  first <-
    (if token.eqb tok token.ASC || token.eqb tok token.DESC
     then ret [ast.mkSortField EmptyString (token.eqb tok token.ASC)]
     else if token.eqb tok token.IDENT then
       Unscan ;;;
       field <- parseSortField fuel ;;
       if negb (String.eqb lit "time") then fail onlyTime else ret [field]
     else fail (newParseError (tokstr tok lit) ["identifier"; "ASC"; "DESC"]%string pos)) ;;
  fields <- parseSortFields_loop fuel first ;;
  if 1 <? Z.of_nat (length fields) then fail onlyTime else ret fields.

Definition parseOrderBy (fuel : nat) : M (list ast.SortField) :=
  tk <- ScanIgnoreWhitespace fuel ;; let '(_, tok, _) := tk in
  if negb (token.eqb tok token.ORDER) then Unscan ;;; ret []
  else
    tk <- ScanIgnoreWhitespace fuel ;; let '(pos, tok, lit) := tk in
    if negb (token.eqb tok token.BY)
    then fail (newParseError (tokstr tok lit) ["BY"%string] pos)
    else parseSortFields fuel.

(** [parseRegex]: a regular expression, if one starts here. *)
Definition parseRegex (fuel : nat) : M (option ast.RegexLiteralT) :=
  nextRune <- Peek ;;
  (if tools.IsWhitespace nextRune then consumeWhitespace fuel else ret tt) ;;;
  nextRune <- Peek ;;
  proceed <-
    (if nextRune =? rc "$" then
       tk <- scan fuel ;; let '(_, tok, _) := tk in
       Unscan ;;;
       ret (token.eqb tok token.REGEX)
     else ret (nextRune =? rc "/")) ;;
  if negb proceed then ret None
  else
    tk <- liftScan (scanner.bScanRegex fuel) ;; let '(pos, tok, lit) := tk in
    if token.eqb tok token.BADESCAPE
    then fail (ParseError ("bad escape: " +:+ lit) EmptyString [] pos)
    else if token.eqb tok token.BADREGEX
    then fail (ParseError ("bad regex: " +:+ lit) EmptyString [] pos)
    else if negb (token.eqb tok token.REGEX)
    then fail (newParseError (tokstr tok lit) ["regex"%string] pos)
    else
      match regexp_Compile_error H lit with
      | Some msg => fail (ParseError msg EmptyString [] pos)
      | None => ret (Some (ast.mkRegexLiteral (Some lit)))
      end.

(** [ParseVarRef]: a reference to a metric or field. *)
Definition ParseVarRef (fuel : nat) : M Expr :=
  segments <- parseSegmentedIdents fuel ;;
  dtype <-
    (tk <- scan fuel ;; let '(_, tok, _) := tk in
     if token.eqb tok token.DOUBLECOLON then
       tk <- scan fuel ;; let '(pos, tok, lit) := tk in
       match tok with
       | token.IDENT =>
         let l := ToLower lit in
         if String.eqb l "float" then ret ast.Float
         else if String.eqb l "integer" then ret ast.Integer
         else if String.eqb l "unsigned" then ret ast.Unsigned
         else if String.eqb l "string" then ret ast.String_
         else if String.eqb l "boolean" then ret ast.Boolean
         else fail (newParseError (tokstr tok lit)
                      ["float"; "integer"; "unsigned"; "string"; "boolean"; "field"; "tag"]%string
                      pos)
       | token.FIELD => ret ast.AnyField
       | token.TAG => ret ast.Tag
       | _ => fail (newParseError (tokstr tok lit)
                      ["float"; "integer"; "string"; "boolean"; "field"; "tag"]%string pos)
       end
     else Unscan ;;; ret ast.Unknown) ;;
  ret (ast.VarRef H (Join segments ".") dtype).

(** *** Expressions *)

(** The descent of [ParseExpr] along the right spine: [e] is
    [node.RHS], the result is what [node.RHS] is after the new binary
    expression has been put in. *)
Fixpoint addBinaryExpr (e : Expr) (op : token.Token) (rhs : Expr) : Expr :=
  match e with
  | ast.BinaryExpr _ o l r =>
    if token.Precedence op <=? token.Precedence o
    then ast.BinaryExpr H op e rhs
    else ast.BinaryExpr H o l (addBinaryExpr r op rhs)
  | _ => ast.BinaryExpr H op e rhs
  end.

(** The type switch of [parseUnaryExpr] on the operand of a sign. *)
Definition applySign (tok : token.Token) (mul : Z) (lit : Expr) : M Expr :=
  match lit with
  | ast.NumberLiteral _ v => ret (ast.NumberLiteral H (float64_mul H v mul))
  | ast.IntegerLiteral _ v => ret (ast.IntegerLiteral H (wrap64 (v * mul)))
  | ast.UnsignedLiteral _ v =>
    if token.eqb tok token.SUB then
      if v =? 2 ^ 63 then ret (ast.IntegerLiteral H (wrap64 (wrapU64 (- v))))
      else fail (errorString ("constant -" +:+ FormatUint v +:+ " underflows int64"))
    else ret lit
  | ast.DurationLiteral _ v => ret (ast.DurationLiteral H (wrap64 (v * mul)))
  | ast.VarRef _ _ _ | ast.Call _ _ _ | ast.ParenExpr _ _ =>
    ret (ast.BinaryExpr H token.MUL (ast.IntegerLiteral H mul) lit)
  | _ => panic "unexpected literal"
  end.

(** The message of a [BOUNDPARAM] that reaches [parseUnaryExpr]. *)
Definition boundParamError (ps : gmap string Value) (lit : string) : error :=
  let k := TrimPrefix_dollar lit in
  if Z.of_nat (String.length k) =? 0 then errorString "empty bound parameter"
  else
    match ps !! k with
    | None => errorString ("missing parameter: " +:+ k)
    | Some v => errorString (Value_ v)
    end.

Fixpoint ParseExpr (fuel : nat) : M Expr :=
  match fuel with
  | O => outOfFuel
  | S f =>
    root_RHS <- parseUnaryExpr f ;;
    ParseExpr_loop f root_RHS
  end

with ParseExpr_loop (fuel : nat) (root_RHS : Expr) : M Expr :=
  match fuel with
  | O => outOfFuel
  | S f =>
    tk <- ScanIgnoreWhitespace f ;; let '(_, op, _) := tk in
    if negb (token.IsOperator op) then Unscan ;;; ret root_RHS
    else
      rhs <-
        (if token.IsRegexOp op then
           re <- parseRegex f ;;
           match re with
           | Some r => ret (ast.RegexLiteral H r)
           | None =>
             tk <- ScanIgnoreWhitespace f ;; let '(pos, tok, lit) := tk in
             fail (newParseError (tokstr tok lit) ["regex"%string] pos)
           end
         else parseUnaryExpr f) ;;
      ParseExpr_loop f (addBinaryExpr root_RHS op rhs)
  end

with parseUnaryExpr (fuel : nat) : M Expr :=
  match fuel with
  | O => outOfFuel
  | S f =>
    tk <- ScanIgnoreWhitespace f ;; let '(_, tok, _) := tk in
    if token.eqb tok token.LPAREN then
      expr <- ParseExpr f ;;
      tk <- ScanIgnoreWhitespace f ;; let '(pos, tok, lit) := tk in
      if negb (token.eqb tok token.RPAREN)
      then fail (newParseError (tokstr tok lit) [")"%string] pos)
      else ret (ast.ParenExpr H expr)
    else
      Unscan ;;;
      tk <- ScanIgnoreWhitespace f ;; let '(pos, tok, lit) := tk in
      match tok with
      | token.IDENT =>
        tk <- scan f ;; let '(_, tok0, _) := tk in
        if token.eqb tok0 token.LPAREN then parseCall f lit
        else Unscan ;;; Unscan ;;; ParseVarRef f
      | token.DISTINCT =>
        tk <- scan f ;; let '(pos, tok0, lit) := tk in
        if token.eqb tok0 token.LPAREN then parseCall f "distinct"
        else if token.eqb tok0 token.WS then
          tk <- ScanIgnoreWhitespace f ;; let '(pos, tok1, lit) := tk in
          if negb (token.eqb tok1 token.IDENT)
          then fail (newParseError (tokstr tok1 lit) ["identifier"%string] pos)
          else ret (ast.Distinct H lit)
        else fail (newParseError (tokstr tok0 lit) ["("; "identifier"]%string pos)
      | token.STRING => ret (ast.StringLiteral H lit)
      | token.NUMBER =>
        match ParseFloat H lit with
        | None => fail (ParseError "unable to parse number" EmptyString [] pos)
        | Some v => ret (ast.NumberLiteral H v)
        end
      | token.INTEGER =>
        match ParseInt lit with
        | NumOk v => ret (ast.IntegerLiteral H v)
        | _ =>
          match ParseUint lit with
          | NumOk v => ret (ast.UnsignedLiteral H v)
          | _ => fail (ParseError "unable to parse integer" EmptyString [] pos)
          end
        end
      | token.TRUE | token.FALSE => ret (ast.BooleanLiteral H (token.eqb tok token.TRUE))
      | token.DURATIONVAL =>
        match ParseDuration lit with
        | inl err => fail err
        | inr v => ret (ast.DurationLiteral H v)
        end
      | token.MUL =>
        tk <- scan f ;; let '(_, tok, _) := tk in
        if token.eqb tok token.DOUBLECOLON then
          tk <- scan f ;; let '(pos, tok, lit) := tk in
          match tok with
          | token.FIELD | token.TAG => ret (ast.Wildcard H tok)
          | _ => fail (newParseError (tokstr tok lit) ["field"; "tag"]%string pos)
          end
        else Unscan ;;; ret (ast.Wildcard H token.ILLEGAL)
      | token.REGEX =>
        match regexp_Compile_error H lit with
        | Some msg => fail (ParseError msg EmptyString [] pos)
        | None => ret (ast.RegexLiteral H (ast.mkRegexLiteral (Some lit)))
        end
      | token.BOUNDPARAM => fun p => Err (boundParamError (params p) lit)
      | token.ADD | token.SUB =>
        let mul := if token.eqb tok token.SUB then -1 else 1 in
        tk <- ScanIgnoreWhitespace f ;; let '(pos0, tok0, lit0) := tk in
        match tok0 with
        | token.NUMBER | token.INTEGER | token.DURATIONVAL | token.LPAREN | token.IDENT =>
          Unscan ;;;
          lit <- parseUnaryExpr f ;;
          applySign tok mul lit
        | _ => fail (newParseError (tokstr tok0 lit0)
                       ["identifier"; "number"; "duration"; "("]%string pos0)
        end
      | _ => fail (newParseError (tokstr tok lit)
                     ["identifier"; "string"; "number"; "bool"]%string pos)
      end
  end

with parseCall (fuel : nat) (name : string) : M Expr :=
  match fuel with
  | O => outOfFuel
  | S f =>
    let name := ToLower name in
    re <- parseRegex f ;;
    match re with
    | Some r => parseCall_args f name [ast.RegexLiteral H r]
    | None =>
      tk <- scan f ;; let '(_, tok, _) := tk in
      if token.eqb tok token.RPAREN then ret (ast.Call H name [])
      else
        Unscan ;;;
        arg <- ParseExpr f ;;
        parseCall_args f name [arg]
    end
  end

with parseCall_args (fuel : nat) (name : string) (args : list Expr) : M Expr :=
  match fuel with
  | O => outOfFuel
  | S f =>
    tk <- ScanIgnoreWhitespace f ;; let '(_, tok, _) := tk in
    if negb (token.eqb tok token.COMMA) then
      Unscan ;;;
      tk <- scan f ;; let '(pos, tok, lit) := tk in
      if negb (token.eqb tok token.RPAREN)
      then fail (newParseError (tokstr tok lit) [")"%string] pos)
      else ret (ast.Call H name args)
    else
      re <- parseRegex f ;;
      match re with
      | Some r => parseCall_args f name (args ++ [ast.RegexLiteral H r])
      | None =>
        arg <- ParseExpr f ;;
        parseCall_args f name (args ++ [arg])
      end
  end.

(** *** The clauses of [SELECT] *)

(** The state of [validateField]. *)
Record validateField : Type := mkValidateField {
  foundInvalid : bool;
  badToken : token.Token
}.

Definition isBooleanOp (op : token.Token) : bool :=
  match op with
  | token.EQ | token.NEQ | token.EQREGEX | token.NEQREGEX
  | token.LT | token.LTE | token.GT | token.GTE | token.AND | token.OR => true
  | _ => false
  end.

Definition validateField_Visit (n : ast.Node H) (c : validateField) : validateField * bool :=
  match n with
  | ast.NodeExpr _ (ast.BinaryExpr _ op _ _) =>
    if isBooleanOp op then (mkValidateField true op, false) else (c, true)
  | _ => (c, true)
  end.

Definition parseField (fuel : nat) : M (ast.Field H) :=
  re <- parseRegex fuel ;;
  expr <-
    match re with
    | Some r => ret (ast.RegexLiteral H r)
    | None =>
      tk <- ScanIgnoreWhitespace fuel ;; let '(pos, _, _) := tk in
      Unscan ;;;
      expr <- ParseExpr fuel ;;
      let c := ast.Walk H validateField_Visit (ast.NodeExpr H expr)
                 (mkValidateField false token.ILLEGAL) in
      if foundInvalid c then
        fail (errorString
                ("invalid operator " +:+ token.String (badToken c)
                 +:+ " in SELECT clause at line " +:+ FormatInt (token.Line pos + 1)
                 +:+ ", char " +:+ FormatInt (token.Char pos + 1)
                 +:+ "; operator is intended for WHERE clause"))
      else ret expr
    end ;;
  alias <- parseAlias fuel ;;
  consumeWhitespace fuel ;;;
  ret (ast.mkField H expr alias).

Fixpoint parseFields_loop (fuel : nat) (fields : list (ast.Field H)) : M (list (ast.Field H)) :=
  match fuel with
  | O => outOfFuel
  | S f =>
    fld <- parseField f ;;
    let fields := fields ++ [fld] in
    tk <- scan f ;; let '(_, tok, _) := tk in
    if negb (token.eqb tok token.COMMA) then Unscan ;;; ret fields
    else parseFields_loop f fields
  end.

Definition parseFields (fuel : nat) : M (list (ast.Field H)) := parseFields_loop fuel [].

Inductive targetRequirement : Type :=
| targetRequired | targetNotRequired | targetSubquery.

Definition parseTarget (fuel : nat) (tr : targetRequirement) : M (option ast.Target) :=
  tk <- ScanIgnoreWhitespace fuel ;; let '(pos, tok, lit) := tk in
  if negb (token.eqb tok token.INTO) then
    match tr with
    | targetRequired => fail (newParseError (tokstr tok lit) ["INTO"%string] pos)
    | _ => Unscan ;;; ret None
    end
  else
    idents <- parseSegmentedIdents fuel ;;
    idents <-
      (if Z.of_nat (length idents) <? 3 then
         ch <- Peek ;;
         if ch =? rc ":" then
           parseTokens fuel [token.COLON; token.METRIC] ;;;
           ret (idents ++ [EmptyString])
         else ret idents
       else ret idents) ;;
    let m := ast.mkMetric EmptyString EmptyString EmptyString None true EmptyString in
    let m :=
      match idents with
      | [a] => ast.mkMetric EmptyString EmptyString a None true EmptyString
      | [a; b] => ast.mkMetric EmptyString a b None true EmptyString
      | [a; b; c] => ast.mkMetric a b c None true EmptyString
      | _ => m
      end in
    ret (Some (ast.mkTarget m)).

Definition parseCondition (fuel : nat) : M (option Expr) :=
  tk <- ScanIgnoreWhitespace fuel ;; let '(_, tok, _) := tk in
  if negb (token.eqb tok token.WHERE) then Unscan ;;; ret None
  else expr <- ParseExpr fuel ;; ret (Some expr).

Definition parseDimension (fuel : nat) : M (ast.Dimension H) :=
  re <- parseRegex fuel ;;
  match re with
  | Some r => ret (ast.mkDimension H (ast.RegexLiteral H r))
  | None =>
    expr <- ParseExpr fuel ;;
    consumeWhitespace fuel ;;;
    ret (ast.mkDimension H expr)
  end.

Fixpoint parseDimensions_loop (fuel : nat) (dimensions : list (ast.Dimension H))
  : M (list (ast.Dimension H)) :=
  match fuel with
  | O => outOfFuel
  | S f =>
    d <- parseDimension f ;;
    let dimensions := dimensions ++ [d] in
    tk <- scan f ;; let '(_, tok, _) := tk in
    if negb (token.eqb tok token.COMMA) then Unscan ;;; ret dimensions
    else parseDimensions_loop f dimensions
  end.

Definition parseDimensions (fuel : nat) : M (list (ast.Dimension H)) :=
  tk <- ScanIgnoreWhitespace fuel ;; let '(_, tok, _) := tk in
  if negb (token.eqb tok token.GROUP) then Unscan ;;; ret []
  else
    tk <- ScanIgnoreWhitespace fuel ;; let '(pos, tok, lit) := tk in
    if negb (token.eqb tok token.BY)
    then fail (newParseError (tokstr tok lit) ["BY"%string] pos)
    else parseDimensions_loop fuel [].

Definition parseFill (fuel : nat) : M (ast.FillOption * ast.FillValueT H) :=
  tk <- ScanIgnoreWhitespace fuel ;; let '(_, tok, lit) := tk in
  Unscan ;;;
  if negb (token.eqb tok token.IDENT) || negb (String.eqb (ToLower lit) "fill")
  then ret (ast.NullFill, ast.FillNil H)
  else
    expr <- ParseExpr fuel ;;
    match expr with
    | ast.Call _ _ [arg] =>
      let str := ast.Expr_String H arg in
      if String.eqb str "null" then ret (ast.NullFill, ast.FillNil H)
      else if String.eqb str "none" then ret (ast.NoFill, ast.FillNil H)
      else if String.eqb str "previous" then ret (ast.PreviousFill, ast.FillNil H)
      else if String.eqb str "linear" then ret (ast.LinearFill, ast.FillNil H)
      else
        match arg with
        | ast.IntegerLiteral _ v => ret (ast.NumberFill, ast.FillInt64 H v)
        | ast.NumberLiteral _ v => ret (ast.NumberFill, ast.FillFloat64 H v)
        | _ => fail (errorString "expected number argument in fill()")
        end
    | ast.Call _ _ _ =>
      fail (errorString "fill requires an argument, e.g.: 0, null, none, previous, linear")
    | _ => fail (errorString "fill must be a function call")
    end.

Definition parseLocation (fuel : nat) : M (option (time_Location H)) :=
  tk <- ScanIgnoreWhitespace fuel ;; let '(_, tok, lit) := tk in
  Unscan ;;;
  if negb (token.eqb tok token.IDENT) || negb (String.eqb (ToLower lit) "tz")
  then ret None
  else
    expr <- ParseExpr fuel ;;
    match expr with
    | ast.Call _ _ [arg] =>
      match arg with
      | ast.StringLiteral _ tzname =>
        match time_LoadLocation H tzname with
        | Some loc => ret (Some loc)
        | None => fail (errorString ("unable to find time zone " +:+ tzname))
        end
      | _ => fail (errorString "expected string argument in tz()")
      end
    | ast.Call _ _ _ => fail (errorString "tz requires exactly one argument")
    | _ => fail (errorString "tz must be a function call")
    end.

(** The callback of [parseSelectStatement] under [WalkFunc]: a [Call]
    node clears [stmt.IsRawQuery]. *)
Definition clearOnCall (n : ast.Node H) (isRawQuery : bool) : bool :=
  match n with
  | ast.NodeExpr _ (ast.Call _ _ _) => false
  | _ => isRawQuery
  end.

(** The assignment of segmented identifiers and an optional regex to
    the metric of a source, for fewer than three identifiers. *)
Definition assignSource (idents : list string) (re : option ast.RegexLiteralT) : ast.Metric :=
  match idents, re with
  | [a], Some _ => ast.mkMetric EmptyString a EmptyString re false EmptyString
  | [a], None => ast.mkMetric EmptyString EmptyString a re false EmptyString
  | [a; b], Some _ => ast.mkMetric a b EmptyString re false EmptyString
  | [a; b], None => ast.mkMetric EmptyString a b re false EmptyString
  | _, _ => ast.mkMetric EmptyString EmptyString EmptyString re false EmptyString
  end.

Fixpoint parseSelectStatement (fuel : nat) (tr : targetRequirement)
  : M (ast.SelectStatement H) :=
  match fuel with
  | O => outOfFuel
  | S f =>
    fields <- parseFields f ;;
    target <- parseTarget f tr ;;
    tk <- ScanIgnoreWhitespace f ;; let '(pos, tok, lit) := tk in
    if negb (token.eqb tok token.FROM)
    then fail (newParseError (tokstr tok lit) ["FROM"%string] pos)
    else
      sources <- parseSources_loop f true [] ;;
      condition <- parseCondition f ;;
      dimensions <- parseDimensions f ;;
      fill <- parseFill f ;;
      sortFields <- parseOrderBy f ;;
      limit <- ParseOptionalTokenAndInt f token.LIMIT ;;
      offset <- ParseOptionalTokenAndInt f token.OFFSET ;;
      slimit <- ParseOptionalTokenAndInt f token.SLIMIT ;;
      soffset <- ParseOptionalTokenAndInt f token.SOFFSET ;;
      location <- parseLocation f ;;
      let isRawQuery := ast.WalkFunc H (ast.NodeFields H fields) clearOnCall true in
      ret (ast.mkSelect H (ast.Source H) fields target dimensions sources condition
             sortFields limit offset slimit soffset 0 isRawQuery (fst fill) (snd fill)
             location EmptyString false false EmptyString false)
  end

with parseSources_loop (fuel : nat) (subqueries : bool) (sources : list (ast.Source H))
  : M (list (ast.Source H)) :=
  match fuel with
  | O => outOfFuel
  | S f =>
    src <- parseSource f subqueries ;;
    let sources := sources ++ [src] in
    tk <- ScanIgnoreWhitespace f ;; let '(_, tok, _) := tk in
    if negb (token.eqb tok token.COMMA) then Unscan ;;; ret sources
    else parseSources_loop f subqueries sources
  end

with parseSource (fuel : nat) (subqueries : bool) : M (ast.Source H) :=
  match fuel with
  | O => outOfFuel
  | S f =>
    re <- parseRegex f ;;
    match re with
    | Some r =>
      ret (ast.SrcMetric H
             (ast.mkMetric EmptyString EmptyString EmptyString (Some r) false EmptyString))
    | None =>
      sub <-
        (if subqueries then
           tk <- ScanIgnoreWhitespace f ;; let '(_, tok, _) := tk in
           if token.eqb tok token.LPAREN then
             parseTokens f [token.SELECT] ;;;
             stmt <- parseSelectStatement f targetSubquery ;;
             parseTokens f [token.RPAREN] ;;;
             ret (Some stmt)
           else Unscan ;;; ret None
         else ret None) ;;
      match sub with
      | Some stmt => ret (ast.SubQuery H stmt)
      | None =>
        idents <- parseSegmentedIdents f ;;
        match idents with
        | [a; b; c] =>
          ret (ast.SrcMetric H (ast.mkMetric a b c None false EmptyString))
        | _ =>
          re <- parseRegex f ;;
          ret (ast.SrcMetric H (assignSource idents re))
        end
      end
    end
  end.

Definition parseSources (fuel : nat) (subqueries : bool) : M (list (ast.Source H)) :=
  parseSources_loop fuel subqueries [].

(** *** Statements and queries *)

Definition ParseStatement (fuel : nat) : M (ast.Statement H) :=
  tk <- ScanIgnoreWhitespace fuel ;; let '(pos, tok, lit) := tk in
  match tok with
  | token.SELECT => parseSelectStatement fuel targetNotRequired
  | _ => fail (newParseError (tokstr tok lit) [token.String token.SELECT] pos)
  end.

Fixpoint ParseQuery_loop (fuel : nat) (statements : list (ast.Statement H)) (semi : bool)
  : M (ast.Query H) :=
  match fuel with
  | O => outOfFuel
  | S f =>
    tk <- ScanIgnoreWhitespace f ;; let '(pos, tok, lit) := tk in
    if token.eqb tok token.EOF then ret (ast.mkQuery H statements)
    else if token.eqb tok token.SEMICOLON then ParseQuery_loop f statements true
    else if negb semi then fail (newParseError (tokstr tok lit) [";"%string] pos)
    else
      Unscan ;;;
      stmt <- ParseStatement f ;;
      ParseQuery_loop f (statements ++ [stmt]) false
  end.

(** The method [(p *Parser) ParseQuery]. *)
Definition Parser_ParseQuery (fuel : nat) : M (ast.Query H) := ParseQuery_loop fuel [] true.

(** The result a caller of the package functions sees: the value or the
    error. *)
Definition run {A} (c : M A) (p : Parser) : Res A :=
  match c p with
  | Ok (a, _) => Ok a
  | Err e => Err e
  | Panic m => Panic m
  | OutOfFuel => OutOfFuel
  end.

(** [ParseQuery(s)], [ParseStatement(s)] and [ParseExpr(s)] of the
    package. *)
Definition ParseQuery (fuel : nat) (q : string) : Res (ast.Query H) :=
  run (Parser_ParseQuery fuel) (NewParser (decode_runes q)).

Definition ParseStatement_s (fuel : nat) (q : string) : Res (ast.Statement H) :=
  run (ParseStatement fuel) (NewParser (decode_runes q)).

Definition ParseExpr_s (fuel : nat) (q : string) : Res Expr :=
  run (ParseExpr fuel) (NewParser (decode_runes q)).

End WithHost.

End parser.

(** ** A host to run the model on concrete inputs

    Numbers are kept as the text they were read from, every regular
    expression compiles and every time zone exists.  The theorems below
    hold for every host; this one only serves to evaluate the parser. *)

Definition textHost : Host :=
  mkHost string (fun s => Some s)
    (fun v mul => if mul <? 0 then String "-"%char v else v)
    (fun v _ _ => v)
    (fun _ => None)
    string (fun name => Some name) (fun loc => loc)
    unit (fun _ => EmptyString)
    (fun r => r).

(** * Properties of the scanner and the parser *)

(** The query text [SELECT DISTINCT "a b" FROM m]. *)
Definition quoted_distinct_query : string :=
  "SELECT DISTINCT " +:+ String tools.dquote ("a b" +:+ String tools.dquote " FROM m").

Section Evaluation.

Context (H : Host).

(** C1 (round trip of a parsed query through its canonical text).  The
    claim asks that the text printed for a parsed query parses again, to
    an equal tree.  The query [SELECT DISTINCT "a b" FROM m] parses; its
    canonical text is [SELECT DISTINCT a b FROM m], because
    [Distinct.String] prints the identifier without the quoting that
    [VarRef.String] applies; and that text is rejected by the parser
    ("found b, expected FROM"). *)
Theorem C1_distinct_text_does_not_reparse :
  exists q,
    parser.ParseQuery H 60 quoted_distinct_query = parser.Ok q
    /\ ast.Query_String H q = "SELECT DISTINCT a b FROM m"%string
    /\ parser.ParseQuery H 60 (ast.Query_String H q)
       = parser.Err (parser.newParseError "b" ["FROM"%string] (token.mkPos 0 18)).
Proof.
  eexists. split; [vm_compute; reflexivity|].
  split; vm_compute; reflexivity.
Qed.

(** A second way the round trip of C1 breaks: the sign of [-b] is
    parsed into the product [-1 * b], printed without parentheses, and
    [a * -1 * b] parses to the left-nested product. *)
Lemma roundtrip_changes_signed_operand :
  exists q q',
    parser.ParseQuery H 60 "SELECT a * -b FROM m" = parser.Ok q
    /\ ast.Query_String H q = "SELECT a * -1 * b FROM m"%string
    /\ parser.ParseQuery H 60 (ast.Query_String H q) = parser.Ok q'
    /\ q <> q'.
Proof.
  eexists. eexists. split; [vm_compute; reflexivity|].
  split; [vm_compute; reflexivity|].
  split; [vm_compute; reflexivity|].
  intros E. discriminate E.
Qed.

(** C5 (a duration survives formatting and parsing).  The claim covers
    every non-zero duration.  The smallest [int64], a valid
    [time.Duration], is formatted as [-9223372036854775808ns], and
    [ParseDuration] rejects that text: it reads the digits as a positive
    [int64], which overflows. *)
Theorem C5_min_duration_is_rejected :
  MinInt64 <> 0
  /\ parser.FormatDuration MinInt64 = "-9223372036854775808ns"%string
  /\ parser.ParseDuration (parser.FormatDuration MinInt64) = inl parser.ErrInvalidDuration.
Proof.
  split; [discriminate|]. split; vm_compute; reflexivity.
Qed.

(** C6 (classification into NUMBER, DURATIONVAL and INTEGER).  The claim
    makes NUMBER depend on a dot followed by a digit.  On the input
    [100.] the scanner reads the digits and the dot, finds no digit
    after it, and still answers NUMBER, with the literal [100]; the dot
    is consumed, so that the next token is EOF. *)
Theorem C6_trailing_dot_is_a_number :
  exists r,
    scanner.Scan 10 (scanner.newReader (decode_runes "100."))
    = Some ((token.mkPos 0 0, token.NUMBER, "100"%string), r)
    /\ option_map fst (scanner.Scan 10 r) = Some (token.mkPos 0 4, token.EOF, EmptyString).
Proof.
  eexists. split; [vm_compute; reflexivity | vm_compute; reflexivity].
Qed.

(** C4 (substitution of bound parameters).  The claim says that a
    BOUNDPARAM token whose key is bound is replaced by the token of the
    bound value.  With [re] bound to a regular expression, the statement
    [SELECT * FROM m WHERE a =~ $re] is rejected: [parseRegex] looks at
    the substituted token through [scan], unscans it, and then reads it
    again with [ScanRegex] of the scanner, which returns the token as it
    was scanned, [$re]. *)
Theorem C4_bound_regex_is_not_substituted :
  parser.run H (parser.ParseStatement H 60)
    (parser.SetParams H
       (parser.NewParser H (decode_runes "SELECT * FROM m WHERE a =~ $re"))
       (<["re"%string := parser.RegexValue H "x.*"]> ∅))
  = parser.Err (parser.newParseError "$re" ["regex"%string] (token.mkPos 0 27)).
Proof. vm_compute. reflexivity. Qed.

(** C9 (LIMIT, OFFSET, SLIMIT and SOFFSET).  The claim makes the
    integer that follows the keyword the value of the clause.  In
    [LIMIT 9223372036854775808] the integer does not fit in an [int64]:
    [strconv.ParseInt] answers with a range error and the nearest
    value, [ParseOptionalTokenAndInt] drops the error, and the statement
    is accepted with the limit 9223372036854775807. *)
Theorem C9_limit_above_int64_is_clamped :
  exists stmt,
    parser.ParseStatement_s H 60 "SELECT a FROM m LIMIT 9223372036854775808"
    = parser.Ok stmt
    /\ ast.Limit _ _ stmt = 9223372036854775807
    /\ ast.Limit _ _ stmt <> 9223372036854775808
    /\ ParseInt "9223372036854775808" = NumErrRange 9223372036854775807.
Proof.
  eexists. split; [vm_compute; reflexivity|].
  split; [vm_compute; reflexivity|].
  split; [vm_compute; discriminate | vm_compute; reflexivity].
Qed.

End Evaluation.

(** ** Parser states and the token buffer *)

Section ParserFacts.

Context (H : Host).

Abbreviation Parser := (parser.Parser H).
Abbreviation Ok := parser.Ok.
Abbreviation Err := parser.Err.

(** The parser after [p.s.Unscan()]. *)
Definition unscanned (p : Parser) : Parser :=
  parser.mkParser H (scanner.Unscan (parser.s H p)) (parser.params H p).

Lemma bind_Ok {A B} (c : parser.M H A) (k : A -> parser.M H B) p b p' :
  parser.bind H c k p = Ok (b, p') <->
  exists a p1, c p = Ok (a, p1) /\ k a p1 = Ok (b, p').
Proof.
  unfold parser.bind. split.
  - destruct (c p) as [[a p1]| | |]; try discriminate. eauto.
  - intros (a & p1 & -> & Hk). exact Hk.
Qed.

Lemma bind_eq {A B} (c : parser.M H A) (k : A -> parser.M H B) p a p1 :
  c p = Ok (a, p1) -> parser.bind H c k p = k a p1.
Proof. unfold parser.bind. intros ->. reflexivity. Qed.

Lemma Unscan_eq p : parser.Unscan H p = Ok (tt, unscanned p).
Proof. reflexivity. Qed.

Theorem ParseOptionalTokenAndInt_spec fuel t p pos tok lit p1 :
  parser.ScanIgnoreWhitespace H fuel p = Ok ((pos, tok, lit), p1) ->
  (tok <> t -> parser.ParseOptionalTokenAndInt H fuel t p = Ok (0, unscanned p1))
  /\ (tok = t ->
      forall pos2 tok2 lit2 p2,
        parser.ScanIgnoreWhitespace H fuel p1 = Ok ((pos2, tok2, lit2), p2) ->
        (tok2 <> token.INTEGER ->
         parser.ParseOptionalTokenAndInt H fuel t p
         = Err (parser.newParseError (parser.tokstr tok2 lit2) ["integer"%string] pos2))
        /\ (tok2 = token.INTEGER ->
            let n := num_value (ParseInt lit2) in
            (n < 0 ->
             parser.ParseOptionalTokenAndInt H fuel t p
             = Err (parser.ParseError (token.String t +:+ " must be >= 0") EmptyString [] pos2))
            /\ (0 <= n -> parser.ParseOptionalTokenAndInt H fuel t p = Ok (n, p2)))).
Proof.
  intros Hs. unfold parser.ParseOptionalTokenAndInt.
  rewrite (bind_eq _ _ _ _ _ Hs). cbn beta iota.
  split.
  - intros Hne. apply token.eqb_neq in Hne. rewrite Hne. reflexivity.
  - intros ->. rewrite token.eqb_refl. cbn [negb].
    intros pos2 tok2 lit2 p2 Hs2. rewrite (bind_eq _ _ _ _ _ Hs2). cbn beta iota.
    split.
    + intros Hne. apply token.eqb_neq in Hne. rewrite Hne. reflexivity.
    + intros ->. rewrite token.eqb_refl. cbn [negb]. cbv zeta.
      split; intros Hn.
      * apply Z.ltb_lt in Hn. rewrite Hn. reflexivity.
      * apply Z.ltb_ge in Hn. rewrite Hn. reflexivity.
Qed.

(** The buffered scanner never holds a negative count of unscanned
    tokens. *)
Definition wf (p : Parser) : Prop := 0 <= scanner.n (parser.s H p).

Lemma ScanFunc_curr sc b raw b1 :
  scanner.ScanFunc sc b = Some (raw, b1) ->
  raw = scanner.bcurr b1 /\ (0 <= scanner.n b -> 0 <= scanner.n b1).
Proof.
  unfold scanner.ScanFunc. destruct (0 <? scanner.n b) eqn:E.
  - intros [= <- <-]. split; [reflexivity|]. cbn. apply Z.ltb_lt in E. lia.
  - destruct (sc (scanner.s b)) as [[t r']|]; [|discriminate].
    intros [= <- <-]. split; [reflexivity|]. cbn. tauto.
Qed.

Lemma ScanFunc_Unscan sc b1 :
  0 <= scanner.n b1 ->
  scanner.ScanFunc sc (scanner.Unscan b1) = Some (scanner.bcurr b1, b1).
Proof.
  intros Hn. unfold scanner.ScanFunc, scanner.Unscan. cbn.
  assert (E : (0 <? scanner.n b1 + 1) = true) by (apply Z.ltb_lt; lia).
  rewrite E. destruct b1 as [s0 i0 n0 buf0]. cbn.
  replace (n0 + 1 - 1) with n0 by lia. reflexivity.
Qed.

Lemma scan_inv f p t p1 :
  parser.scan H f p = Ok (t, p1) ->
  exists b1,
    t = parser.substitute H (parser.params H p) (scanner.bcurr b1)
    /\ p1 = parser.mkParser H b1 (parser.params H p)
    /\ (wf p -> wf p1).
Proof.
  unfold parser.scan, parser.liftScan, scanner.bScan.
  destruct (scanner.ScanFunc (scanner.Scan f) (parser.s H p)) as [[raw b1]|] eqn:E;
    [|discriminate].
  intros [= <- <-]. apply ScanFunc_curr in E as [-> Hwf].
  exists b1. repeat split. exact Hwf.
Qed.

Lemma scan_rescan f p t p1 :
  parser.scan H f p = Ok (t, p1) -> wf p ->
  forall f', parser.scan H f' (unscanned p1) = Ok (t, p1).
Proof.
  intros Hs Hwf f'. apply scan_inv in Hs as (b1 & -> & -> & Hwf1).
  specialize (Hwf1 Hwf). unfold wf in Hwf1. cbn in Hwf1.
  unfold parser.scan, parser.liftScan, scanner.bScan, unscanned. cbn.
  rewrite (ScanFunc_Unscan _ _ Hwf1). reflexivity.
Qed.

Lemma SIW_inv f : forall p pos tok lit p1,
  parser.ScanIgnoreWhitespace H f p = Ok ((pos, tok, lit), p1) -> wf p ->
  wf p1 /\ parser.params H p1 = parser.params H p
  /\ token.eqb tok token.WS = false /\ token.eqb tok token.COMMENT = false
  /\ forall f', parser.scan H f' (unscanned p1) = Ok ((pos, tok, lit), p1).
Proof.
  induction f as [|f IH]; intros p pos tok lit p1; [discriminate|].
  cbn [parser.ScanIgnoreWhitespace]. intros Hb Hwf.
  apply bind_Ok in Hb as ([[pos0 tok0] lit0] & p0 & Hs & Hk).
  pose proof (scan_rescan _ _ _ _ Hs Hwf) as Hre.
  pose proof Hs as Hs'. apply scan_inv in Hs' as (b1 & _ & Hp0 & Hwf0).
  specialize (Hwf0 Hwf).
  destruct (token.eqb tok0 token.WS || token.eqb tok0 token.COMMENT) eqn:E.
  - destruct (IH _ _ _ _ _ Hk Hwf0) as (W & P & R). split; [exact W|].
    split; [|exact R]. rewrite P, Hp0. reflexivity.
  - injection Hk as <- <- <- <-. apply orb_false_iff in E as [E1 E2].
    repeat split; try assumption. rewrite Hp0. reflexivity.
Qed.

Lemma SIW_rescan f p pos tok lit p1 :
  parser.ScanIgnoreWhitespace H f p = Ok ((pos, tok, lit), p1) -> wf p ->
  forall f', parser.ScanIgnoreWhitespace H (S f') (unscanned p1) = Ok ((pos, tok, lit), p1).
Proof.
  intros Hs Hwf f'. destruct (SIW_inv _ _ _ _ _ _ Hs Hwf) as (_ & _ & E1 & E2 & R).
  cbn [parser.ScanIgnoreWhitespace]. rewrite (bind_eq _ _ _ _ _ (R f')).
  cbn beta iota. rewrite E1, E2. reflexivity.
Qed.



(** ** Decimal literals *)

Lemma digit_not_sign a :
  is_digit_byte a = true ->
  Ascii.eqb a "-"%char = false /\ Ascii.eqb a "+"%char = false.
Proof.
  intros Hd. split.
  - destruct (Ascii.eqb_spec a "-"%char) as [->|]; [discriminate Hd | reflexivity].
  - destruct (Ascii.eqb_spec a "+"%char) as [->|]; [discriminate Hd | reflexivity].
Qed.

Lemma parse_digits_ge s : forall acc v,
  parse_digits s acc = Some v -> 0 <= acc -> acc <= v.
Proof.
  induction s as [|a s IH]; intros acc v; cbn [parse_digits].
  - intros [= <-] _. lia.
  - destruct (is_digit_byte a) eqn:Hd; [|discriminate].
    intros Hp Hacc. unfold is_digit_byte, in_range in Hd.
    apply andb_prop in Hd as [H1 H2]. apply Z.leb_le in H1, H2.
    specialize (IH _ _ Hp). lia.
Qed.

(** On a non-empty run of digits, [strconv.ParseInt] gives the value,
    or [MaxInt64] with a range error. *)
Lemma ParseInt_digits lit v :
  lit <> EmptyString -> parse_digits lit 0 = Some v ->
  ParseInt lit = (if v <=? MaxInt64 then NumOk v else NumErrRange MaxInt64)
  /\ num_value (ParseInt lit) = Z.min v MaxInt64 /\ 0 <= v.
Proof.
  intros Hne Hp. pose proof (parse_digits_ge _ _ _ Hp (Z.le_refl 0)) as Hv.
  destruct lit as [|a s]; [contradiction|].
  assert (Hd : is_digit_byte a = true).
  { cbn [parse_digits] in Hp. destruct (is_digit_byte a); [reflexivity | discriminate]. }
  destruct (digit_not_sign _ Hd) as [E1 E2].
  assert (E : ParseInt (String a s) = (if v <=? MaxInt64 then NumOk v else NumErrRange MaxInt64)).
  { unfold ParseInt. rewrite E1, E2. cbn [orb]. rewrite Hp. reflexivity. }
  split; [exact E|]. split; [|exact Hv]. rewrite E.
  destruct (v <=? MaxInt64) eqn:Hle; cbn [num_value].
  - apply Z.leb_le in Hle. lia.
  - apply Z.leb_gt in Hle. lia.
Qed.

Lemma ParseUint_digits lit v :
  lit <> EmptyString -> parse_digits lit 0 = Some v ->
  ParseUint lit = (if v <=? MaxUint64 then NumOk v else NumErrRange MaxUint64).
Proof.
  intros Hne Hp. destruct lit as [|a s]; [contradiction|].
  unfold ParseUint. rewrite Hp. reflexivity.
Qed.

(** ** LIMIT, OFFSET, SLIMIT and SOFFSET *)

Ltac inv_bind Hb :=
  let a := fresh "a" in
  let p := fresh "p" in
  let Hc := fresh "Hc" in
  apply bind_Ok in Hb as (a & p & Hc & Hb).

Ltac inv_bind_as Hb Hc :=
  let a := fresh "a" in
  let p := fresh "p" in
  apply bind_Ok in Hb as (a & p & Hc & Hb).



(** ** Integer literals and the unary minus *)

Lemma parseUnaryExpr_integer f p pos lit p1 :
  wf p ->
  parser.ScanIgnoreWhitespace H (S f) p = Ok ((pos, token.INTEGER, lit), p1) ->
  parser.parseUnaryExpr H (S (S f)) p
  = match ParseInt lit with
    | NumOk v => Ok (ast.IntegerLiteral H v, p1)
    | _ =>
      match ParseUint lit with
      | NumOk v => Ok (ast.UnsignedLiteral H v, p1)
      | _ => Err (parser.ParseError "unable to parse integer" EmptyString [] pos)
      end
    end.
Proof.
  intros Hwf Hs. cbn [parser.parseUnaryExpr].
  rewrite (bind_eq _ _ _ _ _ Hs). cbn beta iota.
  change (token.eqb token.INTEGER token.LPAREN) with false. cbn iota.
  rewrite (bind_eq _ _ _ _ _ (Unscan_eq p1)).
  rewrite (bind_eq _ _ _ _ _ (SIW_rescan _ _ _ _ _ _ Hs Hwf f)). cbn beta iota.
  destruct (ParseInt lit); try reflexivity; destruct (ParseUint lit); reflexivity.
Qed.

Lemma parseUnaryExpr_minus_integer f p pos0 lit0 p1 pos lit p2 :
  wf p ->
  parser.ScanIgnoreWhitespace H (S (S f)) p = Ok ((pos0, token.SUB, lit0), p1) ->
  parser.ScanIgnoreWhitespace H (S (S f)) p1 = Ok ((pos, token.INTEGER, lit), p2) ->
  parser.parseUnaryExpr H (S (S (S f))) p
  = parser.bind H (parser.parseUnaryExpr H (S (S f))) (parser.applySign H token.SUB (-1))
      (unscanned p2).
Proof.
  intros Hwf Hs Hs2. cbn [parser.parseUnaryExpr].
  rewrite (bind_eq _ _ _ _ _ Hs). cbn beta iota.
  change (token.eqb token.SUB token.LPAREN) with false. cbn iota.
  rewrite (bind_eq _ _ _ _ _ (Unscan_eq p1)).
  rewrite (bind_eq _ _ _ _ _ (SIW_rescan _ _ _ _ _ _ Hs Hwf (S f))). cbn beta iota.
  rewrite (bind_eq _ _ _ _ _ Hs2). cbn beta iota.
  rewrite (bind_eq _ _ _ _ _ (Unscan_eq p2)).
  reflexivity.
Qed.


Lemma wf_unscanned p : wf p -> wf (unscanned p).
Proof. unfold wf, unscanned. cbn. lia. Qed.

(** C8, amended (integer literals beyond [int64]).  A literal written as
    digits whose value [v] exceeds [math.MaxInt64] parses as
    [UnsignedLiteral v] as long as [v] fits in a [uint64], and is the
    parse error "unable to parse integer" beyond that.  Under a unary
    minus, the literal of value [math.MaxInt64 + 1] gives
    [IntegerLiteral math.MinInt64], and every larger [uint64] literal
    gives the error "constant -v underflows int64". *)
Theorem C8_integer_literal_above_int64 (lit : string) (v : Z) :
  lit <> EmptyString -> parse_digits lit 0 = Some v -> MaxInt64 < v ->
  (forall f p pos p1,
      wf p ->
      parser.ScanIgnoreWhitespace H (S f) p = Ok ((pos, token.INTEGER, lit), p1) ->
      (v <= MaxUint64 ->
       parser.parseUnaryExpr H (S (S f)) p = Ok (ast.UnsignedLiteral H v, p1))
      /\ (MaxUint64 < v ->
          parser.parseUnaryExpr H (S (S f)) p
          = Err (parser.ParseError "unable to parse integer" EmptyString [] pos)))
  /\ (forall f p pos0 lit0 p1 pos p2,
        wf p ->
        parser.ScanIgnoreWhitespace H (S (S f)) p = Ok ((pos0, token.SUB, lit0), p1) ->
        parser.ScanIgnoreWhitespace H (S (S f)) p1 = Ok ((pos, token.INTEGER, lit), p2) ->
        (v = MaxInt64 + 1 ->
         parser.parseUnaryExpr H (S (S (S f))) p = Ok (ast.IntegerLiteral H MinInt64, p2))
        /\ (MaxInt64 + 1 < v -> v <= MaxUint64 ->
            parser.parseUnaryExpr H (S (S (S f))) p
            = Err (parser.errorString
                     ("constant -" +:+ FormatUint v +:+ " underflows int64")))).
Proof.
  intros Hne Hp Hv.
  destruct (ParseInt_digits _ _ Hne Hp) as (EI & _ & _).
  pose proof (ParseUint_digits _ _ Hne Hp) as EU.
  assert (Hgt : (v <=? MaxInt64) = false) by (apply Z.leb_gt; exact Hv).
  rewrite Hgt in EI.
  assert (Hint : forall f p pos p1,
             wf p ->
             parser.ScanIgnoreWhitespace H (S f) p = Ok ((pos, token.INTEGER, lit), p1) ->
             parser.parseUnaryExpr H (S (S f)) p
             = if v <=? MaxUint64 then Ok (ast.UnsignedLiteral H v, p1)
               else Err (parser.ParseError "unable to parse integer" EmptyString [] pos)).
  { intros f p pos p1 Hwf Hs. rewrite (parseUnaryExpr_integer _ _ _ _ _ Hwf Hs).
    rewrite EI, EU. destruct (v <=? MaxUint64); reflexivity. }
  split.
  - intros f p pos p1 Hwf Hs. rewrite (Hint _ _ _ _ Hwf Hs). split; intros Hle.
    + apply Z.leb_le in Hle. rewrite Hle. reflexivity.
    + apply Z.leb_gt in Hle. rewrite Hle. reflexivity.
  - intros f p pos0 lit0 p1 pos p2 Hwf Hs Hs2.
    rewrite (parseUnaryExpr_minus_integer _ _ _ _ _ _ _ _ Hwf Hs Hs2).
    destruct (SIW_inv _ _ _ _ _ _ Hs Hwf) as (Hwf1 & _).
    destruct (SIW_inv _ _ _ _ _ _ Hs2 Hwf1) as (Hwf2 & _).
    pose proof (SIW_rescan _ _ _ _ _ _ Hs2 Hwf1 f) as Hre.
    pose proof (Hint _ _ _ _ (wf_unscanned _ Hwf2) Hre) as Hu.
    split.
    + intros ->. rewrite (bind_eq _ _ _ _ _ Hu). reflexivity.
    + intros Hlo Hhi. apply Z.leb_le in Hhi. rewrite Hhi in Hu.
      rewrite (bind_eq _ _ _ _ _ Hu). cbn [parser.applySign].
      change (token.eqb token.SUB token.SUB) with true. cbn iota.
      assert (E : (v =? 2 ^ 63) = false).
      { apply Z.eqb_neq. unfold MaxInt64 in Hlo. lia. }
      rewrite E. reflexivity.
Qed.


(** ** Raw queries: [IsRawQuery] and the calls in the fields *)

Abbreviation Expr := (ast.Expr H).

(** An induction principle for expressions that reaches the arguments
    of a call. *)
Definition is_leaf (e : Expr) : Prop :=
  match e with
  | ast.BinaryExpr _ _ _ _ | ast.Call _ _ _ | ast.ParenExpr _ _ => False
  | _ => True
  end.

Lemma Expr_nested_ind (P : Expr -> Prop)
  (Hbin : forall op l r, P l -> P r -> P (ast.BinaryExpr H op l r))
  (Hcall : forall name args, Forall P args -> P (ast.Call H name args))
  (Hparen : forall e, P e -> P (ast.ParenExpr H e))
  (Hleaf : forall e, is_leaf e -> P e) :
  forall e, P e.
Proof.
  fix IH 1. intros e. destruct e as [op l r|name args| | e'| | | | | | | | | | | | | ];
    try (apply Hleaf; exact I).
  - apply Hbin; apply IH.
  - apply Hcall. induction args as [|a args IHargs]; constructor.
    + apply IH.
    + exact IHargs.
  - apply Hparen. apply IH.
Qed.

(** [a] occurs in [e], through binary expressions, parentheses and the
    arguments of calls. *)
Inductive occurs_in (a : Expr) : Expr -> Prop :=
| occurs_here : occurs_in a a
| occurs_lhs op l r : occurs_in a l -> occurs_in a (ast.BinaryExpr H op l r)
| occurs_rhs op l r : occurs_in a r -> occurs_in a (ast.BinaryExpr H op l r)
| occurs_paren e : occurs_in a e -> occurs_in a (ast.ParenExpr H e)
| occurs_arg name args x :
    In x args -> occurs_in a x -> occurs_in a (ast.Call H name args).

Definition call_occurs_in (e : Expr) : Prop :=
  exists name args, occurs_in (ast.Call H name args) e.

Fixpoint has_call (e : Expr) : bool :=
  match e with
  | ast.BinaryExpr _ _ l r => has_call l || has_call r
  | ast.Call _ _ _ => true
  | ast.ParenExpr _ e' => has_call e'
  | _ => false
  end.

Lemma has_call_occurs e : has_call e = true <-> call_occurs_in e.
Proof.
  split.
  - induction e as [op l r IHl IHr|name args _|e' IHe|e Hl] using Expr_nested_ind.
    + cbn [has_call]. intros Hc. apply orb_prop in Hc as [Hc|Hc].
      * destruct (IHl Hc) as (n & a & Ho). exists n, a. apply occurs_lhs. exact Ho.
      * destruct (IHr Hc) as (n & a & Ho). exists n, a. apply occurs_rhs. exact Ho.
    + intros _. exists name, args. apply occurs_here.
    + cbn [has_call]. intros Hc. destruct (IHe Hc) as (n & a & Ho).
      exists n, a. apply occurs_paren. exact Ho.
    + destruct e; try contradiction; discriminate.
  - intros (n & a & Ho).
    induction Ho as [|op l r _ IH|op l r _ IH|e' _ IH|name args x _ _ _]; cbn [has_call].
    + reflexivity.
    + rewrite IH. reflexivity.
    + rewrite IH. apply orb_true_r.
    + exact IH.
    + reflexivity.
Qed.

Definition rawVisitor (n : ast.Node H) (st : bool) : bool * bool :=
  (parser.clearOnCall H n st, true).

Lemma WalkExpr_cleared e : ast.WalkExpr H rawVisitor e false = false.
Proof.
  induction e as [op l r IHl IHr|name args IHargs|e' IHe|e Hl] using Expr_nested_ind;
    cbn [ast.WalkExpr rawVisitor parser.clearOnCall fst snd].
  - rewrite IHl. exact IHr.
  - induction IHargs as [|a args Ha _ IH]; cbn [fold_left]; [reflexivity|].
    rewrite Ha. exact IH.
  - exact IHe.
  - destruct e; try contradiction; reflexivity.
Qed.

Lemma WalkExpr_raw e : forall st,
  ast.WalkExpr H rawVisitor e st = st && negb (has_call e).
Proof.
  induction e as [op l r IHl IHr|name args _|e' IHe|e Hl] using Expr_nested_ind;
    intros st; cbn [ast.WalkExpr rawVisitor parser.clearOnCall fst snd has_call].
  - rewrite IHl, IHr. rewrite negb_orb. symmetry. apply andb_assoc.
  - cbn [negb]. rewrite andb_false_r.
    induction args as [|a args IH]; cbn [fold_left]; [reflexivity|].
    rewrite WalkExpr_cleared. exact IH.
  - apply IHe.
  - destruct e; try contradiction; cbn [negb]; rewrite andb_true_r; reflexivity.
Qed.

Lemma WalkFields_raw fields :
  ast.WalkFunc H (ast.NodeFields H fields) (parser.clearOnCall H) true
  = forallb (fun f => negb (has_call (ast.f_Expr H f))) fields.
Proof.
  unfold ast.WalkFunc, ast.Walk, ast.WalkFields. fold rawVisitor.
  cbn [rawVisitor parser.clearOnCall fst snd].
  assert (G : forall st,
             fold_left (fun acc f => ast.WalkField H rawVisitor f acc) fields st
             = st && forallb (fun f => negb (has_call (ast.f_Expr H f))) fields).
  { induction fields as [|f fields IH]; intros st; cbn [fold_left forallb].
    - symmetry. apply andb_true_r.
    - rewrite IH. unfold ast.WalkField. cbn [rawVisitor parser.clearOnCall fst snd].
      rewrite WalkExpr_raw. rewrite andb_assoc. reflexivity. }
  rewrite G. reflexivity.
Qed.

Lemma parseSelectStatement_IsRawQuery fuel tr p stmt p' :
  parser.parseSelectStatement H fuel tr p = Ok (stmt, p') ->
  ast.IsRawQuery _ _ stmt
  = forallb (fun f => negb (has_call (ast.f_Expr H f))) (ast.Fields _ _ stmt).
Proof.
  destruct fuel as [|f]; [discriminate|]. intros Hp.
  cbn [parser.parseSelectStatement] in Hp.
  inv_bind Hp. inv_bind Hp. inv_bind Hp. destruct a1 as [[pos tok] lit].
  destruct (negb (token.eqb tok token.FROM)); [discriminate|].
  inv_bind Hp. inv_bind Hp. inv_bind Hp. inv_bind Hp. inv_bind Hp.
  inv_bind Hp. inv_bind Hp. inv_bind Hp. inv_bind Hp. inv_bind Hp.
  injection Hp as <- <-. cbn [ast.IsRawQuery ast.Fields].
  apply WalkFields_raw.
Qed.

(** C3 (raw queries).  In every statement that [parseSelectStatement]
    returns, [IsRawQuery] is true exactly when no [Call] occurs in the
    expression of any field, where a call may occur at the top, inside a
    binary expression, inside parentheses or among the arguments of
    another call. *)
Theorem C3_IsRawQuery_iff_no_call fuel tr p stmt p' :
  parser.parseSelectStatement H fuel tr p = Ok (stmt, p') ->
  ast.IsRawQuery _ _ stmt = true
  <-> (forall f, In f (ast.Fields _ _ stmt) -> ~ call_occurs_in (ast.f_Expr H f)).
Proof.
  intros Hp. rewrite (parseSelectStatement_IsRawQuery _ _ _ _ _ Hp).
  rewrite forallb_forall. split.
  - intros Hall f Hin Hc. apply has_call_occurs in Hc.
    specialize (Hall f Hin). rewrite Hc in Hall. discriminate.
  - intros Hno f Hin. destruct (has_call (ast.f_Expr H f)) eqn:E; [|reflexivity].
    exfalso. apply (Hno f Hin). apply has_call_occurs. exact E.
Qed.


(** ** Sources: segmented identifiers and a trailing regex *)

Lemma parseSegmentedIdents_loop_length f : forall idents p res p',
  parser.parseSegmentedIdents_loop H f idents p = Ok (res, p') ->
  (length idents <= length res)%nat.
Proof.
  induction f as [|f IH]; intros idents p res p'; [discriminate|].
  cbn [parser.parseSegmentedIdents_loop]. intros Hp.
  inv_bind Hp. destruct a as [[pos tok] lit].
  destruct (negb (token.eqb tok token.DOT)).
  - inv_bind Hp. injection Hp as <- <-. lia.
  - inv_bind Hp.
    destruct (a =? rc "/"); [injection Hp as <- <-; lia|].
    destruct (a =? rc ":"); [injection Hp as <- <-; lia|].
    destruct (a =? rc ".").
    + apply IH in Hp. rewrite length_app in Hp. cbn in Hp. lia.
    + inv_bind Hp. apply IH in Hp. rewrite length_app in Hp. cbn in Hp. lia.
Qed.

(** [parseSegmentedIdents] returns one, two or three segments. *)
Lemma parseSegmentedIdents_length f p idents p' :
  parser.parseSegmentedIdents H f p = Ok (idents, p') ->
  (1 <= length idents <= 3)%nat.
Proof.
  unfold parser.parseSegmentedIdents. intros Hp.
  inv_bind Hp. inv_bind Hp.
  apply parseSegmentedIdents_loop_length in Hc0. cbn [length] in Hc0.
  destruct (3 <? Z.of_nat (length a0)) eqn:E; [discriminate|].
  injection Hp as <- <-. apply Z.ltb_ge in E. lia.
Qed.

(** What [parseSource] does between its first look for a regex and the
    segmented identifiers: with subqueries allowed it reads a token,
    which is not a left parenthesis here, and puts it back. *)
Definition not_a_subquery (f : nat) (subqueries : bool) (p0 p1 : Parser) : Prop :=
  (subqueries = false /\ p1 = p0)
  \/ (subqueries = true
      /\ exists pos tok lit q,
          parser.ScanIgnoreWhitespace H f p0 = Ok ((pos, tok, lit), q)
          /\ tok <> token.LPAREN /\ p1 = unscanned q).

Definition metric (database ttl name : string) (re : option ast.RegexLiteralT)
  : ast.Source H :=
  ast.SrcMetric H (ast.mkMetric database ttl name re false EmptyString).

(** C7 (identifiers of a FROM source).  For a source that does not start
    with a regex and is not a subquery, [parseSegmentedIdents] yields one
    to three segments; three segments are Database, TimeToLive and Name
    and no regex is looked for after them; with fewer, a trailing regex
    is looked for and one segment alone is the Name, one segment and a
    regex are TimeToLive and Regex, two segments alone are TimeToLive and
    Name, two segments and a regex are Database, TimeToLive and Regex. *)
Theorem C7_source_identifiers f subqueries p p0 p1 idents p2 :
  parser.parseRegex H f p = Ok (None, p0) ->
  not_a_subquery f subqueries p0 p1 ->
  parser.parseSegmentedIdents H f p1 = Ok (idents, p2) ->
  (1 <= length idents <= 3)%nat
  /\ (forall a b c,
        idents = [a; b; c] ->
        parser.parseSource H (S f) subqueries p = Ok (metric a b c None, p2))
  /\ (forall re p3,
        parser.parseRegex H f p2 = Ok (re, p3) ->
        (forall a, idents = [a] -> re = None ->
           parser.parseSource H (S f) subqueries p
           = Ok (metric EmptyString EmptyString a None, p3))
        /\ (forall a r, idents = [a] -> re = Some r ->
              parser.parseSource H (S f) subqueries p
              = Ok (metric EmptyString a EmptyString (Some r), p3))
        /\ (forall a b, idents = [a; b] -> re = None ->
              parser.parseSource H (S f) subqueries p
              = Ok (metric EmptyString a b None, p3))
        /\ (forall a b r, idents = [a; b] -> re = Some r ->
              parser.parseSource H (S f) subqueries p
              = Ok (metric a b EmptyString (Some r), p3))).
Proof.
  intros Hre Hsub Hids.
  split; [exact (parseSegmentedIdents_length _ _ _ _ Hids)|].
  assert (E : parser.parseSource H (S f) subqueries p
              = match idents with
                | [a; b; c] => Ok (metric a b c None, p2)
                | _ =>
                  parser.bind H (parser.parseRegex H f)
                    (fun re => parser.ret H (ast.SrcMetric H (parser.assignSource idents re)))
                    p2
                end).
  { cbn [parser.parseSource]. rewrite (bind_eq _ _ _ _ _ Hre). cbn iota.
    destruct Hsub as [[-> ->]|(-> & pos & tok & lit & q & Hs & Hne & ->)].
    - unfold parser.bind at 1. unfold parser.ret at 1.
      rewrite (bind_eq _ _ _ _ _ Hids).
      destruct idents as [|a [|b [|c [|d rest]]]]; reflexivity.
    - unfold parser.bind at 1.
      rewrite (bind_eq _ _ _ _ _ Hs). cbn beta iota.
      apply token.eqb_neq in Hne. rewrite Hne.
      rewrite (bind_eq _ _ _ _ _ (Unscan_eq q)). unfold parser.ret at 1.
      rewrite (bind_eq _ _ _ _ _ Hids).
      destruct idents as [|a [|b [|c [|d rest]]]]; reflexivity. }
  split.
  - intros a b c ->. exact E.
  - intros re p3 Hre2.
    repeat split; intros; subst idents re; rewrite E;
      rewrite (bind_eq _ _ _ _ _ Hre2); reflexivity.
Qed.


(** ** Expressions: the shape that precedence climbing builds *)

(** The precedence of the operator at the root, for a binary
    expression. *)
Definition rootPrec (e : Expr) : option Z :=
  match e with
  | ast.BinaryExpr _ o _ _ => Some (token.Precedence o)
  | _ => None
  end.

(** What a sign before a variable, a call or a parenthesis is turned
    into: the product of 1 or -1 and the operand. *)
Definition sign_product (e : Expr) : Prop :=
  match e with
  | ast.BinaryExpr _ token.MUL (ast.IntegerLiteral _ _) x => rootPrec x = None
  | _ => False
  end.

(** The operands of binary operators: values of [parseUnaryExpr]. *)
Definition operand (e : Expr) : Prop := rootPrec e = None \/ sign_product e.

(** Every binary node binds no tighter than its children: the operator
    of a left child has at least the precedence of the node, the
    operator of a right child a higher one, unless the right child is
    the product made for a sign. *)
Fixpoint climbed (e : Expr) : Prop :=
  match e with
  | ast.BinaryExpr _ o l r =>
    (forall q, rootPrec l = Some q -> token.Precedence o <= q)
    /\ (forall q, rootPrec r = Some q -> token.Precedence o < q \/ sign_product r)
    /\ climbed l /\ climbed r
  | ast.ParenExpr _ e' => climbed e'
  | ast.Call _ _ args =>
    (fix all (l : list Expr) : Prop :=
       match l with
       | [] => True
       | a :: t => climbed a /\ all t
       end) args
  | _ => True
  end.

Lemma climbed_call name args : climbed (ast.Call H name args) <-> Forall climbed args.
Proof.
  cbn [climbed]. induction args as [|a args IH].
  - split; [constructor | trivial].
  - split.
    + intros [Ha Hr]. constructor; [exact Ha | apply IH; exact Hr].
    + intros Hall. inversion Hall; subst. split; [assumption | apply IH; assumption].
Qed.

Lemma Precedence_le_5 t : token.Precedence t <= 5.
Proof. destruct t; cbn; lia. Qed.

Lemma sign_product_prec e : sign_product e -> rootPrec e = Some 5.
Proof.
  destruct e as [o l r| | | | | | | | | | | | | | | | ]; try contradiction.
  destruct o; try contradiction. reflexivity.
Qed.

Lemma operand_prec e q : operand e -> rootPrec e = Some q -> q = 5.
Proof.
  intros [Hn|Hs] Hq.
  - congruence.
  - apply sign_product_prec in Hs. congruence.
Qed.

(** Putting one more operator and operand into a climbed tree. *)
Lemma addBinaryExpr_climbed op rhs :
  operand rhs -> climbed rhs ->
  forall e, climbed e ->
    climbed (parser.addBinaryExpr H e op rhs)
    /\ (forall q, rootPrec (parser.addBinaryExpr H e op rhs) = Some q ->
          q = token.Precedence op \/ (rootPrec e = Some q /\ q < token.Precedence op)).
Proof.
  intros Hop Hcr.
  assert (Hwrap : forall e,
             climbed e -> (forall q, rootPrec e = Some q -> token.Precedence op <= q) ->
             climbed (ast.BinaryExpr H op e rhs)).
  { intros e He Hroot. cbn [climbed]. repeat split; try assumption.
    intros q Hq. destruct Hop as [Hn|Hs]; [congruence | right; exact Hs]. }
  induction e as [o l IHl r IHr| | | | | | | | | | | | | | | | ]; intros He;
    try (split; [apply Hwrap; [exact He | discriminate] | intros q [= <-]; left; reflexivity]).
  cbn [parser.addBinaryExpr].
  destruct (token.Precedence op <=? token.Precedence o) eqn:E.
  - apply Z.leb_le in E. split.
    + apply Hwrap; [exact He|]. intros q [= <-]. exact E.
    + intros q [= <-]. left. reflexivity.
  - apply Z.leb_gt in E. cbn [climbed] in He. destruct He as (Hl & Hr & Hcl & Hcrr).
    destruct (IHr Hcrr) as [IH1 IH2]. split.
    + cbn [climbed]. repeat split; try assumption.
      intros q Hq. destruct (IH2 q Hq) as [->|[Hq' Hlt]]; [left; exact E|].
      destruct (Hr q Hq') as [Hlt'|Hs]; [left; exact Hlt'|].
      apply sign_product_prec in Hs. rewrite Hs in Hq'. injection Hq' as <-.
      pose proof (Precedence_le_5 op). lia.
    + intros q [= <-]. right. split; [reflexivity | exact E].
Qed.

(** The tree after a sequence of operators and operands, and the tree
    that nests every operator to the left. *)
Definition climb (first : Expr) (rest : list (token.Token * Expr)) : Expr :=
  fold_left (fun acc it => parser.addBinaryExpr H acc (fst it) (snd it)) rest first.

Definition leftNested (first : Expr) (rest : list (token.Token * Expr)) : Expr :=
  fold_left (fun acc it => ast.BinaryExpr H (fst it) acc (snd it)) rest first.

Lemma climb_same_precedence q : forall rest first,
  (forall q', rootPrec first = Some q' -> q <= q') ->
  (forall it, In it rest -> token.Precedence (fst it) = q) ->
  climb first rest = leftNested first rest.
Proof.
  induction rest as [|[op x] rest IH]; intros first Hroot Hall; [reflexivity|].
  unfold climb, leftNested. cbn [fold_left fst snd].
  assert (Hop : token.Precedence op = q) by (apply (Hall (op, x)); left; reflexivity).
  assert (E : parser.addBinaryExpr H first op x = ast.BinaryExpr H op first x).
  { destruct first as [o l r| | | | | | | | | | | | | | | | ]; try reflexivity.
    cbn [parser.addBinaryExpr].
    assert (Hle : token.Precedence op <= token.Precedence o)
      by (rewrite Hop; apply Hroot; reflexivity).
    apply Z.leb_le in Hle. rewrite Hle. reflexivity. }
  rewrite E. apply IH.
  - intros q' [= <-]. lia.
  - intros it Hin. apply Hall. right. exact Hin.
Qed.

Lemma climb_higher_precedence a o1 b o2 c :
  operand a -> operand b -> token.Precedence o1 < token.Precedence o2 ->
  climb a [(o1, b); (o2, c)] = ast.BinaryExpr H o1 a (ast.BinaryExpr H o2 b c).
Proof.
  intros Ha Hb Hlt. unfold climb. cbn [fold_left fst snd].
  assert (Ewrap : forall e op x, operand e ->
             parser.addBinaryExpr H e op x = ast.BinaryExpr H op e x).
  { intros e op x He. destruct e as [o l r| | | | | | | | | | | | | | | | ]; try reflexivity.
    cbn [parser.addBinaryExpr].
    pose proof (operand_prec _ _ He eq_refl) as E5. pose proof (Precedence_le_5 op) as L.
    assert (Hle : token.Precedence op <= token.Precedence o) by lia.
    apply Z.leb_le in Hle. rewrite Hle. reflexivity. }
  rewrite (Ewrap a o1 b Ha). cbn [parser.addBinaryExpr].
  assert (E : (token.Precedence o2 <=? token.Precedence o1) = false)
    by (apply Z.leb_gt; exact Hlt).
  rewrite E. rewrite (Ewrap b o2 c Hb). reflexivity.
Qed.


Lemma ParseVarRef_shape f p e p' :
  parser.ParseVarRef H f p = Ok (e, p') -> exists v t, e = ast.VarRef H v t.
Proof.
  unfold parser.ParseVarRef. intros Hp. inv_bind Hp. inv_bind Hp.
  injection Hp as <- <-. eauto.
Qed.

Lemma applySign_shape tok mul lit p e p' :
  operand lit -> climbed lit ->
  parser.applySign H tok mul lit p = Ok (e, p') -> operand e /\ climbed e.
Proof.
  intros Hop Hcl.
  destruct lit as [o l r|name args|v|e'|v t|t| | | | | | | | | | | ];
    cbn [parser.applySign]; try discriminate;
    try (intros [= <- <-]; split; [left; reflexivity | exact I]).
  - intros [= <- <-]. split; [right; reflexivity|].
    cbn [climbed]. repeat split; try discriminate. exact Hcl.
  - intros [= <- <-]. split; [right; reflexivity|].
    cbn [climbed]. repeat split; try discriminate. exact Hcl.
  - intros [= <- <-]. split; [right; reflexivity|].
    cbn [climbed]. repeat split; try discriminate.
  - destruct (token.eqb tok token.SUB).
    + destruct (Val =? 2 ^ 63); [|discriminate].
      intros [= <- <-]. split; [left; reflexivity | exact I].
    + intros [= <- <-]. split; [left; reflexivity | exact I].
Qed.


(** What the expression parsers return, by induction on the fuel. *)
Definition shapes (f : nat) : Prop :=
  (forall p e p', parser.ParseExpr H f p = Ok (e, p') -> climbed e)
  /\ (forall root p e p', climbed root ->
        parser.ParseExpr_loop H f root p = Ok (e, p') -> climbed e)
  /\ (forall p e p', parser.parseUnaryExpr H f p = Ok (e, p') -> operand e /\ climbed e)
  /\ (forall name p e p', parser.parseCall H f name p = Ok (e, p') ->
        rootPrec e = None /\ climbed e)
  /\ (forall name args p e p', Forall climbed args ->
        parser.parseCall_args H f name args p = Ok (e, p') ->
        rootPrec e = None /\ climbed e).

Lemma Forall_climbed_snoc args x :
  Forall climbed args -> climbed x -> Forall climbed (args ++ [x]).
Proof. intros Ha Hx. apply Forall_app. split; [exact Ha | constructor; [exact Hx | constructor]]. Qed.

Ltac leaf_shape Hp :=
  injection Hp as <- <-; split; [left; reflexivity | exact I].

Lemma parseUnaryExpr_shape f :
  shapes f ->
  forall p e p', parser.parseUnaryExpr H (S f) p = Ok (e, p') -> operand e /\ climbed e.
Proof.
  intros (IH1 & IH2 & IH3 & IH4 & IH5) p e p' Hp.
  cbn [parser.parseUnaryExpr] in Hp.
  inv_bind Hp. destruct a as [[pos0 tok0] lit0].
  destruct (token.eqb tok0 token.LPAREN).
  - inv_bind Hp. inv_bind Hp. destruct a0 as [[pos1 tok1] lit1].
    destruct (negb (token.eqb tok1 token.RPAREN)); [discriminate|].
    injection Hp as <- <-. split; [left; reflexivity|]. cbn [climbed]. eauto.
  - inv_bind Hp. inv_bind Hp. destruct a0 as [[pos tok] lit].
    destruct tok; try discriminate Hp.
    + (* IDENT *)
      inv_bind Hp. destruct a0 as [[pos1 tok1] lit1].
      destruct (token.eqb tok1 token.LPAREN).
      * destruct (IH4 _ _ _ _ Hp) as [Hn Hk]. split; [left; exact Hn | exact Hk].
      * inv_bind Hp. inv_bind Hp. apply ParseVarRef_shape in Hp as (v & t & ->).
        split; [left; reflexivity | exact I].
    + (* NUMBER *)
      destruct (ParseFloat H lit); [|discriminate]. leaf_shape Hp.
    + (* INTEGER *)
      destruct (ParseInt lit); [leaf_shape Hp | |];
        (destruct (ParseUint lit); [leaf_shape Hp | discriminate | discriminate]).
    + (* DURATIONVAL *)
      destruct (parser.ParseDuration lit); [discriminate|]. leaf_shape Hp.
    + (* STRING *) leaf_shape Hp.
    + (* TRUE *) leaf_shape Hp.
    + (* FALSE *) leaf_shape Hp.
    + (* REGEX *)
      destruct (regexp_Compile_error H lit); [discriminate|]. leaf_shape Hp.
    + (* ADD *)
      inv_bind Hp. destruct a0 as [[pos1 tok1] lit1].
      destruct tok1; try discriminate Hp;
        (inv_bind Hp; inv_bind_as Hp Hu;
         destruct (IH3 _ _ _ Hu) as [Ho Hcl];
         exact (applySign_shape _ _ _ _ _ _ Ho Hcl Hp)).
    + (* SUB *)
      inv_bind Hp. destruct a0 as [[pos1 tok1] lit1].
      destruct tok1; try discriminate Hp;
        (inv_bind Hp; inv_bind_as Hp Hu;
         destruct (IH3 _ _ _ Hu) as [Ho Hcl];
         exact (applySign_shape _ _ _ _ _ _ Ho Hcl Hp)).
    + (* MUL *)
      inv_bind Hp. destruct a0 as [[pos1 tok1] lit1].
      destruct (token.eqb tok1 token.DOUBLECOLON).
      * inv_bind Hp. destruct a0 as [[pos2 tok2] lit2].
        destruct tok2; try discriminate Hp; leaf_shape Hp.
      * inv_bind Hp. leaf_shape Hp.
    + (* DISTINCT *)
      inv_bind Hp. destruct a0 as [[pos1 tok1] lit1].
      destruct (token.eqb tok1 token.LPAREN).
      * destruct (IH4 _ _ _ _ Hp) as [Hn Hk]. split; [left; exact Hn | exact Hk].
      * destruct (token.eqb tok1 token.WS); [|discriminate].
        inv_bind Hp. destruct a0 as [[pos2 tok2] lit2].
        destruct (negb (token.eqb tok2 token.IDENT)); [discriminate|]. leaf_shape Hp.
Qed.


Lemma Forall_climbed_one x : climbed x -> Forall climbed [x].
Proof. intros Hx. constructor; [exact Hx | constructor]. Qed.

Lemma regex_operand r :
  operand (ast.RegexLiteral H r) /\ climbed (ast.RegexLiteral H r).
Proof. split; [left; reflexivity | exact I]. Qed.

(** One round of the loop of [ParseExpr]: the operator and its right
    operand, or the end of the expression. *)
Lemma ParseExpr_loop_step f root p e p' :
  (forall q x q', parser.parseUnaryExpr H f q = Ok (x, q') -> operand x /\ climbed x) ->
  parser.ParseExpr_loop H (S f) root p = Ok (e, p') ->
  e = root
  \/ exists op rhs p1,
      token.IsOperator op = true /\ operand rhs /\ climbed rhs
      /\ parser.ParseExpr_loop H f (parser.addBinaryExpr H root op rhs) p1 = Ok (e, p').
Proof.
  intros IH3 Hp. cbn [parser.ParseExpr_loop] in Hp.
  inv_bind Hp. destruct a as [[pos op] lit].
  destruct (token.IsOperator op) eqn:Eop; cbn [negb] in Hp.
  - right. inv_bind_as Hp Hrhs.
    assert (Hgood : operand a /\ climbed a).
    { destruct (token.IsRegexOp op).
      - inv_bind Hrhs. destruct a0 as [r|].
        + injection Hrhs as <- <-. apply regex_operand.
        + inv_bind Hrhs. destruct a0 as [[pos1 tok1] lit1]. discriminate.
      - exact (IH3 _ _ _ Hrhs). }
    destruct Hgood as [Ho Hcl]. exists op, a, p1. repeat split; assumption.
  - left. inv_bind Hp. injection Hp as <- <-. reflexivity.
Qed.

Lemma shapes_all f : shapes f.
Proof.
  induction f as [|f IH].
  - repeat split; intros; discriminate.
  - pose proof IH as (IH1 & IH2 & IH3 & IH4 & IH5).
    split; [|split; [|split; [|split]]].
    + (* ParseExpr *)
      intros p e p' Hp. cbn [parser.ParseExpr] in Hp. inv_bind_as Hp Hu.
      destruct (IH3 _ _ _ Hu) as [_ Hcl]. exact (IH2 _ _ _ _ Hcl Hp).
    + (* the loop *)
      intros root p e p' Hroot Hp.
      destruct (ParseExpr_loop_step _ _ _ _ _ IH3 Hp)
        as [->|(op & rhs & p1 & _ & Ho & Hcl & Hl)]; [exact Hroot|].
      apply (IH2 _ _ _ _ (proj1 (addBinaryExpr_climbed op rhs Ho Hcl root Hroot)) Hl).
    + (* parseUnaryExpr *)
      exact (parseUnaryExpr_shape f IH).
    + (* parseCall *)
      intros name p e p' Hp. cbn [parser.parseCall] in Hp.
      inv_bind Hp. destruct a as [r|].
      * apply (IH5 _ _ _ _ _ (Forall_climbed_one _ (proj2 (regex_operand r))) Hp).
      * inv_bind Hp. destruct a as [[pos tok] lit].
        destruct (token.eqb tok token.RPAREN).
        -- injection Hp as <- <-. split; [reflexivity | exact I].
        -- inv_bind Hp. inv_bind_as Hp Harg.
           apply (IH5 _ _ _ _ _ (Forall_climbed_one _ (IH1 _ _ _ Harg)) Hp).
    + (* further arguments *)
      intros name args p e p' Hargs Hp. cbn [parser.parseCall_args] in Hp.
      inv_bind Hp. destruct a as [[pos tok] lit].
      destruct (negb (token.eqb tok token.COMMA)).
      * inv_bind Hp. inv_bind Hp. destruct a0 as [[pos1 tok1] lit1].
        destruct (negb (token.eqb tok1 token.RPAREN)); [discriminate|].
        injection Hp as <- <-. split; [reflexivity | apply climbed_call; exact Hargs].
      * inv_bind Hp. destruct a as [r|].
        -- apply (IH5 _ _ _ _ _
                    (Forall_climbed_snoc _ _ Hargs (proj2 (regex_operand r))) Hp).
        -- inv_bind_as Hp Harg.
           apply (IH5 _ _ _ _ _ (Forall_climbed_snoc _ _ Hargs (IH1 _ _ _ Harg)) Hp).
Qed.

(** An operator of the expression with its right operand. *)
Definition item_ok (it : token.Token * Expr) : Prop :=
  token.IsOperator (fst it) = true /\ operand (snd it) /\ climbed (snd it).

(** What the loop of [ParseExpr] reads from a parser state: the
    operators, each with the right operand parsed after it (a regular
    expression after [=~] and [!~], a unary expression after any other
    operator), up to the first token that is no operator, which is
    pushed back. *)
Inductive operators_read : nat -> Parser -> list (token.Token * Expr) -> Parser -> Prop :=
| read_end f p pos tok lit p1 :
    parser.ScanIgnoreWhitespace H f p = Ok ((pos, tok, lit), p1) ->
    token.IsOperator tok = false ->
    operators_read (S f) p [] (unscanned p1)
| read_unary f p pos op lit p1 rhs p2 rest p' :
    parser.ScanIgnoreWhitespace H f p = Ok ((pos, op, lit), p1) ->
    token.IsOperator op = true -> token.IsRegexOp op = false ->
    parser.parseUnaryExpr H f p1 = Ok (rhs, p2) ->
    operators_read f p2 rest p' ->
    operators_read (S f) p ((op, rhs) :: rest) p'
| read_regex f p pos op lit p1 r p2 rest p' :
    parser.ScanIgnoreWhitespace H f p = Ok ((pos, op, lit), p1) ->
    token.IsOperator op = true -> token.IsRegexOp op = true ->
    parser.parseRegex H f p1 = Ok (Some r, p2) ->
    operators_read f p2 rest p' ->
    operators_read (S f) p ((op, ast.RegexLiteral H r) :: rest) p'.

(** The operators and operands read from a state are determined by
    it. *)
Lemma operators_read_unique f p rest p' :
  operators_read f p rest p' ->
  forall rest2 p2, operators_read f p rest2 p2 -> rest2 = rest /\ p2 = p'.
Proof.
  induction 1 as [f p pos tok lit p1 Hs Hop
                 |f p pos op lit p1 rhs p2 rest p' Hs Hop Hre Hu _ IH
                 |f p pos op lit p1 r p2 rest p' Hs Hop Hre Hr _ IH];
    intros rest2 q2 Hread; inversion Hread; subst;
    match goal with
    | Hs2 : parser.ScanIgnoreWhitespace H _ _ = _ |- _ =>
      rewrite Hs in Hs2; injection Hs2 as <- <- <- <-
    end; try congruence.
  - split; reflexivity.
  - match goal with
    | Hu2 : parser.parseUnaryExpr H _ _ = _ |- _ =>
      rewrite Hu in Hu2; injection Hu2 as <- <-
    end.
    match goal with
    | Hrest : operators_read _ _ _ _ |- _ => destruct (IH _ _ Hrest) as [-> ->]
    end.
    split; reflexivity.
  - match goal with
    | Hr2 : parser.parseRegex H _ _ = _ |- _ =>
      rewrite Hr in Hr2; injection Hr2 as <- <-
    end.
    match goal with
    | Hrest : operators_read _ _ _ _ |- _ => destruct (IH _ _ Hrest) as [-> ->]
    end.
    split; reflexivity.
Qed.

(** The loop returns the tree built from what it reads, and only
    that. *)
Lemma ParseExpr_loop_items f : forall root p e p',
  parser.ParseExpr_loop H f root p = Ok (e, p') ->
  exists rest, operators_read f p rest p' /\ Forall item_ok rest /\ e = climb root rest.
Proof.
  induction f as [|f IH]; intros root p e p' Hp; [discriminate|].
  cbn [parser.ParseExpr_loop] in Hp.
  apply bind_Ok in Hp as (tk & q1 & Hs & Hp). destruct tk as [[pos op] lit].
  destruct (token.IsOperator op) eqn:Eop; cbn [negb] in Hp.
  - apply bind_Ok in Hp as (rhs & q2 & Hrhs & Hp).
    destruct (IH _ _ _ _ Hp) as (rest & Hread & Hrest & ->).
    destruct (token.IsRegexOp op) eqn:Ere.
    + apply bind_Ok in Hrhs as (re & q3 & Hr & Hrhs). destruct re as [r|].
      * injection Hrhs as <- <-.
        exists ((op, ast.RegexLiteral H r) :: rest). split; [|split; [|reflexivity]].
        -- eapply read_regex; eassumption.
        -- constructor; [|exact Hrest]. split; [exact Eop|]. apply regex_operand.
      * apply bind_Ok in Hrhs as (tk1 & q4 & _ & Hrhs).
        destruct tk1 as [[pos1 tok1] lit1]. discriminate.
    + exists ((op, rhs) :: rest). split; [|split; [|reflexivity]].
      * eapply read_unary; eassumption.
      * constructor; [|exact Hrest]. split; [exact Eop|].
        exact (proj1 (proj2 (proj2 (shapes_all f))) _ _ _ Hrhs).
  - apply bind_Ok in Hp as (u & q2 & Hun & Hp). injection Hp as <- <-.
    exists []. split; [|split; [constructor|reflexivity]].
    rewrite Unscan_eq in Hun. assert (E : q2 = unscanned q1) by congruence. subst q2.
    eapply read_end; eassumption.
Qed.

Lemma operators_read_ParseExpr_loop f p rest p' :
  operators_read f p rest p' ->
  forall root, parser.ParseExpr_loop H f root p = Ok (climb root rest, p').
Proof.
  induction 1 as [f p pos tok lit p1 Hs Hop
                 |f p pos op lit p1 rhs p2 rest p' Hs Hop Hre Hu _ IH
                 |f p pos op lit p1 r p2 rest p' Hs Hop Hre Hr _ IH];
    intros root; cbn [parser.ParseExpr_loop];
    rewrite (bind_eq _ _ _ _ _ Hs); cbn beta iota; rewrite Hop; cbn [negb].
  - reflexivity.
  - rewrite Hre. rewrite (bind_eq _ _ _ _ _ Hu). apply IH.
  - rewrite Hre. unfold parser.bind at 1. unfold parser.bind at 1. rewrite Hr.
    cbn beta iota. apply IH.
Qed.

Lemma ParseExpr_items f p e p' :
  parser.ParseExpr H (S f) p = Ok (e, p') ->
  exists first p0 rest,
    parser.parseUnaryExpr H f p = Ok (first, p0)
    /\ operators_read f p0 rest p'
    /\ operand first /\ climbed first /\ Forall item_ok rest /\ e = climb first rest.
Proof.
  cbn [parser.ParseExpr]. intros Hp.
  apply bind_Ok in Hp as (first & p0 & Hu & Hp).
  destruct (proj1 (proj2 (proj2 (shapes_all f))) _ _ _ Hu) as [Ho Hcl].
  destruct (ParseExpr_loop_items _ _ _ _ _ Hp) as (rest & Hread & Hrest & ->).
  exists first, p0, rest. repeat split; assumption.
Qed.


(** Conversely, [ParseExpr] succeeds with the tree of what can be
    read. *)
Lemma ParseExpr_of_operators_read f p first p0 rest p' :
  parser.parseUnaryExpr H f p = Ok (first, p0) ->
  operators_read f p0 rest p' ->
  parser.ParseExpr H (S f) p = Ok (climb first rest, p').
Proof.
  intros Hu Hread. cbn [parser.ParseExpr]. rewrite (bind_eq _ _ _ _ _ Hu).
  apply operators_read_ParseExpr_loop. exact Hread.
Qed.

End ParserFacts.

(** ** The rune reader seen as a stream *)

Section ReaderFacts.

Context {H : Host}.

(** The newline normalisation of [read] applied to a whole input. *)
Fixpoint normalize (l : list rune) : list rune :=
  match l with
  | [] => []
  | c :: t =>
    if c =? 13 then
      match t with
      | c2 :: t2 => if c2 =? 10 then 10 :: normalize t2 else 10 :: normalize t
      | [] => [10]
      end
    else c :: normalize t
  end.

Lemma next_rune_normalize l c rest :
  normalize l = c :: rest ->
  exists l', scanner.next_rune l = (c, l') /\ normalize l' = rest.
Proof.
  destruct l as [|c0 t]; [discriminate|]. cbn [normalize scanner.next_rune].
  destruct (c0 =? 13).
  - destruct t as [|c2 t2].
    + intros [= <- <-]. exists []. split; reflexivity.
    + destruct (c2 =? 10); intros [= <- <-]; eexists; split; reflexivity.
  - intros [= <- <-]. eexists. split; reflexivity.
Qed.

Lemma normalize_length l : (length (normalize l) <= length l)%nat.
Proof.
  assert (G : forall n l, (length l <= n)%nat -> (length (normalize l) <= length l)%nat).
  { induction n as [|n IH]; intros [|c t] Hl; cbn [normalize length] in *; try lia.
    destruct (c =? 13).
    - destruct t as [|c2 t2]; cbn [length] in *; [lia|].
      destruct (c2 =? 10); cbn [length].
      + specialize (IH t2). lia.
      + specialize (IH (c2 :: t2)). cbn [length] in IH. lia.
    - cbn [length]. specialize (IH t). lia. }
  apply (G (length l)). lia.
Qed.

(** The rune that was read [k] reads ago. *)
Definition chAt (r : scanner.reader) (k : Z) : rune :=
  scanner.e_ch
    (nth (Z.to_nat (Z.rem (scanner.r_i r - k + 3) 3)) (scanner.r_buf r) scanner.zeroEntry).

(** The runes that the next reads deliver, before the end of input:
    the unread ones, then the normalised rest of the source. *)
Definition rview (r : scanner.reader) : list rune :=
  (if scanner.r_n r =? 2 then [chAt r 1; chAt r 0]
   else if scanner.r_n r =? 1 then [chAt r 0]
   else [])
  ++ normalize (scanner.src r).

Definition rinv (r : scanner.reader) : Prop :=
  (scanner.r_i r = 0 \/ scanner.r_i r = 1 \/ scanner.r_i r = 2)
  /\ (scanner.r_n r = 0 \/ scanner.r_n r = 1 \/ scanner.r_n r = 2)
  /\ exists a b c, scanner.r_buf r = [a; b; c].

Lemma newReader_view input :
  rinv (scanner.newReader input) /\ rview (scanner.newReader input) = normalize input.
Proof.
  split.
  - repeat split; cbn; auto. do 3 eexists. reflexivity.
  - reflexivity.
Qed.

(** Reading when a rune is available: the rune is delivered, and an
    [unread] after it gives it back. *)
Lemma read_cons r c rest :
  rinv r -> rview r = c :: rest ->
  exists pos r',
    scanner.read r = ((c, pos), r')
    /\ rinv r' /\ rview r' = rest
    /\ rinv (scanner.unread r') /\ rview (scanner.unread r') = c :: rest.
Proof.
  destruct r as [src i n pos buf eof]. unfold rinv, rview, chAt. cbn -[normalize].
  intros (Hi & Hn & a & b & d & ->) Hv.
  destruct Hn as [-> | [-> | ->]]; cbn -[normalize] in Hv.
  - destruct (next_rune_normalize _ _ _ Hv) as (l' & Hnext & Hl').
    unfold scanner.read. cbn -[normalize]. rewrite Hnext.
    destruct Hi as [-> | [-> | ->]]; cbn -[normalize];
      do 2 eexists; (split; [reflexivity|]); cbn -[normalize];
      rewrite Hl';
      repeat split; auto; do 3 eexists; reflexivity.
  - destruct Hi as [-> | [-> | ->]]; cbn -[normalize] in Hv |- *;
      injection Hv as <- <-;
      do 2 eexists; (split; [reflexivity|]); cbn -[normalize];
      repeat split; auto; do 3 eexists; reflexivity.
  - destruct Hi as [-> | [-> | ->]]; cbn -[normalize] in Hv |- *;
      injection Hv as <- <-;
      do 2 eexists; (split; [reflexivity|]); cbn -[normalize];
      repeat split; auto; do 3 eexists; reflexivity.
Qed.

(** Reading at the end of the input delivers [EOF]. *)
Lemma read_nil r :
  rinv r -> rview r = [] ->
  exists pos r', scanner.read r = ((scanner.EOF, pos), r') /\ rinv r' /\ rview r' = [].
Proof.
  destruct r as [src i n pos buf eof]. unfold rinv, rview, chAt. cbn -[normalize].
  intros (Hi & Hn & a & b & d & ->) Hv.
  destruct Hn as [-> | [-> | ->]]; cbn -[normalize] in Hv; try discriminate.
  destruct src as [|c0 t].
  - unfold scanner.read. cbn.
    destruct Hi as [-> | [-> | ->]]; cbn;
      do 2 eexists; (split; [reflexivity|]); cbn;
      repeat split; auto; do 3 eexists; reflexivity.
  - exfalso. cbn [normalize] in Hv. destruct (c0 =? 13).
    + destruct t as [|c2 t2]; [discriminate|]. destruct (c2 =? 10); discriminate.
    + discriminate.
Qed.

Lemma read_curr r x r' : scanner.read r = (x, r') -> scanner.curr r' = x.
Proof.
  unfold scanner.read. destruct (0 <? scanner.r_n r).
  - intros [= <- <-]. reflexivity.
  - destruct (scanner.next_rune (scanner.src r)) as [ch src']. intros [= <- <-]. reflexivity.
Qed.

(** Inputs without the NUL rune, which the reader uses as its end
    marker. *)
Definition nonul (l : list rune) : Prop := Forall (fun c => c <> scanner.EOF) l.

Lemma normalize_nonul l : nonul l -> nonul (normalize l).
Proof.
  assert (G : forall n l, (length l <= n)%nat -> nonul l -> nonul (normalize l)).
  { unfold nonul. induction n as [|n IH]; intros [|c t] Hl Hn; cbn [normalize length] in *;
      try constructor; try lia.
    inversion Hn as [|? ? Hc Ht]; subst.
    destruct (c =? 13).
    - destruct t as [|c2 t2]; [repeat constructor; discriminate|].
      inversion Ht; subst. cbn [length] in Hl.
      destruct (c2 =? 10); (constructor; [discriminate|]); apply IH; auto;
        cbn [length]; lia.
    - constructor; [exact Hc|]. apply IH; [lia|exact Ht]. }
  apply (G (length l)). lia.
Qed.

(** The whitespace at the front of an input, and what follows it. *)
Fixpoint ws_prefix (l : list rune) : list rune :=
  match l with
  | c :: t => if tools.IsWhitespace c then c :: ws_prefix t else []
  | [] => []
  end.

Fixpoint skip_ws (l : list rune) : list rune :=
  match l with
  | c :: t => if tools.IsWhitespace c then skip_ws t else l
  | [] => []
  end.

Lemma skip_ws_length l : (length (skip_ws l) <= length l)%nat.
Proof.
  induction l as [|c t IH]; cbn [skip_ws length]; [lia|].
  destruct (tools.IsWhitespace c); cbn [length]; lia.
Qed.

Lemma skip_ws_nonul l : nonul l -> nonul (skip_ws l).
Proof.
  unfold nonul. induction 1 as [|c t Hc Ht IH]; cbn [skip_ws]; [constructor|].
  destruct (tools.IsWhitespace c); [exact IH|constructor; assumption].
Qed.

Lemma ws_prefix_skip_ws l : ws_prefix l ++ skip_ws l = l.
Proof.
  induction l as [|c t IH]; cbn [ws_prefix skip_ws]; [reflexivity|].
  destruct (tools.IsWhitespace c); [cbn; f_equal; exact IH|reflexivity].
Qed.

(** The loop of [scanWhitespace] takes the longest run of whitespace
    and leaves the reader in front of what follows. *)
Lemma scanWhitespace_loop_spec input :
  forall r fuel buf,
    rinv r -> rview r = input -> nonul input -> (length input < fuel)%nat ->
    exists r',
      scanner.scanWhitespace_loop fuel buf r
        = Some (fold_left WriteRune (ws_prefix input) buf, r')
      /\ rinv r' /\ rview r' = skip_ws input.
Proof.
  induction input as [|c rest IH]; intros r fuel buf Hinv Hview Hnn Hfuel;
    (destruct fuel as [|f]; [cbn [length] in Hfuel; lia|]);
    cbn [scanner.scanWhitespace_loop].
  - destruct (read_nil r Hinv Hview) as (pos & r1 & Hread & Hinv1 & Hview1).
    rewrite Hread. cbn. eauto.
  - destruct (read_cons r c rest Hinv Hview) as (pos & r1 & Hread & Hinv1 & Hview1 & Hinv2 & Hview2).
    rewrite Hread. inversion Hnn as [|? ? Hc Hrest]; subst.
    assert (Hne : (c =? scanner.EOF) = false) by (apply Z.eqb_neq; exact Hc).
    rewrite Hne. cbn [ws_prefix skip_ws].
    destruct (tools.IsWhitespace c) eqn:Hws; cbn [negb].
    + cbn [length] in Hfuel.
      destruct (IH r1 f (WriteRune buf c) Hinv1 eq_refl Hrest ltac:(lia))
        as (r' & Hloop & Hinv' & Hview').
      exists r'. cbn [fold_left]. auto.
    + exists (scanner.unread r1). cbn [fold_left]. auto.
Qed.

(** [skipUntilNewline] on a line without NUL: through the newline, or to
    the end of the input. *)
Lemma skipUntilNewline_spec body :
  forall r fuel rest,
    rinv r -> nonul body -> Forall (fun c => c <> 10) body ->
    rview r = body ++ rest -> (rest = [] \/ exists rest', rest = 10 :: rest') ->
    (length body + 1 < fuel)%nat ->
    exists r',
      scanner.skipUntilNewline fuel r = Some r' /\ rinv r' /\ rview r' = tl rest.
Proof.
  induction body as [|c body IH]; intros r fuel rest Hinv Hnn Hnl Hview Hrest Hfuel;
    (destruct fuel as [|f]; [lia|]);
    cbn [scanner.skipUntilNewline]; cbn [app] in Hview.
  - destruct Hrest as [-> | [rest' ->]].
    + destruct (read_nil r Hinv Hview) as (pos & r1 & Hread & Hinv1 & Hview1).
      rewrite Hread. cbn. eauto.
    + destruct (read_cons r _ _ Hinv Hview) as (pos & r1 & Hread & Hinv1 & Hview1 & _).
      rewrite Hread. cbn. eauto.
  - destruct (read_cons r _ _ Hinv Hview) as (pos & r1 & Hread & Hinv1 & Hview1 & _).
    rewrite Hread. inversion Hnn as [|? ? Hc Hnn']; subst. inversion Hnl as [|? ? Hc' Hnl']; subst.
    replace (c =? 10) with false by (symmetry; apply Z.eqb_neq; exact Hc').
    replace (c =? scanner.EOF) with false by (symmetry; apply Z.eqb_neq; exact Hc).
    cbn [orb]. cbn [length] in Hfuel.
    apply (IH r1 f rest Hinv1 Hnn' Hnl' Hview1 Hrest). lia.
Qed.

(** A comment body that does not contain the closing star-slash. *)
Definition unclosed (body : list rune) : Prop :=
  forall pre post, body <> pre ++ 42 :: 47 :: post.

Lemma unclosed_tail c body : unclosed (c :: body) -> unclosed body.
Proof. intros Hu pre post ->. apply (Hu (c :: pre) post). reflexivity. Qed.

(** [skipUntilEndComment]: when the text up to the first star-slash has
    no NUL, the comment is closed there. *)
Lemma skipUntilEndComment_spec body :
  forall star r fuel rest,
    rinv r -> nonul body -> unclosed body ->
    (star = true -> forall t, body <> 47 :: t) ->
    rview r = body ++ 42 :: 47 :: rest ->
    (length body + 2 <= fuel)%nat ->
    exists r',
      scanner.skipUntilEndComment fuel star r = Some (true, r')
      /\ rinv r' /\ rview r' = rest.
Proof.
  induction body as [|c body IH]; intros star r fuel rest Hinv Hnn Hu Hstar Hview Hfuel.
  - cbn [app] in Hview.
    destruct fuel as [|[|f]]; [cbn [length] in Hfuel; lia..|].
    destruct (read_cons r _ _ Hinv Hview) as (pos & r1 & Hread & Hinv1 & Hview1 & _).
    destruct (read_cons r1 _ _ Hinv1 Hview1) as (pos2 & r2 & Hread2 & Hinv2 & Hview2 & _).
    exists r2. split; [|auto].
    cbn [scanner.skipUntilEndComment]. rewrite Hread.
    destruct star; cbn; rewrite Hread2; reflexivity.
  - cbn [app] in Hview. destruct fuel as [|f]; [cbn [length] in Hfuel; lia|].
    destruct (read_cons r _ _ Hinv Hview) as (pos & r1 & Hread & Hinv1 & Hview1 & _).
    inversion Hnn as [|? ? Hc Hnn']; subst.
    cbn [scanner.skipUntilEndComment]. rewrite Hread.
    assert (Hne : (c =? scanner.EOF) = false) by (apply Z.eqb_neq; exact Hc).
    assert (Hnext : forall st, (st = true -> c = 42) ->
              exists r', scanner.skipUntilEndComment f st r1 = Some (true, r')
                         /\ rinv r' /\ rview r' = rest).
    { intros st Hst. apply IH; auto.
      - eapply unclosed_tail; exact Hu.
      - intros -> t ->. rewrite (Hst eq_refl) in Hu. apply (Hu [] t). reflexivity.
      - cbn [length] in Hfuel. lia. }
    assert (Hslash : star = true -> (c =? 47) = false).
    { intros Hs. apply Z.eqb_neq. intros ->. apply (Hstar Hs body). reflexivity. }
    change (rc "/") with 47. change (rc "*") with 42.
    destruct (c =? 42) eqn:Hc42.
    + apply Z.eqb_eq in Hc42. subst c.
      destruct star; cbn; apply Hnext; auto.
    + rewrite Hne. destruct star.
      * rewrite (Hslash eq_refl). apply Hnext. discriminate.
      * apply Hnext. discriminate.
Qed.


(** Text that holds no token but whitespace, comments and semicolons, as
    the reader delivers it (newlines normalised): a line comment runs to
    the next newline or to the end of the input, a block comment to the
    first star-slash. *)
Inductive trivia : list rune -> Prop :=
| trivia_end : trivia []
| trivia_space c rest :
    tools.IsWhitespace c = true -> trivia rest -> trivia (c :: rest)
| trivia_semicolon rest :
    trivia rest -> trivia (59 :: rest)
| trivia_last_line body :
    Forall (fun c => c <> 10) body -> trivia (45 :: 45 :: body)
| trivia_line body rest :
    Forall (fun c => c <> 10) body -> trivia rest ->
    trivia (45 :: 45 :: body ++ 10 :: rest)
| trivia_block body rest :
    unclosed body -> trivia rest ->
    trivia (47 :: 42 :: body ++ 42 :: 47 :: rest).

Lemma trivia_skip_ws l : trivia l -> trivia (skip_ws l).
Proof.
  induction 1 as [|c rest Hws _ IH|rest Hr _|body Hb|body rest Hb Hr _|body rest Hb Hr _];
    cbn [skip_ws].
  - constructor.
  - rewrite Hws. exact IH.
  - apply trivia_semicolon; exact Hr.
  - apply trivia_last_line; exact Hb.
  - apply trivia_line; assumption.
  - apply trivia_block; assumption.
Qed.

Lemma Scan_whitespace r c p r0 fuel :
  scanner.read r = ((c, p), r0) -> tools.IsWhitespace c = true ->
  scanner.Scan fuel r = scanner.scanWhitespace fuel r0.
Proof. intros Hr Hws. unfold scanner.Scan. rewrite Hr, Hws. reflexivity. Qed.

Lemma Scan_EOF r p r0 fuel :
  scanner.read r = ((scanner.EOF, p), r0) ->
  scanner.Scan fuel r = Some ((p, token.EOF, EmptyString), r0).
Proof. intros Hr. unfold scanner.Scan. rewrite Hr. reflexivity. Qed.

Lemma Scan_semicolon r p r0 fuel :
  scanner.read r = ((59, p), r0) ->
  scanner.Scan fuel r = Some ((p, token.SEMICOLON, EmptyString), r0).
Proof. intros Hr. unfold scanner.Scan. rewrite Hr. reflexivity. Qed.

Lemma Scan_line_comment r p r0 p1 r1 fuel :
  scanner.read r = ((45, p), r0) -> scanner.read r0 = ((45, p1), r1) ->
  scanner.Scan fuel r =
    match scanner.skipUntilNewline fuel r1 with
    | None => None
    | Some r2 => Some ((p, token.COMMENT, EmptyString), r2)
    end.
Proof.
  intros Hr Hr0. unfold scanner.Scan. rewrite Hr.
  cbv beta iota zeta. change (tools.IsWhitespace 45) with false.
  change (tools.IsLetter 45 || (45 =? rc "_")) with false.
  change (tools.IsDigit 45) with false. cbv iota.
  change (45 =? scanner.EOF) with false. change (45 =? 34) with false.
  change (45 =? rc "'") with false. change (45 =? rc ".") with false.
  change (45 =? rc "$") with false. change (45 =? rc "+") with false.
  change (45 =? rc "-") with true. cbv iota. rewrite Hr0. reflexivity.
Qed.

Lemma Scan_block_comment r p r0 p1 r1 fuel :
  scanner.read r = ((47, p), r0) -> scanner.read r0 = ((42, p1), r1) ->
  scanner.Scan fuel r =
    match scanner.skipUntilEndComment fuel false r1 with
    | None => None
    | Some (true, r2) => Some ((p, token.COMMENT, EmptyString), r2)
    | Some (false, r2) => Some ((p, token.ILLEGAL, EmptyString), r2)
    end.
Proof.
  intros Hr Hr0. unfold scanner.Scan. rewrite Hr.
  cbv beta iota zeta. change (tools.IsWhitespace 47) with false.
  change (tools.IsLetter 47 || (47 =? rc "_")) with false.
  change (tools.IsDigit 47) with false. cbv iota.
  change (47 =? scanner.EOF) with false. change (47 =? 34) with false.
  change (47 =? rc "'") with false. change (47 =? rc ".") with false.
  change (47 =? rc "$") with false. change (47 =? rc "+") with false.
  change (47 =? rc "-") with false. change (47 =? rc "*") with false.
  change (47 =? rc "/") with true. cbv iota. rewrite Hr0. reflexivity.
Qed.

Lemma nonul_cons c l : nonul (c :: l) -> c <> scanner.EOF /\ nonul l.
Proof. intros Hn. inversion Hn; subst. auto. Qed.

Lemma nonul_app l1 l2 : nonul (l1 ++ l2) -> nonul l1 /\ nonul l2.
Proof. intros Hn. apply Forall_app in Hn. exact Hn. Qed.

(** One [Scan] in front of such text takes a whitespace, comment or
    semicolon token and leaves text of the same kind. *)
Lemma Scan_trivia input r fuel :
  trivia input -> nonul input -> input <> [] ->
  rinv r -> rview r = input -> (length input < fuel)%nat ->
  exists pos tok lit r',
    scanner.Scan fuel r = Some ((pos, tok, lit), r')
    /\ (tok = token.WS \/ tok = token.COMMENT \/ tok = token.SEMICOLON)
    /\ rinv r' /\ trivia (rview r') /\ nonul (rview r')
    /\ (length (rview r') < length input)%nat.
Proof.
  intros Ht Hnn Hne Hinv Hview Hfuel.
  destruct Ht as [|c rest Hws Hrest|rest Hrest|body Hnl|body rest Hnl Hrest|body rest Hu Hrest];
    [congruence|..].
  - destruct (read_cons r _ _ Hinv Hview) as (pos & r0 & Hread & Hinv0 & Hview0 & _).
    rewrite (Scan_whitespace _ _ _ _ _ Hread Hws).
    unfold scanner.scanWhitespace. rewrite (read_curr _ _ _ Hread).
    destruct (nonul_cons _ _ Hnn) as [Hc Hnn']. cbn [length] in Hfuel.
    destruct (scanWhitespace_loop_spec rest r0 fuel (WriteRune EmptyString c)
                Hinv0 Hview0 Hnn' ltac:(unfold rune in *; lia)) as (r' & -> & Hinv' & Hview').
    do 4 eexists. split; [reflexivity|]. split; [auto|]. split; [exact Hinv'|].
    rewrite Hview'. split; [apply trivia_skip_ws; exact Hrest|].
    split; [apply skip_ws_nonul; exact Hnn'|].
    pose proof (skip_ws_length rest). cbn [length]. unfold rune in *. lia.
  - destruct (read_cons r _ _ Hinv Hview) as (pos & r0 & Hread & Hinv0 & Hview0 & _).
    rewrite (Scan_semicolon _ _ _ _ Hread).
    destruct (nonul_cons _ _ Hnn) as [Hc Hnn'].
    do 4 eexists. split; [reflexivity|]. split; [auto|]. split; [exact Hinv0|].
    rewrite Hview0. split; [exact Hrest|]. split; [exact Hnn'|]. cbn [length]. unfold rune in *. lia.
  - destruct (read_cons r _ _ Hinv Hview) as (pos & r0 & Hread & Hinv0 & Hview0 & _).
    destruct (read_cons r0 _ _ Hinv0 Hview0) as (pos1 & r1 & Hread1 & Hinv1 & Hview1 & _).
    rewrite (Scan_line_comment _ _ _ _ _ _ Hread Hread1).
    destruct (nonul_cons _ _ Hnn) as [_ Hnn0]. destruct (nonul_cons _ _ Hnn0) as [_ Hnn1].
    cbn [length] in Hfuel.
    destruct (skipUntilNewline_spec body r1 fuel [] Hinv1 Hnn1 Hnl
                ltac:(rewrite app_nil_r; exact Hview1) ltac:(auto) ltac:(unfold rune in *; lia))
      as (r' & -> & Hinv' & Hview').
    do 4 eexists. split; [reflexivity|]. split; [auto|]. split; [exact Hinv'|].
    rewrite Hview'. cbn [tl length]. split; [constructor|]. split; [constructor|]. unfold rune in *. lia.
  - destruct (read_cons r _ _ Hinv Hview) as (pos & r0 & Hread & Hinv0 & Hview0 & _).
    destruct (read_cons r0 _ _ Hinv0 Hview0) as (pos1 & r1 & Hread1 & Hinv1 & Hview1 & _).
    rewrite (Scan_line_comment _ _ _ _ _ _ Hread Hread1).
    destruct (nonul_cons _ _ Hnn) as [_ Hnn0]. destruct (nonul_cons _ _ Hnn0) as [_ Hnn1].
    destruct (nonul_app _ _ Hnn1) as [Hnb Hnr]. destruct (nonul_cons _ _ Hnr) as [_ Hnr'].
    cbn [length] in Hfuel. rewrite length_app in Hfuel. cbn [length] in Hfuel.
    destruct (skipUntilNewline_spec body r1 fuel (10 :: rest) Hinv1 Hnb Hnl
                Hview1 ltac:(eauto) ltac:(unfold rune in *; lia))
      as (r' & -> & Hinv' & Hview').
    do 4 eexists. split; [reflexivity|]. split; [auto|]. split; [exact Hinv'|].
    rewrite Hview'. cbn [tl length]. split; [exact Hrest|]. split; [exact Hnr'|].
    rewrite length_app. cbn [length]. unfold rune in *. lia.
  - destruct (read_cons r _ _ Hinv Hview) as (pos & r0 & Hread & Hinv0 & Hview0 & _).
    destruct (read_cons r0 _ _ Hinv0 Hview0) as (pos1 & r1 & Hread1 & Hinv1 & Hview1 & _).
    rewrite (Scan_block_comment _ _ _ _ _ _ Hread Hread1).
    destruct (nonul_cons _ _ Hnn) as [_ Hnn0]. destruct (nonul_cons _ _ Hnn0) as [_ Hnn1].
    destruct (nonul_app _ _ Hnn1) as [Hnb Hnr]. destruct (nonul_cons _ _ Hnr) as [_ Hnr0].
    destruct (nonul_cons _ _ Hnr0) as [_ Hnr1].
    cbn [length] in Hfuel. rewrite length_app in Hfuel. cbn [length] in Hfuel.
    destruct (skipUntilEndComment_spec body false r1 fuel rest Hinv1 Hnb Hu
                ltac:(discriminate) Hview1 ltac:(unfold rune in *; lia))
      as (r' & -> & Hinv' & Hview').
    do 4 eexists. split; [reflexivity|]. split; [auto|]. split; [exact Hinv'|].
    rewrite Hview'. split; [exact Hrest|]. split; [exact Hnr1|].
    cbn [length]. rewrite length_app. cbn [length]. unfold rune in *. lia.
Qed.

(** X3. [unread] gives back what [read] has just delivered: the next
    [read] returns the same rune and position and leaves the reader as
    the first [read] had left it. *)
Theorem read_unread_read r x r1 :
  rinv r -> scanner.read r = (x, r1) ->
  scanner.read (scanner.unread r1) = (x, r1).
Proof.
  destruct r as [src i n pos buf eof]. unfold rinv. cbn.
  intros (Hi & Hn & a & b & d & ->).
  unfold scanner.read at 1. cbn.
  destruct Hn as [-> | [-> | ->]]; cbn.
  - destruct (scanner.next_rune src) as [ch src'].
    destruct Hi as [-> | [-> | ->]]; intros [= <- <-]; reflexivity.
  - destruct Hi as [-> | [-> | ->]]; intros [= <- <-]; reflexivity.
  - destruct Hi as [-> | [-> | ->]]; intros [= <- <-]; reflexivity.
Qed.

(** The runes that [k] successive calls of [read] deliver. *)
Fixpoint read_runes (k : nat) (r : scanner.reader) : list rune :=
  match k with
  | O => []
  | S k' => let '((ch, _), r') := scanner.read r in ch :: read_runes k' r'
  end.

Lemma read_runes_view k : forall r,
  rinv r ->
  read_runes k r
  = firstn k (rview r) ++ repeat scanner.EOF (k - length (rview r)).
Proof.
  induction k as [|k IH]; intros r Hinv; [reflexivity|].
  cbn [read_runes]. destruct (rview r) as [|c rest] eqn:Hview.
  - destruct (read_nil r Hinv Hview) as (pos & r1 & -> & Hinv1 & Hview1).
    rewrite (IH r1 Hinv1), Hview1. cbn. rewrite firstn_nil, Nat.sub_0_r. reflexivity.
  - destruct (read_cons r c rest Hinv Hview) as (pos & r1 & -> & Hinv1 & Hview1 & _).
    rewrite (IH r1 Hinv1), Hview1. reflexivity.
Qed.

Lemma normalize_no_CR l : ~ In 13 (normalize l).
Proof.
  assert (G : forall n l, (length l <= n)%nat -> ~ In 13 (normalize l)).
  { induction n as [|n IH]; intros [|c t] Hl; cbn [normalize length] in *;
      try (intros []; fail); try lia.
    destruct (c =? 13) eqn:Hc.
    - destruct t as [|c2 t2]; [intros [E|[]]; discriminate E|].
      cbn [length] in Hl.
      destruct (c2 =? 10); intros [E|Hin]; try discriminate E;
        revert Hin; apply IH; cbn [length]; lia.
    - intros [E|Hin]; [subst c; discriminate Hc|]. revert Hin. apply IH. lia. }
  apply (G (length l)). lia.
Qed.

Lemma normalize_without_CR l : ~ In 13 l -> normalize l = l.
Proof.
  induction l as [|c t IH]; intros Hn; [reflexivity|].
  cbn [normalize]. destruct (c =? 13) eqn:Hc.
  - exfalso. apply Hn. left. apply Z.eqb_eq. exact Hc.
  - f_equal. apply IH. intros Hin. apply Hn. right. exact Hin.
Qed.

(** X4. A new reader delivers the input with every CR LF and every
    other CR replaced by LF, then [EOF] for ever; it never delivers a
    CR, and an input without CR is delivered unchanged. *)
Theorem reader_delivers_normalized_input (input : list rune) (k : nat) :
  read_runes k (scanner.newReader input)
  = firstn k (normalize input) ++ repeat scanner.EOF (k - length (normalize input))
  /\ ~ In 13 (normalize input)
  /\ (~ In 13 input -> normalize input = input).
Proof.
  destruct (newReader_view input) as [Hinv Hview].
  split; [|split].
  - rewrite (read_runes_view k _ Hinv), Hview. reflexivity.
  - apply normalize_no_CR.
  - apply normalize_without_CR.
Qed.

(** X5. The buffered scanner keeps the last three tokens: after three
    scans from a scanner with nothing pushed back, three calls of
    [Unscan] make the next three scans return the same three tokens in
    the same order, without reading, and end in the same state. *)
Theorem Unscan_replays_three_tokens sc sc' b t1 b1 t2 b2 t3 b3 :
  scanner.n b = 0 ->
  (scanner.i b = 0 \/ scanner.i b = 1 \/ scanner.i b = 2) ->
  length (scanner.buf b) = 3%nat ->
  scanner.ScanFunc sc b = Some (t1, b1) ->
  scanner.ScanFunc sc b1 = Some (t2, b2) ->
  scanner.ScanFunc sc b2 = Some (t3, b3) ->
  exists u1 u2,
    scanner.ScanFunc sc' (scanner.Unscan (scanner.Unscan (scanner.Unscan b3))) = Some (t1, u1)
    /\ scanner.ScanFunc sc' u1 = Some (t2, u2)
    /\ scanner.ScanFunc sc' u2 = Some (t3, b3).
Proof.
  destruct b as [r i n buf]. cbn. intros -> Hi Hlen.
  destruct buf as [|x [|y [|z [|]]]]; try discriminate Hlen. clear Hlen.
  unfold scanner.ScanFunc at 1. cbn.
  destruct (sc r) as [[t1' r1]|]; [|discriminate].
  destruct Hi as [-> | [-> | ->]]; cbn; intros [= <- <-];
    unfold scanner.ScanFunc at 1; cbn;
    (destruct (sc r1) as [[t2' r2]|]; [|discriminate]); cbn; intros [= <- <-];
    unfold scanner.ScanFunc at 1; cbn;
    (destruct (sc r2) as [[t3' r3]|]; [|discriminate]); cbn; intros [= <- <-];
    do 2 eexists; (split; [reflexivity|split; reflexivity]).
Qed.


End ReaderFacts.

Section QueryFacts.

Context (H : Host).


Abbreviation rdr p := (scanner.s (parser.s H p)).

(** The buffered scanner with no token pushed back. *)
Definition binv (b : scanner.bufScanner) : Prop :=
  scanner.n b = 0
  /\ (scanner.i b = 0 \/ scanner.i b = 1 \/ scanner.i b = 2)
  /\ exists x y z, scanner.buf b = [x; y; z].

Lemma NewParser_ready input :
  binv (parser.s H (parser.NewParser H input))
  /\ rinv (rdr (parser.NewParser H input))
  /\ rview (rdr (parser.NewParser H input)) = normalize input.
Proof.
  split; [|apply newReader_view].
  repeat split; cbn; auto. do 3 eexists. reflexivity.
Qed.

Lemma ScanFunc_fresh scan b t r' :
  binv b -> scan (scanner.s b) = Some (t, r') ->
  exists b', scanner.ScanFunc scan b = Some (t, b') /\ binv b' /\ scanner.s b' = r'.
Proof.
  destruct b as [r i n buf]. unfold binv. cbn.
  intros (-> & Hi & x & y & z & ->) Hscan.
  unfold scanner.ScanFunc. cbn. rewrite Hscan.
  destruct Hi as [-> | [-> | ->]]; cbn; eexists; (split; [reflexivity|]); cbn;
    repeat split; auto; do 3 eexists; reflexivity.
Qed.

Lemma scan_fresh p fuel pos tok lit r' :
  binv (parser.s H p) ->
  scanner.Scan fuel (rdr p) = Some ((pos, tok, lit), r') ->
  tok <> token.BOUNDPARAM ->
  exists p',
    parser.scan H fuel p = parser.Ok ((pos, tok, lit), p')
    /\ binv (parser.s H p') /\ rdr p' = r'.
Proof.
  intros Hb Hscan Htok.
  destruct (ScanFunc_fresh _ _ _ _ Hb Hscan) as (b' & Hsf & Hb' & Hr').
  unfold parser.scan, parser.liftScan, scanner.bScan. rewrite Hsf.
  exists (parser.mkParser H b' (parser.params H p)).
  destruct tok; try congruence; cbn; (split; [reflexivity|split; [exact Hb'|exact Hr']]).
Qed.

(** [ScanIgnoreWhitespace] in front of whitespace, comments and
    semicolons returns the first semicolon or, when there is none, the
    end-of-input token. *)
Lemma ScanIgnoreWhitespace_trivia :
  forall m input p fuel,
    (length input <= m)%nat ->
    trivia input -> nonul input ->
    binv (parser.s H p) -> rinv (rdr p) -> rview (rdr p) = input ->
    (length input + 2 <= fuel)%nat ->
    exists pos tok lit p',
      parser.ScanIgnoreWhitespace H fuel p = parser.Ok ((pos, tok, lit), p')
      /\ binv (parser.s H p') /\ rinv (rdr p')
      /\ trivia (rview (rdr p')) /\ nonul (rview (rdr p'))
      /\ (tok = token.EOF
          \/ (tok = token.SEMICOLON /\ (length (rview (rdr p')) < length input)%nat)).
Proof.
  induction m as [|m IH]; intros input p fuel Hm Ht Hnn Hb Hinv Hview Hfuel;
    (destruct fuel as [|f]; [lia|]); cbn [parser.ScanIgnoreWhitespace].
  - destruct input; [|cbn [length] in Hm; lia].
    destruct (read_nil _ Hinv Hview) as (pos & r1 & Hread & Hinv1 & Hview1).
    destruct (scan_fresh p f _ _ _ _ Hb (Scan_EOF _ _ _ f Hread) ltac:(discriminate))
      as (p' & Hscan & Hb' & Hr').
    unfold parser.bind. rewrite Hscan. cbn.
    do 4 eexists. split; [reflexivity|]. rewrite Hr', Hview1.
    split; [exact Hb'|]. split; [exact Hinv1|]. split; [constructor|].
      split; [constructor|]. left; reflexivity.
  - destruct input as [|c rest].
    + destruct (read_nil _ Hinv Hview) as (pos & r1 & Hread & Hinv1 & Hview1).
      destruct (scan_fresh p f _ _ _ _ Hb (Scan_EOF _ _ _ f Hread) ltac:(discriminate))
        as (p' & Hscan & Hb' & Hr').
      unfold parser.bind. rewrite Hscan. cbn.
      do 4 eexists. split; [reflexivity|]. rewrite Hr', Hview1.
      split; [exact Hb'|]. split; [exact Hinv1|]. split; [constructor|].
      split; [constructor|]. left; reflexivity.
    + destruct (Scan_trivia (c :: rest) (rdr p) f Ht Hnn ltac:(discriminate) Hinv Hview
                  ltac:(cbn [length] in *; unfold rune in *; lia))
        as (pos & tok & lit & r' & Hscan & Htok & Hinv' & Ht' & Hnn' & Hlen).
      destruct (scan_fresh p f _ _ _ _ Hb Hscan
                  ltac:(destruct Htok as [-> | [-> | ->]]; discriminate))
        as (p' & Hscan' & Hb' & Hr').
      unfold parser.bind. rewrite Hscan'. subst r'.
      destruct Htok as [-> | [-> | ->]]; cbn.
      * destruct (IH (rview (rdr p')) p' f ltac:(cbn [length] in *; unfold rune in *; lia) Ht' Hnn' Hb' Hinv'
                    eq_refl ltac:(cbn [length] in *; unfold rune in *; lia))
          as (pos2 & tok2 & lit2 & p2 & Hsiw & Hb2 & Hinv2 & Ht2 & Hnn2 & Hres).
        do 4 eexists. split; [exact Hsiw|]. split; [exact Hb2|]. split; [exact Hinv2|].
        split; [exact Ht2|]. split; [exact Hnn2|].
        destruct Hres as [-> | [-> Hl]]; [left; reflexivity|right; split; [reflexivity|cbn [length] in *; unfold rune in *; lia]].
      * destruct (IH (rview (rdr p')) p' f ltac:(cbn [length] in *; unfold rune in *; lia) Ht' Hnn' Hb' Hinv'
                    eq_refl ltac:(cbn [length] in *; unfold rune in *; lia))
          as (pos2 & tok2 & lit2 & p2 & Hsiw & Hb2 & Hinv2 & Ht2 & Hnn2 & Hres).
        do 4 eexists. split; [exact Hsiw|]. split; [exact Hb2|]. split; [exact Hinv2|].
        split; [exact Ht2|]. split; [exact Hnn2|].
        destruct Hres as [-> | [-> Hl]]; [left; reflexivity|right; split; [reflexivity|cbn [length] in *; unfold rune in *; lia]].
      * do 4 eexists. split; [reflexivity|]. split; [exact Hb'|]. split; [exact Hinv'|].
        split; [exact Ht'|]. split; [exact Hnn'|]. right; split; [reflexivity|exact Hlen].
Qed.

Lemma ParseQuery_loop_trivia :
  forall m input p fuel statements semi,
    (length input <= m)%nat ->
    trivia input -> nonul input ->
    binv (parser.s H p) -> rinv (rdr p) -> rview (rdr p) = input ->
    (length input + 3 <= fuel)%nat ->
    parser.run H (parser.ParseQuery_loop H fuel statements semi) p
      = parser.Ok (ast.mkQuery H statements).
Proof.
  induction m as [|m IH]; intros input p fuel statements semi Hm Ht Hnn Hb Hinv Hview Hfuel;
    (destruct fuel as [|f]; [lia|]);
    destruct (ScanIgnoreWhitespace_trivia (length input) input p f (le_n _) Ht Hnn Hb Hinv Hview
                ltac:(cbn [length] in *; unfold rune in *; lia))
      as (pos & tok & lit & p' & Hsiw & Hb' & Hinv' & Ht' & Hnn' & Hres);
    unfold parser.run; cbn [parser.ParseQuery_loop]; unfold parser.bind; rewrite Hsiw;
    (destruct Hres as [-> | [-> Hlen]]; [reflexivity|]).
  - lia.
  - cbn. specialize (IH (rview (rdr p')) p' f statements true ltac:(cbn [length] in *; unfold rune in *; lia) Ht' Hnn' Hb' Hinv'
                        eq_refl ltac:(cbn [length] in *; unfold rune in *; lia)).
    exact IH.
Qed.


(** C10, amended (queries without statements, redundant semicolons).
    (1) [ParseQuery] on an input made only of whitespace, semicolons,
    line comments and closed block comments, with no NUL rune in it
    (the reader takes NUL for the end of the input), returns the query
    with no statement and no error; the fuel needed is the number of
    runes plus three.  (2) In any state of the parser and whatever has
    been parsed so far, a semicolon read where a statement may start
    raises no error: the loop goes on with the same statements, ready
    for the next one.  (3) And the end of the input there returns the
    statements parsed so far. *)
Theorem C10_semicolons_comments_whitespace :
  (forall (input : list rune) (fuel : nat),
      trivia (normalize input) -> nonul input -> (length input + 3 <= fuel)%nat ->
      parser.run H (parser.Parser_ParseQuery H fuel) (parser.NewParser H input)
      = parser.Ok (ast.mkQuery H []))
  /\ (forall f p statements semi pos lit p1,
        parser.ScanIgnoreWhitespace H f p = parser.Ok ((pos, token.SEMICOLON, lit), p1) ->
        parser.ParseQuery_loop H (S f) statements semi p
        = parser.ParseQuery_loop H f statements true p1)
  /\ (forall f p statements semi pos lit p1,
        parser.ScanIgnoreWhitespace H f p = parser.Ok ((pos, token.EOF, lit), p1) ->
        parser.run H (parser.ParseQuery_loop H (S f) statements semi) p
        = parser.Ok (ast.mkQuery H statements)).
Proof.
  split; [|split].
  - intros input fuel Ht Hnn Hfuel. unfold parser.Parser_ParseQuery.
    destruct (NewParser_ready input) as (Hb & Hinv & Hview).
    pose proof (normalize_length input) as Hlen.
    apply (ParseQuery_loop_trivia (length (normalize input)) (normalize input)); auto.
    + apply normalize_nonul; exact Hnn.
    + unfold rune in *. lia.
  - intros f p statements semi pos lit p1 Hs.
    cbn [parser.ParseQuery_loop]. unfold parser.bind at 1. rewrite Hs. reflexivity.
  - intros f p statements semi pos lit p1 Hs. unfold parser.run.
    cbn [parser.ParseQuery_loop]. unfold parser.bind at 1. rewrite Hs. reflexivity.
Qed.


(** X1. A query text made only of whitespace, semicolons and comments,
    with no NUL rune in it, parses to the query with no statement and no
    error, when the fuel exceeds the number of runes by three. *)
Theorem ParseQuery_without_statements (q : string) (fuel : nat) :
  trivia (normalize (decode_runes q)) ->
  nonul (decode_runes q) ->
  (length (decode_runes q) + 3 <= fuel)%nat ->
  parser.ParseQuery H fuel q = parser.Ok (ast.mkQuery H []).
Proof.
  intros Ht Hnn Hfuel. unfold parser.ParseQuery, parser.Parser_ParseQuery.
  destruct (NewParser_ready (decode_runes q)) as (Hb & Hinv & Hview).
  pose proof (normalize_length (decode_runes q)) as Hlen.
  apply (ParseQuery_loop_trivia (length (normalize (decode_runes q)))
           (normalize (decode_runes q))); auto.
  - apply normalize_nonul; exact Hnn.
  - unfold rune in *. lia.
Qed.

(** X2. The NUL rune is the end of the input for the parser: whatever
    follows it, a text that starts with NUL parses to the query with no
    statement. *)
Theorem ParseQuery_stops_at_NUL (rest : list rune) (fuel : nat) :
  (3 <= fuel)%nat ->
  parser.run H (parser.Parser_ParseQuery H fuel) (parser.NewParser H (0 :: rest))
    = parser.Ok (ast.mkQuery H []).
Proof.
  intros Hfuel. destruct fuel as [|[|f]]; [lia..|].
  destruct (NewParser_ready (0 :: rest)) as (Hb & Hinv & Hview).
  change (normalize (0 :: rest)) with (0 :: normalize rest) in Hview.
  destruct (read_cons _ _ _ Hinv Hview) as (pos & r1 & Hread & _).
  destruct (scan_fresh _ f _ _ _ _ Hb (Scan_EOF _ _ _ f Hread) ltac:(discriminate))
    as (p' & Hscan & _).
  unfold parser.run, parser.Parser_ParseQuery.
  cbn [parser.ParseQuery_loop parser.ScanIgnoreWhitespace]. unfold parser.bind.
  rewrite Hscan. reflexivity.
Qed.


End QueryFacts.


(** ** Durations: formatting and parsing *)

Section DurationFacts.

Fixpoint all_digits (s : string) : bool :=
  match s with
  | EmptyString => true
  | String a s' => is_digit_byte a && all_digits s'
  end.

(** The runes of a string of ASCII bytes. *)
Fixpoint runes_of (s : string) : list rune :=
  match s with
  | EmptyString => []
  | String a s' => rc a :: runes_of s'
  end.

Lemma rc_range a : 0 <= rc a < 256.
Proof.
  unfold rc. pose proof (N_ascii_bounded a) as Hb. lia.
Qed.

Lemma byte_of_rc a : byte_of_Z (rc a) = a.
Proof.
  unfold byte_of_Z, rc. rewrite N2Z.id. apply ascii_N_embedding.
Qed.

Lemma rc_byte_of_Z z : 0 <= z < 256 -> rc (byte_of_Z z) = z.
Proof.
  intros Hz. unfold byte_of_Z, rc. rewrite N_ascii_embedding by lia. lia.
Qed.

Lemma digit_byte_range a : is_digit_byte a = true -> 48 <= rc a <= 57.
Proof.
  unfold is_digit_byte, in_range. intros Hd. apply andb_prop in Hd as [H1 H2].
  apply Z.leb_le in H1, H2. lia.
Qed.

Lemma decode_runes_digits ds t :
  all_digits ds = true -> decode_runes (ds +:+ t) = runes_of ds ++ decode_runes t.
Proof.
  induction ds as [|a ds IH]; intros Hd; [reflexivity|].
  cbn [all_digits] in Hd. apply andb_prop in Hd as [Ha Hds].
  apply digit_byte_range in Ha.
  simpl. replace (rc a <? 128) with true by (symmetry; apply Z.ltb_lt; lia).
  rewrite (IH Hds). reflexivity.
Qed.

Lemma encode_runes_digits ds :
  all_digits ds = true -> encode_runes (runes_of ds) = ds.
Proof.
  induction ds as [|a ds IH]; intros Hd; [reflexivity|].
  cbn [all_digits] in Hd. apply andb_prop in Hd as [Ha Hds].
  apply digit_byte_range in Ha.
  cbn [runes_of encode_runes]. unfold utf8_EncodeRune.
  replace ((0 <=? rc a) && (rc a <=? 127)) with true
    by (symmetry; apply andb_true_intro; split; apply Z.leb_le; lia).
  rewrite byte_of_rc, (IH Hds). reflexivity.
Qed.

Lemma IsDigit_rc a : tools.IsDigit (rc a) = is_digit_byte a.
Proof. reflexivity. Qed.

Lemma span_digits_runes ds rest :
  all_digits ds = true ->
  match rest with [] => True | c :: _ => tools.IsDigit c = false end ->
  parser.span_digits (runes_of ds ++ rest) = (runes_of ds, rest).
Proof.
  induction ds as [|a ds IH]; intros Hd Hrest.
  - cbn [runes_of app]. destruct rest as [|c rest]; [reflexivity|].
    cbn [parser.span_digits]. rewrite Hrest. reflexivity.
  - cbn [all_digits] in Hd. apply andb_prop in Hd as [Ha Hds].
    cbn [runes_of app parser.span_digits]. rewrite IsDigit_rc, Ha, (IH Hds Hrest).
    reflexivity.
Qed.

Lemma string_app_cons a (s t : string) : String a s +:+ t = String a (s +:+ t).
Proof. reflexivity. Qed.

Lemma string_app_assoc (s1 s2 s3 : string) : (s1 +:+ s2) +:+ s3 = s1 +:+ (s2 +:+ s3).
Proof.
  induction s1 as [|a s1 IH]; [reflexivity|].
  rewrite !string_app_cons. f_equal. exact IH.
Qed.

Lemma string_app_nil_r (s : string) : s +:+ EmptyString = s.
Proof.
  induction s as [|a s IH]; [reflexivity|]. rewrite string_app_cons. f_equal. exact IH.
Qed.

Lemma string_length_app (s1 s2 : string) :
  String.length (s1 +:+ s2) = (String.length s1 + String.length s2)%nat.
Proof.
  induction s1 as [|a s1 IH]; [reflexivity|].
  rewrite string_app_cons. cbn [String.length]. rewrite IH. reflexivity.
Qed.

Lemma parse_digits_app s1 s2 : forall acc,
  parse_digits (s1 +:+ s2) acc
  = match parse_digits s1 acc with
    | Some v => parse_digits s2 v
    | None => None
    end.
Proof.
  induction s1 as [|a s1 IH]; intros acc; [reflexivity|].
  rewrite string_app_cons. cbn [parse_digits].
  destruct (is_digit_byte a); [apply IH|reflexivity].
Qed.

Lemma all_digits_app s1 s2 :
  all_digits (s1 +:+ s2) = all_digits s1 && all_digits s2.
Proof.
  induction s1 as [|a s1 IH]; [reflexivity|].
  rewrite string_app_cons. cbn [all_digits]. rewrite IH. apply andb_assoc.
Qed.

Lemma digit_char_spec d :
  0 <= d <= 9 ->
  is_digit_byte (digit_char d) = true /\ rc (digit_char d) - 48 = d.
Proof.
  intros Hd. unfold is_digit_byte, digit_char, in_range.
  rewrite rc_byte_of_Z by lia. split; [|lia].
  apply andb_true_intro. split; apply Z.leb_le; lia.
Qed.

(** [format_digits] writes the decimal digits of [n] in front of [acc],
    and [parse_digits] reads them back. *)
Lemma format_digits_spec fuel : forall n acc,
  (0 < fuel)%nat -> 0 <= n < 10 ^ Z.of_nat fuel ->
  exists ds,
    format_digits fuel n acc = ds +:+ acc
    /\ ds <> EmptyString
    /\ all_digits ds = true
    /\ forall a, parse_digits ds a = Some (a * 10 ^ Z.of_nat (String.length ds) + n).
Proof.
  induction fuel as [|f IH]; intros n acc Hpos Hn; [lia|].
  - cbn [format_digits]. cbv zeta.
    pose proof (Z.mod_pos_bound n 10 ltac:(lia)) as Hm.
    destruct (digit_char_spec (n mod 10) ltac:(lia)) as [Hdc Hval].
    destruct (n <? 10) eqn:Hlt.
    + apply Z.ltb_lt in Hlt. exists (String (digit_char (n mod 10)) EmptyString).
      split; [reflexivity|]. split; [discriminate|].
      split; [cbn [all_digits]; rewrite Hdc; reflexivity|].
      intros a. cbn [parse_digits String.length]. rewrite Hdc, Hval.
      rewrite Z.mod_small by lia. f_equal.
    + apply Z.ltb_ge in Hlt.
      assert (Hq : 0 <= n / 10 < 10 ^ Z.of_nat f).
      { split; [apply Z.div_pos; lia|].
        apply Z.div_lt_upper_bound; [lia|].
        rewrite Nat2Z.inj_succ, Z.pow_succ_r in Hn by lia. lia. }
      assert (Hf : (0 < f)%nat).
      { destruct f; [|lia]. cbn in Hq. pose proof (Z.div_le_lower_bound n 10 1). lia. }
      destruct (IH (n / 10) (String (digit_char (n mod 10)) acc) Hf Hq)
        as (ds & Hfmt & Hne & Hall & Hparse).
      exists (ds +:+ String (digit_char (n mod 10)) EmptyString).
      split; [|split; [|split]].
      * rewrite Hfmt, string_app_assoc. reflexivity.
      * destruct ds; [contradiction|discriminate].
      * rewrite all_digits_app, Hall. cbn [all_digits]. rewrite Hdc. reflexivity.
      * intros a. rewrite parse_digits_app, Hparse.
        cbn [parse_digits]. rewrite Hdc, Hval. f_equal.
        rewrite string_length_app. cbn [String.length].
        rewrite Nat2Z.inj_add. change (Z.of_nat 1) with 1.
        rewrite Z.pow_add_r by lia. change (10 ^ 1) with 10.
        pose proof (Z.div_mod n 10 ltac:(lia)). lia.
Qed.

Lemma FormatUint_spec n :
  0 <= n <= MaxUint64 ->
  exists ds,
    FormatUint n = ds /\ ds <> EmptyString /\ all_digits ds = true
    /\ parse_digits ds 0 = Some n.
Proof.
  intros Hn. unfold FormatUint.
  destruct (format_digits_spec 40 n EmptyString) as (ds & Hfmt & Hne & Hall & Hparse).
  { lia. }
  { split; [lia|]. unfold MaxUint64 in Hn. change (10 ^ Z.of_nat 40) with (10 ^ 40). lia. }
  exists ds. rewrite Hfmt.
  rewrite string_app_nil_r. split; [reflexivity|]. split; [exact Hne|].
  split; [exact Hall|]. rewrite Hparse. f_equal.
Qed.

Lemma wrap64_id z : MinInt64 <= z <= MaxInt64 -> wrap64 z = z.
Proof.
  unfold wrap64, MinInt64, MaxInt64. intros Hz.
  rewrite Z.mod_small; lia.
Qed.

Lemma ParseInt_of_digits ds n :
  ds <> EmptyString -> parse_digits ds 0 = Some n -> n <= MaxInt64 ->
  ParseInt ds = NumOk n.
Proof.
  intros Hne Hp Hn. destruct (ParseInt_digits ds n Hne Hp) as (E & _ & _).
  rewrite E. replace (n <=? MaxInt64) with true by (symmetry; apply Z.leb_le; exact Hn).
  reflexivity.
Qed.

(** The units that [FormatDuration] writes: the text, its runes and the
    number of nanoseconds. *)
Definition duration_units : list (string * list rune * Z) :=
  [ ("w"%string, [119], tools.Week);
    ("d"%string, [100], tools.Day);
    ("h"%string, [104], tools.Hour);
    ("m"%string, [109], tools.Minute);
    ("s"%string, [115], tools.Second);
    ("ms"%string, [109; 115], tools.Millisecond);
    ("u"%string, [117], tools.Microsecond);
    ("ns"%string, [110; 115], 1) ].

Lemma duration_units_spec ustr us U :
  In (ustr, us, U) duration_units ->
  decode_runes ustr = us /\ 1 <= U
  /\ (2 <= Z.of_nat (String.length ustr) \/ 1 = Z.of_nat (String.length ustr))
  /\ match us with [] => False | c :: _ => tools.IsDigit c = false /\ c <> 45 end.
Proof.
  intros Hin. cbn in Hin.
  repeat (destruct Hin as [E|Hin];
          [injection E as <- <- <-;
           split; [reflexivity|]; split; [vm_compute; discriminate|];
           split; [cbn [String.length]; lia|]; split; [reflexivity|discriminate]|]).
  contradiction.
Qed.

(** One number and one unit in [ParseDuration]'s loop. *)
Lemma ParseDuration_loop_unit ds n ustr us U f :
  ds <> EmptyString -> all_digits ds = true -> parse_digits ds 0 = Some n ->
  0 <= n -> n * U <= MaxInt64 ->
  In (ustr, us, U) duration_units ->
  exists measure unit,
    parser.ParseDuration_loop (S f) (runes_of ds ++ us) 0 0 EmptyString
    = Some (inr (n * U, measure, unit)).
Proof.
  intros Hne Hall Hp Hn0 HnU Hin.
  destruct (duration_units_spec _ _ _ Hin) as (_ & HU & _ & Hus).
  assert (Hn : n <= MaxInt64) by nia.
  assert (Hspan : parser.span_digits (runes_of ds ++ us) = (runes_of ds, us)).
  { apply span_digits_runes; [exact Hall|]. destruct us; [exact I|apply Hus]. }
  pose proof (encode_runes_digits ds Hall) as Henc.
  pose proof (ParseInt_of_digits ds n Hne Hp Hn) as Hint.
  assert (Hw : wrap64 (0 + wrap64 (n * U)) = n * U).
  { rewrite (wrap64_id (n * U)) by (unfold MinInt64; nia).
    apply wrap64_id. unfold MinInt64. nia. }
  destruct ds as [|a0 s0]; [contradiction|].
  cbn [runes_of app] in *. cbn [parser.ParseDuration_loop].
  rewrite Hspan. cbv beta iota. rewrite Henc, Hint.
  cbn in Hin.
  repeat (destruct Hin as [E|Hin];
          [injection E as <- <- <-; cbv beta iota zeta;
           repeat match goal with
                  | |- context [?x =? ?y] =>
                    let b := eval vm_compute in (x =? y) in change (x =? y) with b
                  end;
           cbv beta iota; cbn [orb];
           destruct f; cbn [parser.ParseDuration_loop]; rewrite Hw;
           do 2 eexists; reflexivity|]).
  contradiction.
Qed.

Lemma string_length_app_ge2 (ds ustr : string) :
  ds <> EmptyString -> ustr <> EmptyString ->
  (Z.of_nat (String.length (ds +:+ ustr)) <? 2) = false.
Proof.
  intros H1 H2. apply Z.ltb_ge. rewrite string_length_app.
  destruct ds; [contradiction|]. destruct ustr; [contradiction|].
  cbn [String.length]. lia.
Qed.

Lemma runes_of_length ds : length (runes_of ds) = String.length ds.
Proof. induction ds as [|a ds IH]; [reflexivity|]. cbn. rewrite IH. reflexivity. Qed.

(** The text of a count and a unit parses to their product. *)
Lemma ParseDuration_count_unit q ustr us U :
  In (ustr, us, U) duration_units ->
  MinInt64 < q * U <= MaxInt64 ->
  parser.ParseDuration (FormatInt q +:+ ustr) = inr (q * U).
Proof.
  intros Hin Hq.
  destruct (duration_units_spec _ _ _ Hin) as (Hdec & HU & Hlen & Hus).
  assert (Hune : ustr <> EmptyString).
  { intros ->. cbn in Hlen. lia. }
  unfold FormatInt. destruct (q <? 0) eqn:Hneg.
  - apply Z.ltb_lt in Hneg.
    destruct (FormatUint_spec (- q)) as (ds & -> & Hne & Hall & Hp).
    { unfold MaxUint64, MinInt64, MaxInt64 in *. nia. }
    destruct (ParseDuration_loop_unit ds (- q) ustr us U
                (length (runes_of ds ++ us)) Hne Hall Hp ltac:(lia)
                ltac:(unfold MinInt64, MaxInt64 in *; nia) Hin)
      as (measure & unit & Hloop).
    unfold parser.ParseDuration.
    replace (Z.of_nat (String.length (String "-" ds +:+ ustr)) <? 2) with false.
    2:{ symmetry. apply (string_length_app_ge2 (String "-" ds) ustr); [discriminate|exact Hune]. }
    rewrite string_app_cons.
    change (decode_runes (String "-" (ds +:+ ustr))) with (45 :: decode_runes (ds +:+ ustr)).
    rewrite (decode_runes_digits ds ustr Hall), Hdec.
    change (45 =? rc "-") with true. cbv beta iota.
    rewrite Hloop.
    replace (- q * U <? 0) with false
      by (symmetry; apply Z.ltb_ge; nia).
    cbn [andb]. f_equal.
    rewrite wrap64_id by (unfold MinInt64, MaxInt64 in *; nia). lia.
  - apply Z.ltb_ge in Hneg.
    destruct (FormatUint_spec q) as (ds & -> & Hne & Hall & Hp).
    { unfold MaxUint64, MinInt64, MaxInt64 in *. nia. }
    destruct (ParseDuration_loop_unit ds q ustr us U
                (length (runes_of ds ++ us)) Hne Hall Hp Hneg ltac:(lia) Hin)
      as (measure & unit & Hloop).
    unfold parser.ParseDuration.
    rewrite (string_length_app_ge2 ds ustr Hne Hune).
    rewrite (decode_runes_digits ds ustr Hall), Hdec.
    destruct ds as [|a0 s0]; [contradiction|].
    cbn [all_digits] in Hall. apply andb_prop in Hall as [Ha0 _].
    apply digit_byte_range in Ha0.
    cbn [runes_of app] in *.
    replace (rc a0 =? rc "-") with false
      by (symmetry; apply Z.eqb_neq; change (rc "-") with 45; lia).
    rewrite Hloop.
    replace (q * U <? 0) with false by (symmetry; apply Z.ltb_ge; nia).
    reflexivity.
Qed.

(** X6. [ParseDuration] reads back what [FormatDuration] writes: for
    every duration above [math.MinInt64], parsing the formatted text
    returns the duration and no error. *)
Theorem ParseDuration_FormatDuration (d : Z) :
  MinInt64 < d <= MaxInt64 ->
  parser.ParseDuration (parser.FormatDuration d) = inr d.
Proof.
  intros Hd. unfold parser.FormatDuration, tools.FormatDuration.
  assert (Hexact : forall U, 0 < U -> (Z.rem d U =? 0) = true -> Z.quot d U * U = d).
  { intros U HU Hr. apply Z.eqb_eq in Hr.
    pose proof (Z.quot_rem' d U) as E. rewrite Hr in E. lia. }
  assert (Hgo : forall ustr us U,
             In (ustr, us, U) duration_units -> (Z.rem d U =? 0) = true ->
             parser.ParseDuration (FormatInt (Z.quot d U) +:+ ustr) = inr d).
  { intros ustr us U Hin Hr.
    destruct (duration_units_spec _ _ _ Hin) as (_ & HU & _).
    pose proof (Hexact U ltac:(lia) Hr) as E.
    rewrite (ParseDuration_count_unit _ _ _ _ Hin) by (rewrite E; exact Hd).
    rewrite E. reflexivity. }
  destruct (d =? 0) eqn:H0.
  { apply Z.eqb_eq in H0. subst d. vm_compute. reflexivity. }
  destruct (Z.rem d tools.Week =? 0) eqn:Hw.
  { apply (Hgo "w"%string [119] tools.Week); [cbn; tauto|exact Hw]. }
  destruct (Z.rem d tools.Day =? 0) eqn:Hday.
  { apply (Hgo "d"%string [100] tools.Day); [cbn; tauto|exact Hday]. }
  destruct (Z.rem d tools.Hour =? 0) eqn:Hh.
  { apply (Hgo "h"%string [104] tools.Hour); [cbn; tauto|exact Hh]. }
  destruct (Z.rem d tools.Minute =? 0) eqn:Hm.
  { apply (Hgo "m"%string [109] tools.Minute); [cbn; tauto|exact Hm]. }
  destruct (Z.rem d tools.Second =? 0) eqn:Hs.
  { apply (Hgo "s"%string [115] tools.Second); [cbn; tauto|exact Hs]. }
  destruct (Z.rem d tools.Millisecond =? 0) eqn:Hms.
  { apply (Hgo "ms"%string [109; 115] tools.Millisecond); [cbn; tauto|exact Hms]. }
  destruct (Z.rem d tools.Microsecond =? 0) eqn:Hus.
  { apply (Hgo "u"%string [117] tools.Microsecond); [cbn; tauto|exact Hus]. }
  rewrite (ParseDuration_count_unit d "ns" [110; 115] 1); [f_equal; lia|cbn; tauto|lia].
Qed.


End DurationFacts.


(** ** Tokens *)

Section TokenFacts.

Context {H : Host}.

(** The keywords with their tokens, as [init] enters them. *)
Definition keyword_table : list (string * token.Token) :=
  map (fun tok => (ToLower (token.String tok), tok))
      (token.keyword_tokens ++ [token.AND; token.OR; token.TRUE; token.FALSE]).

Lemma keywords_table : token.keywords = list_to_map keyword_table.
Proof. vm_compute. reflexivity. Qed.

(** X7. [Lookup] recognises exactly the keywords, in any letter case:
    a word whose lower-case form is that of a keyword, of AND, OR, TRUE
    or FALSE is that token; every other word is IDENT. *)
Theorem Lookup_keywords (s : string) :
  (forall tok,
      In tok (token.keyword_tokens ++ [token.AND; token.OR; token.TRUE; token.FALSE]) ->
      ToLower s = ToLower (token.String tok) -> token.Lookup s = tok)
  /\ (token.Lookup s <> token.IDENT ->
      In (token.Lookup s)
         (token.keyword_tokens ++ [token.AND; token.OR; token.TRUE; token.FALSE])
      /\ ToLower s = ToLower (token.String (token.Lookup s))).
Proof.
  split.
  - intros tok Hin E. unfold token.Lookup. rewrite E.
    cbn in Hin.
    repeat (destruct Hin as [<-|Hin]; [vm_compute; reflexivity|]).
    contradiction.
  - unfold token.Lookup. rewrite keywords_table.
    destruct (list_to_map keyword_table !! ToLower s) as [tok|] eqn:E; [|congruence].
    intros _. apply elem_of_list_to_map_2 in E. apply list_elem_of_In in E.
    cbn in E.
    repeat (destruct E as [E|E];
            [injection E as E1 E2; subst tok; rewrite <- E1;
             split; [cbn; tauto|reflexivity]|]).
    contradiction.
Qed.

(** X8. The binary operators are exactly the tokens with a precedence:
    [Precedence] is between 1 and 5 on the tokens for which [IsOperator]
    holds and 0 on all others, and the two regex operators are
    comparison operators. *)
Theorem Precedence_of_operators (tok : token.Token) :
  (token.IsOperator tok = true -> 1 <= token.Precedence tok <= 5)
  /\ (token.IsOperator tok = false -> token.Precedence tok = 0)
  /\ (token.IsRegexOp tok = true ->
      token.IsOperator tok = true /\ token.Precedence tok = token.Precedence token.EQ).
Proof.
  destruct tok; vm_compute; repeat split; intros; congruence.
Qed.

End TokenFacts.


(** ** Data types, names of fields *)

Section AstFacts.

Context (H : Host).

(** X9. [DataTypeFromString] reads back the text [String] gives for
    every data type, and maps every other text to [Unknown]. *)
Theorem DataTypeFromString_String (d : ast.DataType) (s : string) :
  ast.DataTypeFromString (ast.DataType_String d) = d
  /\ ((forall d', s <> ast.DataType_String d') -> ast.DataTypeFromString s = ast.Unknown).
Proof.
  split; [destruct d; reflexivity|].
  intros Hs. unfold ast.DataTypeFromString.
  repeat match goal with
         | |- context [String.eqb s ?t] =>
           destruct (String.eqb_spec s t) as [E|_];
           [exfalso; revert E;
            first [ apply (Hs ast.Float) | apply (Hs ast.Integer) | apply (Hs ast.Unsigned)
                  | apply (Hs ast.String_) | apply (Hs ast.Boolean) | apply (Hs ast.Time)
                  | apply (Hs ast.Duration) | apply (Hs ast.Tag) | apply (Hs ast.AnyField) ]|]
         end.
  reflexivity.
Qed.

(** The precedence of the data types, from the lowest. *)
Definition DataType_precedence (d : ast.DataType) : Z :=
  match d with
  | ast.Unknown => 0
  | ast.AnyField => 1
  | ast.Tag => 2
  | ast.Duration => 3
  | ast.Time => 4
  | ast.Boolean => 5
  | ast.String_ => 6
  | ast.Unsigned => 7
  | ast.Integer => 8
  | ast.Float => 9
  end.

(** X10. [LessThan] orders the data types by precedence, Float above
    Integer above Unsigned above String, Boolean, Time, Duration, Tag
    and AnyField: [d.LessThan(other)] holds exactly when [d] is Unknown
    or [other] stands higher than [d]. *)
Theorem LessThan_is_precedence (d other : ast.DataType) :
  ast.LessThan d other = true
  <-> d = ast.Unknown \/ DataType_precedence d < DataType_precedence other.
Proof.
  destruct d, other; vm_compute; split; intros E;
    try reflexivity; try discriminate E; auto;
    destruct E as [E|E]; discriminate E.
Qed.

(** A variable reference that is reached from an expression through
    binary expressions and parentheses only. *)
Inductive var_outside_calls : ast.Expr H -> Prop :=
| voc_var val ty : var_outside_calls (ast.VarRef H val ty)
| voc_lhs op lhs rhs : var_outside_calls lhs -> var_outside_calls (ast.BinaryExpr H op lhs rhs)
| voc_rhs op lhs rhs : var_outside_calls rhs -> var_outside_calls (ast.BinaryExpr H op lhs rhs)
| voc_paren e : var_outside_calls e -> var_outside_calls (ast.ParenExpr H e).

Lemma WalkExpr_containsVarRef (e : ast.Expr H) : forall st,
  ast.WalkExpr H (ast.containsVarRefVisitor_Visit H) e st = true
  <-> st = true \/ var_outside_calls e.
Proof.
  induction e as [op lhs IHl rhs IHr|name args|val|e IH|val ty|ty|b|name|d|n|n| |x|l|vals|s|t];
    intros st; cbn [ast.WalkExpr ast.containsVarRefVisitor_Visit];
    try (split; [intros ->; left; reflexivity|intros [->|Hv]; [reflexivity|inversion Hv]]).
  - rewrite IHr, IHl. split.
    + intros [[->|Hl]|Hr]; [left; reflexivity|right; apply voc_lhs; exact Hl
                           |right; apply voc_rhs; exact Hr].
    + intros [->|Hv]; [left; left; reflexivity|].
      inversion Hv; subst; [left; right; assumption|right; assumption].
  - rewrite IH. split.
    + intros [->|He]; [left; reflexivity|right; apply voc_paren; exact He].
    + intros [->|Hv]; [left; reflexivity|]. inversion Hv; subst. right; assumption.
  - split; [intros _; right; constructor|reflexivity].
Qed.

(** X11. [ContainsVarRef] is true exactly for the expressions that
    hold a variable reference outside every call: the visitor does not
    descend into the arguments of a call. *)
Theorem ContainsVarRef_outside_calls (e : ast.Expr H) :
  ast.ContainsVarRef H e = true <-> var_outside_calls e.
Proof.
  unfold ast.ContainsVarRef. cbn [ast.Walk]. rewrite WalkExpr_containsVarRef.
  split; [intros [E|Hv]; [discriminate E|exact Hv]|intros Hv; right; exact Hv].
Qed.

Lemma FieldExprByName_loop_spec (a : list (ast.Field H)) (name : string) : forall i0,
  match ast.FieldExprByName_loop H i0 a name with
  | (i, Some e) =>
    i0 <= i < i0 + Z.of_nat (length a)
    /\ exists f,
        nth_error a (Z.to_nat (i - i0)) = Some f
        /\ ast.fieldExprByName_step H f name = Some e
        /\ forall j f', (j < Z.to_nat (i - i0))%nat -> nth_error a j = Some f' ->
                        ast.fieldExprByName_step H f' name = None
  | (i, None) =>
    i = -1 /\ forall f, In f a -> ast.fieldExprByName_step H f name = None
  end.
Proof.
  induction a as [|f rest IH]; intros i0; cbn [ast.FieldExprByName_loop].
  - split; [reflexivity|]. intros f [].
  - destruct (ast.fieldExprByName_step H f name) as [e|] eqn:Hstep.
    + split; [cbn [length]; lia|]. exists f.
      replace (i0 - i0) with 0 by lia. cbn.
      split; [reflexivity|]. split; [exact Hstep|]. intros j f' Hj. lia.
    + specialize (IH (i0 + 1)).
      destruct (ast.FieldExprByName_loop H (i0 + 1) rest name) as [i [e|]].
      * destruct IH as (Hi & f1 & Hnth & Hs1 & Hfirst).
        split; [cbn [length]; lia|]. exists f1.
        replace (Z.to_nat (i - i0)) with (S (Z.to_nat (i - (i0 + 1)))) by lia.
        cbn [nth_error]. split; [exact Hnth|]. split; [exact Hs1|].
        intros [|j] f' Hj; cbn [nth_error].
        -- intros [= <-]. exact Hstep.
        -- apply Hfirst. lia.
      * destruct IH as (-> & Hnone). split; [reflexivity|].
        intros f' [<-|Hin]; [exact Hstep|apply Hnone; exact Hin].
Qed.


End AstFacts.


(** ** Statements: what every parsed SELECT satisfies *)

Section StatementFacts.

Context (H : Host).

Ltac invn Hb a q Hc := apply (bind_Ok H) in Hb as (a & q & Hc & Hb).

(** A comparison or logical operator somewhere in an expression. *)
Fixpoint has_boolean_op (e : ast.Expr H) : bool :=
  match e with
  | ast.BinaryExpr _ op l r => parser.isBooleanOp op || has_boolean_op l || has_boolean_op r
  | ast.Call _ _ args => existsb has_boolean_op args
  | ast.ParenExpr _ e' => has_boolean_op e'
  | _ => false
  end.

Lemma WalkExpr_validateField (e : ast.Expr H) : forall c,
  parser.foundInvalid (ast.WalkExpr H (parser.validateField_Visit H) e c)
  = parser.foundInvalid c || has_boolean_op e.
Proof.
  induction e as [op l r IHl IHr|name args IHargs|e' IHe|e Hl] using (Expr_nested_ind H);
    intros c; cbn [ast.WalkExpr parser.validateField_Visit has_boolean_op].
  - destruct (parser.isBooleanOp op); cbn [orb parser.foundInvalid].
    + symmetry. apply orb_true_r.
    + rewrite IHr, IHl. symmetry. apply orb_assoc.
  - revert c. induction IHargs as [|a args Ha _ IH]; intros c; cbn [fold_left existsb].
    + symmetry. apply orb_false_r.
    + rewrite IH, Ha. symmetry. apply orb_assoc.
  - apply IHe.
  - destruct e; try contradiction; cbn; symmetry; apply orb_false_r.
Qed.

Lemma has_boolean_op_occurs (e : ast.Expr H) op l r :
  has_boolean_op e = false ->
  occurs_in H (ast.BinaryExpr H op l r) e -> parser.isBooleanOp op = false.
Proof.
  intros Hb Ho. revert Hb.
  induction Ho as [|op' l' r' _ IH|op' l' r' _ IH|e' _ IH|name args x Hin _ IH];
    cbn [has_boolean_op]; intros Hb.
  - apply orb_false_elim in Hb as [Hb _]. apply orb_false_elim in Hb as [Hb _]. exact Hb.
  - apply orb_false_elim in Hb as [Hb _]. apply orb_false_elim in Hb as [_ Hb]. auto.
  - apply orb_false_elim in Hb as [_ Hb]. auto.
  - auto.
  - apply IH. destruct (has_boolean_op x) eqn:E; [|reflexivity].
    rewrite <- Hb. symmetry. apply existsb_exists. exists x. split; assumption.
Qed.

Lemma parseField_valid fuel p fld p' :
  parser.parseField H fuel p = parser.Ok (fld, p') ->
  has_boolean_op (ast.f_Expr H fld) = false.
Proof.
  unfold parser.parseField. intros Hp.
  invn Hp re q1 Hre. invn Hp expr q2 Hexpr. invn Hp alias q3 Halias. invn Hp u q4 Hws.
  injection Hp as <- <-. cbn [ast.f_Expr].
  destruct re as [r|].
  - injection Hexpr as <- <-. reflexivity.
  - invn Hexpr tk q5 Hsiw. destruct tk as [[pos tok] lit].
    invn Hexpr u2 q6 Hun. invn Hexpr e q7 He.
    pose proof (WalkExpr_validateField e (parser.mkValidateField false token.ILLEGAL)) as Hw.
    cbn [ast.Walk] in Hexpr.
    destruct (parser.foundInvalid
                (ast.WalkExpr H (parser.validateField_Visit H) e
                   (parser.mkValidateField false token.ILLEGAL))); [discriminate|].
    injection Hexpr as <- <-. cbn in Hw. symmetry. exact Hw.
Qed.

Lemma parseFields_loop_spec (P : ast.Field H -> Prop) :
  (forall f q fld q', parser.parseField H f q = parser.Ok (fld, q') -> P fld) ->
  forall fuel acc p fields p',
    parser.parseFields_loop H fuel acc p = parser.Ok (fields, p') ->
    exists new, fields = acc ++ new /\ new <> [] /\ Forall P new.
Proof.
  intros HP. induction fuel as [|f IH]; intros acc p fields p' Hp; [discriminate|].
  cbn [parser.parseFields_loop] in Hp.
  invn Hp fld q1 Hfld. invn Hp tk q2 Hscan. destruct tk as [[pos tok] lit].
  destruct (negb (token.eqb tok token.COMMA)).
  - invn Hp u q3 Hun. injection Hp as <- <-. exists [fld]. split; [reflexivity|].
    split; [discriminate|]. constructor; [eapply HP; exact Hfld|constructor].
  - destruct (IH _ _ _ _ Hp) as (new & -> & _ & Hall).
    exists (fld :: new). split; [rewrite <- app_assoc; reflexivity|].
    split; [discriminate|]. constructor; [eapply HP; exact Hfld|exact Hall].
Qed.

Lemma parseSources_loop_nonempty : forall fuel sub acc p sources p',
  parser.parseSources_loop H fuel sub acc p = parser.Ok (sources, p') ->
  (length acc < length sources)%nat.
Proof.
  induction fuel as [|f IH]; intros sub acc p sources p' Hp; [discriminate|].
  cbn [parser.parseSources_loop] in Hp.
  invn Hp src q1 Hsrc. invn Hp tk q2 Hscan. destruct tk as [[pos tok] lit].
  destruct (negb (token.eqb tok token.COMMA)).
  - invn Hp u q3 Hun. injection Hp as <- <-. rewrite length_app. cbn. lia.
  - apply IH in Hp. rewrite length_app in Hp. cbn in Hp. lia.
Qed.

Lemma ParseOptionalTokenAndInt_range fuel t p n p' :
  parser.ParseOptionalTokenAndInt H fuel t p = parser.Ok (n, p') -> 0 <= n <= MaxInt64.
Proof.
  unfold parser.ParseOptionalTokenAndInt. intros Hp.
  invn Hp tk q1 Hsiw. destruct tk as [[pos tok] lit].
  destruct (negb (token.eqb tok t)).
  - invn Hp u q2 Hun. injection Hp as <- <-. unfold MaxInt64. lia.
  - invn Hp tk2 q2 Hsiw2. destruct tk2 as [[pos2 tok2] lit2].
    destruct (negb (token.eqb tok2 token.INTEGER)); [discriminate|].
    cbv zeta in Hp. destruct (num_value (ParseInt lit2) <? 0) eqn:E; [discriminate|].
    injection Hp as <- <-. apply Z.ltb_ge in E. split; [exact E|].
    clear E. unfold ParseInt. destruct lit2 as [|a s]; [cbn; unfold MaxInt64; lia|].
    cbv zeta.
    destruct (if Ascii.eqb a "-" || Ascii.eqb a "+" then s else String a s) as [|b s'];
      [cbn; unfold MaxInt64; lia|].
    destruct (parse_digits (String b s') 0) as [v|] eqn:Ed; [|cbn; unfold MaxInt64; lia].
    pose proof (parse_digits_ge _ _ _ Ed (Z.le_refl 0)) as Hv.
    destruct (Ascii.eqb a "-").
    + destruct (v <=? 2 ^ 63); cbn [num_value]; unfold MaxInt64, MinInt64; lia.
    + destruct (v <=? MaxInt64) eqn:El; cbn [num_value]; [apply Z.leb_le in El; lia|lia].
Qed.

Lemma parseFill_spec fuel p opt v p' :
  parser.parseFill H fuel p = parser.Ok ((opt, v), p') ->
  (opt = ast.NumberFill <-> v <> ast.FillNil H).
Proof.
  unfold parser.parseFill. intros Hp.
  invn Hp tk q1 Hsiw. destruct tk as [[pos tok] lit]. invn Hp u q2 Hun.
  destruct (negb (token.eqb tok token.IDENT) || negb (String.eqb (ToLower lit) "fill")).
  - injection Hp as <- <- <-. split; [discriminate|congruence].
  - invn Hp e q3 He.
    destruct e as [|name [|arg [|]]| | | | | | | | | | | | | | |]; try discriminate.
    repeat match type of Hp with
           | (if ?c then _ else _) _ = _ =>
             destruct c; [injection Hp as <- <- <-; split; [discriminate|congruence]|]
           end.
    destruct arg; try discriminate; injection Hp as <- <- <-;
      (split; intros _; [discriminate|reflexivity]).
Qed.

(** X13. In every statement that [parseSelectStatement] returns, no
    field expression holds a comparison or a logical operator (=, !=,
    =~, !~, <, <=, >, >=, AND, OR), at the top, in a binary expression,
    in parentheses or among the arguments of a call. *)
Theorem select_fields_have_no_boolean_operator fuel tr p stmt p' :
  parser.parseSelectStatement H fuel tr p = parser.Ok (stmt, p') ->
  forall fld op l r,
    In fld (ast.Fields _ _ stmt) ->
    occurs_in H (ast.BinaryExpr H op l r) (ast.f_Expr H fld) ->
    parser.isBooleanOp op = false.
Proof.
  destruct fuel as [|f]; [discriminate|]. intros Hp.
  cbn [parser.parseSelectStatement] in Hp.
  invn Hp fields q1 Hfields. invn Hp target q2 Htarget. invn Hp tk q3 Hfrom.
  destruct tk as [[pos tok] lit].
  destruct (negb (token.eqb tok token.FROM)); [discriminate|].
  invn Hp sources q4 Hsources. invn Hp condition q5 Hcond. invn Hp dims q6 Hdims.
  invn Hp fill q7 Hfill. invn Hp sortFields q8 Hsort. invn Hp limit q9 Hlimit.
  invn Hp offset q10 Hoffset. invn Hp slimit q11 Hslimit. invn Hp soffset q12 Hsoffset.
  invn Hp location q13 Hloc.
  injection Hp as <- <-. cbn [ast.Fields].
  destruct (parseFields_loop_spec (fun fld => has_boolean_op (ast.f_Expr H fld) = false)
              parseField_valid _ _ _ _ _ Hfields) as (new & -> & _ & Hall).
  intros fld op l r Hin Ho. cbn [app] in Hin.
  rewrite Forall_forall in Hall. apply list_elem_of_In in Hin.
  apply (has_boolean_op_occurs _ _ _ _ (Hall fld Hin) Ho).
Qed.


End StatementFacts.


(** * Concrete runs: counterexamples and witnesses *)

Section ConcreteRuns.

#[local] Existing Instance textHost.

Abbreviation run_on q := (parser.NewParser textHost (decode_runes q)).


(** C8 as stated fails for a literal that does not fit in a [uint64]
    either: [18446744073709551616] exceeds [math.MaxInt64] and is a
    parse error, not an [UnsignedLiteral]. *)
Lemma C8_counterexample_literal_above_uint64 :
  MaxInt64 < 18446744073709551616
  /\ parser.ParseExpr_s textHost 60 "18446744073709551616"
     = parser.Err (parser.ParseError "unable to parse integer" EmptyString []
                     (token.mkPos 0 0)).
Proof. split; [reflexivity | vm_compute; reflexivity]. Qed.

Lemma C8_witness :
  exists p2,
    parser.parseUnaryExpr textHost 33 (run_on "-9223372036854775808")
    = parser.Ok (ast.IntegerLiteral textHost MinInt64, p2).
Proof.
  destruct (C8_integer_literal_above_int64 textHost "9223372036854775808"
              9223372036854775808) as [_ B];
    [discriminate | vm_compute; reflexivity | reflexivity |].
  eexists.
  edestruct (B 30%nat (run_on "-9223372036854775808")) as [C _];
    [vm_compute; discriminate | vm_compute; reflexivity | vm_compute; reflexivity |].
  apply C. reflexivity.
Defined.

(** The two examples of C2, parsed by the model. *)
Example parse_equal_precedence :
  parser.ParseExpr_s textHost 40 "a - b + c"
  = parser.Ok
      (ast.BinaryExpr textHost token.ADD
         (ast.BinaryExpr textHost token.SUB
            (ast.VarRef textHost "a" ast.Unknown) (ast.VarRef textHost "b" ast.Unknown))
         (ast.VarRef textHost "c" ast.Unknown)).
Proof. vm_compute. reflexivity. Qed.

Example parse_higher_precedence :
  parser.ParseExpr_s textHost 40 "a + b * c"
  = parser.Ok
      (ast.BinaryExpr textHost token.ADD
         (ast.VarRef textHost "a" ast.Unknown)
         (ast.BinaryExpr textHost token.MUL
            (ast.VarRef textHost "b" ast.Unknown) (ast.VarRef textHost "c" ast.Unknown))).
Proof. vm_compute. reflexivity. Qed.


Lemma C3_witness :
  exists stmt p',
    parser.parseSelectStatement textHost 40 parser.targetNotRequired
      (run_on "a, (1 + mean(b)) FROM m") = parser.Ok (stmt, p')
    /\ (ast.IsRawQuery _ _ stmt = true
        <-> (forall f, In f (ast.Fields _ _ stmt) ->
               ~ call_occurs_in textHost (ast.f_Expr textHost f))).
Proof.
  eexists. eexists. split; [vm_compute; reflexivity|].
  eapply (C3_IsRawQuery_iff_no_call textHost 40 parser.targetNotRequired
            (run_on "a, (1 + mean(b)) FROM m")).
  vm_compute. reflexivity.
Defined.

Lemma C7_witness :
  exists p3,
    parser.parseSource textHost 31 true (run_on "db.ttl./cpu.*/ WHERE")
    = parser.Ok
        (metric textHost "db" "ttl" EmptyString (Some (ast.mkRegexLiteral (Some "cpu.*"%string))),
         p3).
Proof.
  eexists.
  edestruct (C7_source_identifiers textHost 30 true (run_on "db.ttl./cpu.*/ WHERE"))
    as (_ & _ & B).
  - vm_compute. reflexivity.
  - right. split; [reflexivity|]. do 4 eexists.
    split; [vm_compute; reflexivity|]. split; [discriminate | reflexivity].
  - vm_compute. reflexivity.
  - edestruct B as (_ & _ & _ & C); [vm_compute; reflexivity|].
    apply C; reflexivity.
Defined.

(** ** Queries without statements: concrete runs *)

(** C10 as stated fails for a comment that holds a NUL rune: the
    reader takes the NUL for the end of the input, the comment ends
    there, and what follows in the line is read as tokens. *)
Lemma C10_counterexample_NUL_in_comment :
  decode_runes ("--" +:+ String "000"%char " x") = [45; 45; 0; 32; 120]
  /\ parser.ParseQuery textHost 60 ("--" +:+ String "000"%char " x")
     = parser.Err (parser.newParseError "x" ["SELECT"%string] (token.mkPos 0 3)).
Proof. split; vm_compute; reflexivity. Qed.

Lemma C10_witness :
  parser.run textHost (parser.Parser_ParseQuery textHost 40)
    (parser.NewParser textHost (decode_runes ";; /* a;b */ -- c"))
  = parser.Ok (ast.mkQuery textHost []).
Proof.
  apply (proj1 (C10_semicolons_comments_whitespace textHost)).
  - vm_compute normalize. vm_compute decode_runes.
    apply trivia_semicolon. apply trivia_semicolon.
    apply trivia_space; [reflexivity|].
    apply (trivia_block [32; 97; 59; 98; 32]).
    { intros pre post E.
      repeat (destruct pre as [|? pre]; [discriminate E|]; injection E as _ E).
      destruct pre; discriminate E. }
    apply trivia_space; [reflexivity|].
    apply trivia_last_line. repeat constructor; discriminate.
  - vm_compute. repeat constructor; discriminate.
  - vm_compute. lia.
Defined.


Lemma ParseQuery_without_statements_witness :
  parser.ParseQuery textHost 40 " /* a*b */ ;; -- the end"
  = parser.Ok (ast.mkQuery textHost []).
Proof.
  apply ParseQuery_without_statements.
  - vm_compute normalize.
    apply trivia_space; [reflexivity|].
    apply (trivia_block [32; 97; 42; 98; 32]).
    { intros pre post E.
      repeat (destruct pre as [|? pre]; [discriminate E|]; injection E as _ E).
      destruct pre; discriminate E. }
    apply trivia_space; [reflexivity|].
    apply trivia_semicolon. apply trivia_semicolon.
    apply trivia_space; [reflexivity|].
    apply trivia_last_line. repeat constructor; discriminate.
  - vm_compute. repeat constructor; discriminate.
  - vm_compute. lia.
Defined.

Lemma ParseQuery_stops_at_NUL_witness :
  parser.run textHost (parser.Parser_ParseQuery textHost 3)
    (parser.NewParser textHost [0; 115; 101; 108])
  = parser.Ok (ast.mkQuery textHost []).
Proof. apply ParseQuery_stops_at_NUL. lia. Defined.

(** ** The reader and the buffered scanner: concrete runs *)

Lemma read_unread_read_witness :
  scanner.read (scanner.unread (snd (scanner.read (scanner.newReader [97; 98]))))
  = scanner.read (scanner.newReader [97; 98]).
Proof.
  apply (read_unread_read (scanner.newReader [97; 98])).
  - apply newReader_view.
  - vm_compute. reflexivity.
Defined.

Lemma Unscan_replays_three_tokens_witness :
  exists t1 b1 t2 b2 t3 b3,
    scanner.bScan 10 (scanner.NewScanner [97; 32; 98]) = Some (t1, b1)
    /\ scanner.bScan 10 b1 = Some (t2, b2)
    /\ scanner.bScan 10 b2 = Some (t3, b3)
    /\ exists u1 u2,
        scanner.bScan 10 (scanner.Unscan (scanner.Unscan (scanner.Unscan b3))) = Some (t1, u1)
        /\ scanner.bScan 10 u1 = Some (t2, u2)
        /\ scanner.bScan 10 u2 = Some (t3, b3).
Proof.
  do 6 eexists.
  split; [vm_compute; reflexivity|].
  split; [vm_compute; reflexivity|].
  split; [vm_compute; reflexivity|].
  eapply (Unscan_replays_three_tokens (scanner.Scan 10) (scanner.Scan 10)
            (scanner.NewScanner [97; 32; 98]));
    [reflexivity | left; reflexivity | reflexivity
     | vm_compute; reflexivity | vm_compute; reflexivity | vm_compute; reflexivity].
Defined.

Lemma ParseDuration_FormatDuration_witness :
  parser.ParseDuration (parser.FormatDuration (-1500000)) = inr (-1500000).
Proof. apply ParseDuration_FormatDuration. unfold MinInt64, MaxInt64. lia. Defined.


(** ** Statements: concrete runs *)

Lemma select_fields_have_no_boolean_operator_witness :
  exists stmt p',
    parser.parseSelectStatement textHost 40 parser.targetNotRequired
      (run_on "a + b, max(c) FROM m") = parser.Ok (stmt, p')
    /\ forall fld op l r,
        In fld (ast.Fields _ _ stmt) ->
        occurs_in textHost (ast.BinaryExpr textHost op l r) (ast.f_Expr textHost fld) ->
        parser.isBooleanOp op = false.
Proof.
  destruct (parser.parseSelectStatement textHost 40 parser.targetNotRequired
              (run_on "a + b, max(c) FROM m")) as [[stmt p']| | |] eqn:Hp;
    try (vm_compute in Hp; discriminate Hp).
  exists stmt, p'. split; [reflexivity|].
  exact (select_fields_have_no_boolean_operator textHost _ _ _ _ _ Hp).
Defined.


End ConcreteRuns.
